(** * AE animation editor: keyframes, transforms and region extraction

    A shallow embedding of the timeline editor (js/timeline.js) and of the
    background extractor (class BackgroundExtractor), with the properties
    of the specification stated over it.

    Numbers.  A JavaScript number is modelled as a real number: the
    arithmetic of the source is kept operation by operation, its rounding
    error is not modelled.  Typed arrays (ImageData.data) are lists of
    integers; a store outside the array is dropped, as in the source. *)

From Stdlib Require Import String.
From stdpp Require Import list.
From Stdlib Require Import ZArith Reals Lra Lia Zfloor.

Local Open Scope R_scope.

(** ** JavaScript numbers *)

Definition Rleb (x y : R) : bool := if Rle_dec x y then true else false.
Definition Rltb (x y : R) : bool := if Rlt_dec x y then true else false.
Definition Reqb (x y : R) : bool := if Req_dec_T x y then true else false.

(** [x || d] on numbers: [d] replaces a falsy [x], that is 0. *)
Definition js_or (x d : R) : R := if Reqb x 0 then d else x.

(** [Math.round]: the nearest integer, a tie going up. *)
Definition js_round (x : R) : Z := Zfloor (x + / 2).

(** [x.toFixed(2)]: the sign and the integer [n] with [n / 100] nearest to
    [|x|], a tie taking the larger [n].  The decimal string printed is
    determined by this pair, and two strings are equal exactly when the
    pairs are. *)
Definition toFixed2 (x : R) : bool * Z :=
  (Rltb x 0, Zfloor (100 * Rabs x + / 2)).

Definition fixed2_eqb (a b : bool * Z) : bool :=
  Bool.eqb (fst a) (fst b) && Z.eqb (snd a) (snd b).

(** [a.toFixed(2) !== b.toFixed(2)] *)
Definition fixed2_differs (a b : R) : bool :=
  negb (fixed2_eqb (toFixed2 a) (toFixed2 b)).

(** ** Data model *)

(** const KF_PROPS = ["x", "y", "scale_x", "scale_y", "rotation",
                      "opacity", "mask_size", "flip_h", "flip_v"] *)
Inductive KfProp : Type :=
  | p_x | p_y | p_scale_x | p_scale_y | p_rotation
  | p_opacity | p_mask_size | p_flip_h | p_flip_v.

Definition prop_name (p : KfProp) : string :=
  match p with
  | p_x => "x" | p_y => "y" | p_scale_x => "scale_x" | p_scale_y => "scale_y"
  | p_rotation => "rotation" | p_opacity => "opacity"
  | p_mask_size => "mask_size" | p_flip_h => "flip_h" | p_flip_v => "flip_v"
  end.

Definition KF_PROPS : list KfProp :=
  [p_x; p_y; p_scale_x; p_scale_y; p_rotation; p_opacity; p_mask_size; p_flip_h; p_flip_v].

Definition KfProp_eqb (p q : KfProp) : bool :=
  match p, q with
  | p_x, p_x | p_y, p_y | p_scale_x, p_scale_x | p_scale_y, p_scale_y
  | p_rotation, p_rotation | p_opacity, p_opacity | p_mask_size, p_mask_size
  | p_flip_h, p_flip_h | p_flip_v, p_flip_v => true
  | _, _ => false
  end.

(** A sample [{ time, value }] of a track. *)
Record Keyframe : Type := mkKeyframe { kf_time : R; kf_value : R }.

(** What the editor reads of a decoded image: its natural size. *)
Record Image : Type := mkImage { img_width : R; img_height : R }.

(** [ImageData]: [data] is the flat RGBA byte array, four entries a pixel,
    rows first. *)
Record ImageData : Type := mkImageData { width : Z; height : Z; data : list Z }.

(** A layer object.  [props l p] is [layer[p]] for [p] in [KF_PROPS]
    ([#normalizeLayer] gives every one of them a value); [keyframes l p] is
    [layer.keyframes[p]], [None] when the key is absent. *)
Record Layer : Type := mkLayer {
  layer_id : string;
  layer_type : string;
  bg_mode : string;
  props : KfProp -> R;
  keyframes : KfProp -> option (list Keyframe);
  img : option Image
}.

Definition set_prop (l : Layer) (p : KfProp) (v : R) : Layer :=
  {| layer_id := layer_id l; layer_type := layer_type l; bg_mode := bg_mode l;
     props := fun q => if KfProp_eqb q p then v else props l q;
     keyframes := keyframes l; img := img l |}.

Definition set_track (l : Layer) (p : KfProp) (t : option (list Keyframe)) : Layer :=
  {| layer_id := layer_id l; layer_type := layer_type l; bg_mode := bg_mode l;
     props := props l;
     keyframes := fun q => if KfProp_eqb q p then t else keyframes l q;
     img := img l |}.

(** The part of [this.state] and of [this.ui] the operations below use.
    [dragKeyframe] holds the layer by its position in [layers]. *)
Record View : Type := mkView {
  layers : list Layer;
  selectedId : string;
  currentTime : R;
  duration : R;
  canvas_width : R;
  canvas_height : R;
  dragKeyframe : option (nat * KfProp * nat);
  mask_enabled : bool;
  mask_brush : R;
  maskCanvas : ImageData;
  jitter_amount : Z
}.

Definition set_layers (st : View) (ls : list Layer) : View :=
  {| layers := ls; selectedId := selectedId st; currentTime := currentTime st;
     duration := duration st; canvas_width := canvas_width st;
     canvas_height := canvas_height st; dragKeyframe := dragKeyframe st;
     mask_enabled := mask_enabled st; mask_brush := mask_brush st;
     maskCanvas := maskCanvas st; jitter_amount := jitter_amount st |}.

Definition set_currentTime (st : View) (t : R) : View :=
  {| layers := layers st; selectedId := selectedId st; currentTime := t;
     duration := duration st; canvas_width := canvas_width st;
     canvas_height := canvas_height st; dragKeyframe := dragKeyframe st;
     mask_enabled := mask_enabled st; mask_brush := mask_brush st;
     maskCanvas := maskCanvas st; jitter_amount := jitter_amount st |}.

Definition set_mask_brush (st : View) (b : R) : View :=
  {| layers := layers st; selectedId := selectedId st; currentTime := currentTime st;
     duration := duration st; canvas_width := canvas_width st;
     canvas_height := canvas_height st; dragKeyframe := dragKeyframe st;
     mask_enabled := mask_enabled st; mask_brush := b;
     maskCanvas := maskCanvas st; jitter_amount := jitter_amount st |}.

Definition set_maskCanvas (st : View) (m : ImageData) : View :=
  {| layers := layers st; selectedId := selectedId st; currentTime := currentTime st;
     duration := duration st; canvas_width := canvas_width st;
     canvas_height := canvas_height st; dragKeyframe := dragKeyframe st;
     mask_enabled := mask_enabled st; mask_brush := mask_brush st;
     maskCanvas := m; jitter_amount := jitter_amount st |}.

(** [#currentLayer]: the first layer whose id is the selected one, with its
    position in [layers]. *)
Fixpoint find_layer (sel : string) (ls : list Layer) (i : nat) : option (nat * Layer) :=
  match ls with
  | [] => None
  | l :: rest =>
      if String.eqb (layer_id l) sel then Some (i, l) else find_layer sel rest (S i)
  end.

Definition currentLayer (st : View) : option (nat * Layer) :=
  find_layer (selectedId st) (layers st) 0.

(** ** Interpolation engine: [#applyTime] *)

(** [frames.sort((a, b) => a.time - b.time)].  Array.prototype.sort is
    stable; a stable insertion sort computes the same array. *)
Fixpoint insert_by_time (k : Keyframe) (l : list Keyframe) : list Keyframe :=
  match l with
  | [] => [k]
  | h :: t => if Rleb (kf_time k) (kf_time h) then k :: h :: t
              else h :: insert_by_time k t
  end.

Definition sort_by_time (l : list Keyframe) : list Keyframe :=
  fold_right insert_by_time [] l.

Definition track_of (layer : Layer) (prop : KfProp) : list Keyframe :=
  match keyframes layer prop with Some t => t | None => [] end.

(** The interpolated value between two samples,
    [a.value + (b.value - a.value) * t] with
    [t = (currentTime - a.time) / (b.time - a.time || 1)]. *)
Definition lerp (a b : Keyframe) (ct : R) : R :=
  let t := (ct - kf_time a) / js_or (kf_time b - kf_time a) 1 in
  kf_value a + (kf_value b - kf_value a) * t.

(** The [for] loop over adjacent pairs; it stops at the first pair that
    brackets [ct].  [None]: no pair does, and nothing is assigned. *)
Fixpoint bracket_scan (frames : list Keyframe) (ct : R) : option R :=
  match frames with
  | a :: rest =>
      match rest with
      | b :: _ =>
          if Rleb (kf_time a) ct && Rleb ct (kf_time b) then Some (lerp a b ct)
          else bracket_scan rest ct
      | [] => None
      end
  | [] => None
  end.

(** The value [#applyTime] assigns to a property whose track is [track] at
    the (already clamped) time [ct]; [None] when it assigns nothing. *)
Definition evaluate (track : list Keyframe) (ct : R) : option R :=
  let frames := sort_by_time track in
  match frames, last frames with
  | first :: _, Some lst =>
      if Rleb ct (kf_time first) then Some (kf_value first)
      else if Rleb (kf_time lst) ct then Some (kf_value lst)
      else bracket_scan frames ct
  | _, _ => None
  end.

Definition applyTime_prop (ct : R) (layer : Layer) (prop : KfProp) : Layer :=
  match evaluate (track_of layer prop) ct with
  | Some v => set_prop layer prop v
  | None => layer
  end.

Definition applyTime_layer (ct : R) (layer : Layer) : Layer :=
  fold_left (applyTime_prop ct) KF_PROPS layer.

Definition applyTime (st : View) (time : R) : View :=
  let ct := Rmax 0 (Rmin (duration st) time) in
  set_layers (set_currentTime st ct) (map (applyTime_layer ct) (layers st)).

(** ** Keyframe store: [#addKeyframe], [#deleteKeyframe], [#onTimelineMove] *)

(** The body of [#addKeyframe] for one property. *)
Definition addKeyframe_prop (ct : R) (layer : Layer) (prop : KfProp) : Layer :=
  let kept := filter (fun kf => fixed2_differs (kf_time kf) ct = true) (track_of layer prop) in
  let pushed := kept ++ [mkKeyframe ct (props layer prop)] in
  set_track layer prop (Some (sort_by_time pushed)).

Definition addKeyframe_layer (ct : R) (layer : Layer) : Layer :=
  fold_left (addKeyframe_prop ct) KF_PROPS layer.

Definition addKeyframe (st : View) : View :=
  match currentLayer st with
  | None => st
  | Some (i, layer) =>
      set_layers st (<[i := addKeyframe_layer (currentTime st) layer]> (layers st))
  end.

(** The body of [#deleteKeyframe] for one property; the flag is [modified]. *)
Definition deleteKeyframe_prop (ct : R) (s : Layer * bool) (prop : KfProp) : Layer * bool :=
  let '(layer, modified) := s in
  match keyframes layer prop with
  | None => (layer, modified)
  | Some track =>
      let kept := filter (fun kf => fixed2_differs (kf_time kf) ct = true) track in
      (set_track layer prop (Some kept),
       if Nat.eqb (length kept) (length track) then modified else true)
  end.

Definition deleteKeyframe_layer (ct : R) (layer : Layer) : Layer * bool :=
  fold_left (deleteKeyframe_prop ct) KF_PROPS (layer, false).

Definition deleteKeyframe (st : View) : View :=
  match currentLayer st with
  | None => st
  | Some (i, layer) =>
      let '(layer', modified) := deleteKeyframe_layer (currentTime st) layer in
      let st' := set_layers st (<[i := layer']> (layers st)) in
      if modified then applyTime st' (currentTime st') else st'
  end.

(** [frames[index].time = newTime; frames.sort(...)] on one track.  An
    [index] outside the array makes the assignment throw before anything is
    changed: the track is returned as it was. *)
Definition moveKeyframe (frames : list Keyframe) (index : nat) (newTime : R) : list Keyframe :=
  match frames !! index with
  | Some kf => sort_by_time (<[index := mkKeyframe newTime (kf_value kf)]> frames)
  | None => frames
  end.

(** [#onTimelineMove]; [mx] is the horizontal position of the pointer on the
    timeline, as a fraction of its width. *)
Definition onTimelineMove (st : View) (mx : R) : View :=
  match dragKeyframe st with
  | None => st
  | Some (li, prop, index) =>
      let newTime := Rmax 0 (Rmin (duration st) (mx * duration st)) in
      match layers st !! li with
      | None => st
      | Some layer =>
          match keyframes layer prop with
          | None => st
          | Some frames =>
              match frames !! index with
              | None => st
              | Some _ =>
                  let layer' := set_track layer prop (Some (moveKeyframe frames index newTime)) in
                  applyTime (set_layers st (<[li := layer']> (layers st))) newTime
              end
          end
      end
  end.

(** ** Transform pipeline *)

(** The current transformation matrix of a 2D canvas context: a point
    [(px, py)] of the drawing commands lands on
    [(ma*px + mc*py + me, mb*px + md*py + mf)].  [translate], [rotate] and
    [scale] multiply the matrix on the right, as the canvas API does. *)
Record Matrix : Type := mkMatrix { ma : R; mb : R; mc : R; md : R; me : R; mf : R }.

Definition identity : Matrix := mkMatrix 1 0 0 1 0 0.

Definition translate (m : Matrix) (tx ty : R) : Matrix :=
  mkMatrix (ma m) (mb m) (mc m) (md m)
           (ma m * tx + mc m * ty + me m) (mb m * tx + md m * ty + mf m).

Definition rotate (m : Matrix) (angle : R) : Matrix :=
  mkMatrix (ma m * cos angle + mc m * sin angle) (mb m * cos angle + md m * sin angle)
           (mc m * cos angle - ma m * sin angle) (md m * cos angle - mb m * sin angle)
           (me m) (mf m).

Definition scale (m : Matrix) (sx sy : R) : Matrix :=
  mkMatrix (ma m * sx) (mb m * sx) (mc m * sy) (md m * sy) (me m) (mf m).

Definition transform_point (m : Matrix) (p : R * R) : R * R :=
  (ma m * fst p + mc m * snd p + me m, mb m * fst p + md m * snd p + mf m).

(** [(layer.scale_x || 1) * (layer.flip_h > 0.5 ? -1 : 1)] and the same for
    the vertical axis: the expression [#render] and [#canvasToLayerCoords]
    both compute. *)
Definition signed_scale_x (layer : Layer) : R :=
  js_or (props layer p_scale_x) 1 * (if Rltb (1 / 2) (props layer p_flip_h) then -1 else 1).

Definition signed_scale_y (layer : Layer) : R :=
  js_or (props layer p_scale_y) 1 * (if Rltb (1 / 2) (props layer p_flip_v) then -1 else 1).

(** The matrix [#render] sets up for a foreground layer, starting from the
    identity that [ctx.save] and [ctx.restore] keep around each layer:
    [ctx.translate], [ctx.rotate], [ctx.scale] in that order. *)
Definition render_transform (st : View) (layer : Layer) : Matrix :=
  let m := translate identity (canvas_width st / 2 + props layer p_x)
                              (canvas_height st / 2 + props layer p_y) in
  let m := rotate m (props layer p_rotation * PI / 180) in
  scale m (signed_scale_x layer) (signed_scale_y layer).

(** Where [ctx.drawImage(layer.img, -layer.img.width / 2, -layer.img.height / 2)]
    puts the point [(u, v)] of the raster on the canvas. *)
Definition render_point (st : View) (layer : Layer) (image : Image) (local : R * R) : R * R :=
  transform_point (render_transform st layer)
    (- img_width image / 2 + fst local, - img_height image / 2 + snd local).

(** [#canvasToLayerCoords(canvasPos, layer)] *)
Definition canvasToLayerCoords (st : View) (canvasPos : R * R) (layer : Layer) (image : Image)
  : R * R :=
  let cx := canvas_width st / 2 + props layer p_x in
  let cy := canvas_height st / 2 + props layer p_y in
  let x := fst canvasPos - cx in
  let y := snd canvasPos - cy in
  let angleRad := - (props layer p_rotation * PI / 180) in
  let cos := cos angleRad in
  let sin := sin angleRad in
  let rx := x * cos - y * sin in
  let ry := x * sin + y * cos in
  let sx := signed_scale_x layer in
  let sy := signed_scale_y layer in
  let imgX := rx / sx + img_width image / 2 in
  let imgY := ry / sy + img_height image / 2 in
  (imgX, imgY).

(** What [#drawBackground] asks of the canvas: the arguments of
    [ctx.translate], [ctx.rotate], [ctx.scale], and the destination
    rectangle of [ctx.drawImage] in the transformed space. *)
Record BackgroundDraw : Type := mkBackgroundDraw {
  bd_translate : R * R;
  bd_rotate : R;
  bd_scale : R * R;
  bd_dest_x : R;
  bd_dest_y : R;
  bd_dest_w : R;
  bd_dest_h : R
}.

Definition drawBackground (st : View) (layer : Layer) (image : Image) : BackgroundDraw :=
  let iw := img_width image in
  let ih := img_height image in
  let userScaleX := js_or (props layer p_scale_x) 1 in
  let userScaleY := js_or (props layer p_scale_y) 1 in
  let tr := (canvas_width st / 2 + js_or (props layer p_x) 0,
             canvas_height st / 2 + js_or (props layer p_y) 0) in
  let rot := js_or (props layer p_rotation) 0 * PI / 180 in
  let flipX := if Rltb (1 / 2) (props layer p_flip_h) then -1 else 1 in
  let flipY := if Rltb (1 / 2) (props layer p_flip_v) then -1 else 1 in
  if String.eqb (bg_mode layer) "stretch" then
    let drawW := canvas_width st * userScaleX in
    let drawH := canvas_height st * userScaleY in
    mkBackgroundDraw tr rot (flipX, flipY) (- drawW / 2) (- drawH / 2) drawW drawH
  else
    let baseScale :=
      if String.eqb (bg_mode layer) "fit"
      then Rmin (canvas_width st / iw) (canvas_height st / ih)
      else Rmax (canvas_width st / iw) (canvas_height st / ih) in
    mkBackgroundDraw tr rot (baseScale * userScaleX * flipX, baseScale * userScaleY * flipY)
                     (- iw / 2) (- ih / 2) iw ih.

(** The extent of the drawn raster along the layer's own horizontal axis,
    in canvas pixels: the destination width under the horizontal scale. *)
Definition drawn_width (d : BackgroundDraw) : R := Rabs (fst (bd_scale d)) * bd_dest_w d.
Definition drawn_height (d : BackgroundDraw) : R := Rabs (snd (bd_scale d)) * bd_dest_h d.

(** [#onCanvasWheel]; [deltaY] is the wheel movement of the event. *)
Definition onCanvasWheel (st : View) (deltaY : R) : View :=
  if mask_enabled st then
    set_mask_brush st (Rmax 5 (Rmin 100 (mask_brush st + (if Rltb deltaY 0 then 2 else -2))))
  else
    match currentLayer st with
    | None => st
    | Some (i, layer) =>
        let factor := if Rltb deltaY 0 then 11 / 10 else 9 / 10 in
        let layer1 := set_prop layer p_scale_x
                        (Rmax (1 / 100) (Rmin 5 (js_or (props layer p_scale_x) 1 * factor))) in
        let layer2 := set_prop layer1 p_scale_y
                        (Rmax (1 / 100) (Rmin 5 (js_or (props layer1 p_scale_y) 1 * factor))) in
        set_layers st (<[i := layer2]> (layers st))
    end.

(** ** Rasters *)

Local Open Scope Z_scope.

(** [d[i]] read as a number.  A read outside the array gives [undefined];
    the stores into a typed array and the tests [> 128] and [> 64] treat it
    like 0, and the other reads below stay inside a raster of [4 * w * h]
    bytes. *)
Definition load (d : list Z) (i : Z) : Z :=
  if i <? 0 then 0 else default 0 (d !! Z.to_nat i).

(** [d[i] = v] for a byte [v] copied from another array or a constant. *)
Definition store (d : list Z) (i v : Z) : list Z :=
  if i <? 0 then d else <[Z.to_nat i := v]> d.

(** [for (let i = lo; i < hi; i += 1) body(i)] *)
Definition for_range {St : Type} (lo hi : Z) (body : Z -> St -> St) (s : St) : St :=
  fold_left (fun acc i => body i acc) (seqZ lo (hi - lo)) s.

(** [for (let i = 0; i < len; i += 4) body(i)] *)
Definition for_step4 {St : Type} (len : Z) (body : Z -> St -> St) (s : St) : St :=
  fold_left (fun acc k => body (4 * k) acc) (seqZ 0 ((len + 3) / 4)) s.

(** [ctx.createImageData(w, h)]: transparent black. *)
Definition createImageData (w h : Z) : ImageData :=
  mkImageData w h (replicate (Z.to_nat (4 * w * h)) 0).

(** The conversion of a number stored in a [Uint8ClampedArray], for the
    quotient [n / d] of two integers, [d > 0]: clamped to 0..255 and rounded
    to the nearest integer, a tie going to the even one. *)
Definition round_half_even_div (n d : Z) : Z :=
  let q := n / d in
  let r2 := 2 * (n mod d) in
  if r2 <? d then q else if d <? r2 then q + 1 else if Z.even q then q else q + 1.

Definition to_uint8_clamped (n d : Z) : Z := Z.max 0 (Z.min 255 (round_half_even_div n d)).

Definition clamp8 (v : Z) : Z := Z.max 0 (Z.min 255 v).

(** *** Region extraction, step 1: the foreground cut-out *)

(** The body of the loop of [BackgroundExtractor.extract] (and, letter for
    letter, of [#applyExtraction]) at byte offset [i]. *)
Definition cutout_step (bgData maskData : list Z) (i : Z) (fgData : list Z) : list Z :=
  let maskValue := load maskData i in
  if 128 <? maskValue then
    let fgData := store fgData i (load bgData i) in
    let fgData := store fgData (i + 1) (load bgData (i + 1)) in
    let fgData := store fgData (i + 2) (load bgData (i + 2)) in
    store fgData (i + 3) 255
  else
    store fgData (i + 3) 0.

Definition cutout (bgData maskData fgData : list Z) : list Z :=
  for_step4 (Z.of_nat (length bgData)) (cutout_step bgData maskData) fgData.

(** [BackgroundExtractor.extract], the foreground: [bgData] and [maskData]
    are the [w] by [h] image data of the background and of the selection
    canvas. *)
Definition extract_foreground (w h : Z) (bgData maskData : list Z) : list Z :=
  cutout bgData maskData (data (createImageData w h)).

(** [#applyExtraction], the foreground: the same loop over the image data
    of the background image and of the extraction canvas. *)
Definition applyExtraction_foreground (bgW bgH : Z) (bgData extractMask : list Z) : list Z :=
  cutout bgData extractMask (data (createImageData bgW bgH)).

(** *** Step 2: filling the hole *)

Definition blurRadius : Z := 10.

(** The four accumulators [sumR], [sumG], [sumB], [count]. *)
Definition Sums : Type := (R * R * R * R)%type.

(** The body of the two sampling loops at offset [(dx, dy)] from [(x, y)]. *)
Definition fill_sample (w h : Z) (bgData maskData : list Z) (x y dy dx : Z) (acc : Sums) : Sums :=
  let '(sumR, sumG, sumB, count) := acc in
  let nx := x + dx in
  let ny := y + dy in
  if (0 <=? nx) && (nx <? w) && (0 <=? ny) && (ny <? h) then
    let nidx := (ny * w + nx) * 4 in
    let nmask := load maskData nidx in
    if nmask <? 128 then
      let distance := sqrt (IZR (dx * dx + dy * dy)) in
      let weight := Rmax 0 (IZR blurRadius - distance) in
      (sumR + IZR (load bgData nidx) * weight,
       sumG + IZR (load bgData (nidx + 1)) * weight,
       sumB + IZR (load bgData (nidx + 2)) * weight,
       count + weight)%R
    else acc
  else acc.

Definition fill_sums (w h : Z) (bgData maskData : list Z) (x y : Z) : Sums :=
  for_range (- blurRadius) (blurRadius + 1)
    (fun dy => for_range (- blurRadius) (blurRadius + 1)
       (fun dx => fill_sample w h bgData maskData x y dy dx))
    (0, 0, 0, 0)%R.

(** The body of the two pixel loops at [(x, y)]. *)
Definition fill_pixel (w h : Z) (bgData maskData : list Z) (y x : Z) (filledData : list Z)
  : list Z :=
  let idx := (y * w + x) * 4 in
  let maskValue := load maskData idx in
  if 128 <? maskValue then
    let '(sumR, sumG, sumB, count) := fill_sums w h bgData maskData x y in
    if Rltb 0 count then
      let filledData := store filledData idx (clamp8 (js_round (sumR / count))) in
      let filledData := store filledData (idx + 1) (clamp8 (js_round (sumG / count))) in
      let filledData := store filledData (idx + 2) (clamp8 (js_round (sumB / count))) in
      store filledData (idx + 3) 255
    else filledData
  else filledData.

(** [for (let i = 0; i < bgData.length; i++) filledData[i] = bgData[i]] *)
Definition copy_bytes (bgData filledData : list Z) : list Z :=
  for_range 0 (Z.of_nat (length bgData)) (fun i f => store f i (load bgData i)) filledData.

Definition fill_background (w h : Z) (bgData maskData : list Z) : list Z :=
  for_range 0 h
    (fun y => for_range 0 w (fun x => fill_pixel w h bgData maskData y x))
    (copy_bytes bgData (data (createImageData w h))).

(** *** Step 3: the smoothing pass, [applyGaussianBlur] *)

Definition kernel : list (list Z) := [[1; 2; 1]; [2; 4; 2]; [1; 2; 1]].
Definition kernelSum : Z := 16.

(** [kernel[r][c]] *)
Definition kernel_at (r c : Z) : Z :=
  default 0 (default [] (kernel !! Z.to_nat r) !! Z.to_nat c).

Definition blur_sample (w : Z) (tempData : list Z) (x y ky kx : Z) (acc : Z * Z * Z)
  : Z * Z * Z :=
  let '(sumR, sumG, sumB) := acc in
  let nx := x + kx in
  let ny := y + ky in
  let nidx := (ny * w + nx) * 4 in
  let weight := kernel_at (ky + 1) (kx + 1) in
  (sumR + load tempData nidx * weight,
   sumG + load tempData (nidx + 1) * weight,
   sumB + load tempData (nidx + 2) * weight).

Definition blur_sums (w : Z) (tempData : list Z) (x y : Z) : Z * Z * Z :=
  for_range (-1) 2
    (fun ky => for_range (-1) 2 (fun kx => blur_sample w tempData x y ky kx))
    (0, 0, 0).

Definition blur_pixel (w : Z) (maskData tempData : list Z) (y x : Z) (data : list Z) : list Z :=
  let idx := (y * w + x) * 4 in
  let maskValue := load maskData idx in
  if 64 <? maskValue then
    let '(sumR, sumG, sumB) := blur_sums w tempData x y in
    let data := store data idx (to_uint8_clamped sumR kernelSum) in
    let data := store data (idx + 1) (to_uint8_clamped sumG kernelSum) in
    store data (idx + 2) (to_uint8_clamped sumB kernelSum)
  else data.

(** One iteration: [tempData] is the copy taken before the loops. *)
Definition blur_pass (w h : Z) (maskData : list Z) (data : list Z) : list Z :=
  let tempData := data in
  for_range 1 (h - 1)
    (fun y => for_range 1 (w - 1) (fun x => blur_pixel w maskData tempData y x))
    data.

Definition applyGaussianBlur (w h : Z) (source maskData : list Z) (iterations : Z) : list Z :=
  for_range 0 iterations (fun _ => blur_pass w h maskData) source.

(** The background [BackgroundExtractor.extract] returns. *)
Definition extract_background (w h : Z) (bgData maskData : list Z) : list Z :=
  applyGaussianBlur w h (fill_background w h bgData maskData) maskData 5.

(** *** Mask edge jitter: [#applyMaskJitter] *)

(** [Math.random] is a stream of draws and a position in it. *)
Definition randUnit (amount : Z) (rand : nat -> R) (n : nat) : (Z * Z) * nat :=
  let theta := (rand n * PI * 2)%R in
  let r := rand (S n) in
  ((js_round (cos theta * IZR amount * r), js_round (sin theta * IZR amount * r)), S (S n)).

Definition jitter_pixel (w h amount : Z) (src : list Z) (rand : nat -> R) (y x : Z)
    (s : nat * list Z) : nat * list Z :=
  let '(n, dst) := s in
  let '((ox, oy), n') := randUnit amount rand n in
  let sx := Z.min (w - 1) (Z.max 0 (x + ox)) in
  let sy := Z.min (h - 1) (Z.max 0 (y + oy)) in
  let dstIdx := (y * w + x) * 4 in
  let srcIdx := (sy * w + sx) * 4 in
  let dst := store dst dstIdx (load src srcIdx) in
  let dst := store dst (dstIdx + 1) (load src (srcIdx + 1)) in
  let dst := store dst (dstIdx + 2) (load src (srcIdx + 2)) in
  (n', store dst (dstIdx + 3) (load src (srcIdx + 3))).

Definition jitter (w h amount : Z) (src : list Z) (rand : nat -> R) (n : nat) : nat * list Z :=
  for_range 0 h
    (fun y => for_range 0 w (fun x => jitter_pixel w h amount src rand y x))
    (n, data (createImageData w h)).

(** [#applyMaskJitter]: [rand] and [n] are the draws of [Math.random] and the
    number of them already consumed.  Only the mask canvas is written. *)
Definition applyMaskJitter (st : View) (rand : nat -> R) (n : nat) : View :=
  if negb (mask_enabled st) then st
  else
    let canvas := maskCanvas st in
    if (width canvas =? 0) || (height canvas =? 0) then st
    else
      let dst := snd (jitter (width canvas) (height canvas) (jitter_amount st)
                             (data canvas) rand n) in
      set_maskCanvas st (mkImageData (width canvas) (height canvas) dst).

(** ** Predicates, examples and wordings of the specification *)

Local Open Scope R_scope.

(** Ascending by time, and strictly so. *)
Fixpoint ascending (l : list Keyframe) : Prop :=
  match l with
  | a :: rest =>
      match rest with
      | b :: _ => kf_time a <= kf_time b /\ ascending rest
      | [] => True
      end
  | [] => True
  end.

Fixpoint strictly_ascending (l : list Keyframe) : Prop :=
  match l with
  | a :: rest =>
      match rest with
      | b :: _ => kf_time a < kf_time b /\ strictly_ascending rest
      | [] => True
      end
  | [] => True
  end.

(** The scenario of the specification: a 1280 by 720 project of 81 frames
    at 16 frames a second, one foreground layer with the track
    [x: 0 -> -100, 2 -> 100]. *)
Definition scenario_track : list Keyframe := [mkKeyframe 0 (-100); mkKeyframe 2 100].

Definition scenario_layer : Layer :=
  mkLayer "layer_0" "foreground" "fit"
    (fun p => match p with
              | p_scale_x | p_scale_y | p_opacity | p_mask_size => 1
              | _ => 0
              end)
    (fun p => match p with p_x => Some scenario_track | _ => None end)
    None.

Definition scenario_view : View :=
  mkView [scenario_layer] "layer_0" 0 (81 / 16) 1280 720 None false 20
         (createImageData 0 0) 2.

(** The scenario after the project was shortened to one second: the track
    [x] keeps its sample at 2 s, now past the end of the timeline. *)
Definition shortened_view : View :=
  mkView [scenario_layer] "layer_0" 0 1 1280 720 None false 20
         (createImageData 0 0) 2.

(** The interpolation formula of C1 as the specification words it, with a
    positive [eps] under the [max]. *)
Definition C1_claimed_value (eps : R) (a b : Keyframe) (t : R) : R :=
  kf_value a + (kf_value b - kf_value a) * (t - kf_time a)
               / Rmax (kf_time b - kf_time a) eps.

(** The track [#addKeyframe] leaves for a property: the samples whose
    rounded time differs from the current one, and the new sample, sorted. *)
Definition added_track (ct v : R) (track : list Keyframe) : list Keyframe :=
  sort_by_time (filter (fun kf => fixed2_differs (kf_time kf) ct = true) track
                ++ [mkKeyframe ct v]).

(** The layer part of the body of [#deleteKeyframe]. *)
Definition deleted_prop (ct : R) (layer : Layer) (prop : KfProp) : Layer :=
  fst (deleteKeyframe_prop ct (layer, false) prop).

(** A view in which the second sample of the scenario's track [x] is being
    dragged. *)
Definition dragging_view : View :=
  mkView [scenario_layer] "layer_0" 0 (81 / 16) 1280 720 (Some (0%nat, p_x, 1%nat))
         false 20 (createImageData 0 0) 2.

(** The background of the scenario: a 1000 by 500 raster in fit mode. *)
Definition scenario_background : Layer :=
  mkLayer "background" "background" "fit"
    (fun p => match p with
              | p_scale_x | p_scale_y | p_opacity | p_mask_size => 1
              | _ => 0
              end)
    (fun _ => None)
    (Some (mkImage 1000 500)).

Local Open Scope Z_scope.

(** A two-pixel background and a selection that covers its first pixel. *)
Definition example_bgData : list Z := [10; 20; 30; 255; 200; 210; 220; 255].

Definition example_maskData : list Z := [255; 255; 255; 255; 0; 0; 0; 255].

(** A 3 by 3 background, white around a black centre, and a mask whose
    centre holds 100: over the smoothing threshold, under the selection
    threshold. *)
Definition soft_edge_bgData : list Z :=
  [255; 255; 255; 255;  255; 255; 255; 255;  255; 255; 255; 255;
   255; 255; 255; 255;    0;   0;   0; 255;  255; 255; 255; 255;
   255; 255; 255; 255;  255; 255; 255; 255;  255; 255; 255; 255].

Definition soft_edge_maskData : list Z :=
  [0; 0; 0; 255;  0; 0; 0; 255;        0; 0; 0; 255;
   0; 0; 0; 255;  100; 100; 100; 255;  0; 0; 0; 255;
   0; 0; 0; 255;  0; 0; 0; 255;        0; 0; 0; 255].

(** The sampling of C4 as the specification words it: a neighbour counts
    when its mask value is 128 or less. *)
Definition claimed_fill_sample (w h : Z) (bgData maskData : list Z) (x y dy dx : Z)
    (acc : Sums) : Sums :=
  let '(sumR, sumG, sumB, count) := acc in
  let nx := x + dx in
  let ny := y + dy in
  if (0 <=? nx) && (nx <? w) && (0 <=? ny) && (ny <? h) then
    let nidx := (ny * w + nx) * 4 in
    let nmask := load maskData nidx in
    if nmask <=? 128 then
      let distance := sqrt (IZR (dx * dx + dy * dy)) in
      let weight := Rmax 0 (IZR blurRadius - distance) in
      (sumR + IZR (load bgData nidx) * weight,
       sumG + IZR (load bgData (nidx + 1)) * weight,
       sumB + IZR (load bgData (nidx + 2)) * weight,
       count + weight)%R
    else acc
  else acc.

Definition claimed_fill_sums (w h : Z) (bgData maskData : list Z) (x y : Z) : Sums :=
  for_range (- blurRadius) (blurRadius + 1)
    (fun dy => for_range (- blurRadius) (blurRadius + 1)
       (fun dx => claimed_fill_sample w h bgData maskData x y dy dx))
    (0, 0, 0, 0)%R.

(** The rounded weighted average of C4, when some weight was gathered. *)
Definition claimed_fill_rgb (w h : Z) (bgData maskData : list Z) (x y : Z)
  : option (Z * Z * Z) :=
  let '(sumR, sumG, sumB, count) := claimed_fill_sums w h bgData maskData x y in
  if Rltb 0 count
  then Some (js_round (sumR / count), js_round (sumG / count), js_round (sumB / count))
  else None.

(** A selection whose neighbour pixel holds exactly 128. *)
Definition edge_maskData : list Z := [255; 255; 255; 255; 128; 128; 128; 255].

(** The offset [randUnit] returns from the draws [u_angle] and [u_radius]. *)
Definition jitter_offset (amount : Z) (u_angle u_radius : R) : Z * Z :=
  (js_round (cos (u_angle * PI * 2) * IZR amount * u_radius),
   js_round (sin (u_angle * PI * 2) * IZR amount * u_radius)).

(** The source pixel of the destination pixel [(x, y)]. *)
Definition jitter_source (w h amount : Z) (rand : nat -> R) (n : nat) (x y : Z) : Z * Z :=
  let k := Z.to_nat (y * w + x) in
  let '(ox, oy) := jitter_offset amount (rand (n + 2 * k)%nat) (rand (S (n + 2 * k))) in
  (Z.min (w - 1) (Z.max 0 (x + ox)), Z.min (h - 1) (Z.max 0 (y + oy))).

(** The write of the loop body at pixel number [k], rows first, when [n0]
    draws were consumed before the loops. *)
Definition jitter_step (w h amount : Z) (src : list Z) (rand : nat -> R) (n0 : nat)
    (k : Z) (dst : list Z) : list Z :=
  snd (jitter_pixel w h amount src rand (k / w) (k mod w)
         ((n0 + 2 * Z.to_nat k)%nat, dst)).

(** A 3 by 1 mask of three grey levels, jittered by 4. *)
Definition jitter_view : View :=
  mkView [scenario_layer] "layer_0" 0 (81 / 16) 1280 720 None true 20
         (mkImageData 3 1 [10; 10; 10; 255; 20; 20; 20; 255; 30; 30; 30; 255]) 4.

(** Draws of [Math.random]: 0 for every angle, 1/4 for every radius. *)
Definition jitter_draws (i : nat) : R := if Nat.even i then 0%R else (1 / 4)%R.

(** The displacement of C8 as the specification words it: the angle
    [2 * pi * u1] and the radius [amount * sqrt(u2)]. *)
Definition claimed_displacement (amount : Z) (u1 u2 : R) : R * R :=
  (IZR amount * sqrt u2 * cos (2 * PI * u1), IZR amount * sqrt u2 * sin (2 * PI * u1))%R.

(** ** Further operations of the editor *)

Local Open Scope R_scope.

Definition set_keyframes (l : Layer) (k : KfProp -> option (list Keyframe)) : Layer :=
  {| layer_id := layer_id l; layer_type := layer_type l; bg_mode := bg_mode l;
     props := props l; keyframes := k; img := img l |}.

Definition set_dragKeyframe (st : View) (d : option (nat * KfProp * nat)) : View :=
  {| layers := layers st; selectedId := selectedId st; currentTime := currentTime st;
     duration := duration st; canvas_width := canvas_width st;
     canvas_height := canvas_height st; dragKeyframe := d;
     mask_enabled := mask_enabled st; mask_brush := mask_brush st;
     maskCanvas := maskCanvas st; jitter_amount := jitter_amount st |}.

(** [#clearKeyframes]; [confirmed] is the answer to [window.confirm]. *)
Definition clearKeyframes (st : View) (confirmed : bool) : View :=
  match currentLayer st with
  | None => st
  | Some (i, layer) =>
      if confirmed then
        applyTime (set_layers st (<[i := set_keyframes layer (fun _ => None)]> (layers st)))
                  (currentTime st)
      else st
  end.

(** The hit test of [#onTimelineDown] on one sample: [tw] and [th] are the
    width and the height of the timeline canvas, [(mx, my)] the position of
    the pointer as fractions of them.  The duration is positive. *)
Definition timeline_hit (st : View) (tw th mx my : R) (kf : Keyframe) : bool :=
  let px := kf_time kf / duration st in
  Rleb (Rabs (px - mx) * tw) 6 && Rleb (Rabs (my * th - 35)) 12.

(** The inner loop: the first sample of [frames] that is hit, from
    position [i] on. *)
Fixpoint timeline_hit_index (st : View) (tw th mx my : R) (frames : list Keyframe) (i : nat)
  : option nat :=
  match frames with
  | [] => None
  | kf :: rest =>
      if timeline_hit st tw th mx my kf then Some i
      else timeline_hit_index st tw th mx my rest (S i)
  end.

(** The outer loop over the properties. *)
Fixpoint timeline_hit_prop (st : View) (tw th mx my : R) (layer : Layer) (ps : list KfProp)
  : option (KfProp * nat) :=
  match ps with
  | [] => None
  | prop :: rest =>
      match timeline_hit_index st tw th mx my (track_of layer prop) 0 with
      | Some i => Some (prop, i)
      | None => timeline_hit_prop st tw th mx my layer rest
      end
  end.

(** [#onTimelineDown] *)
Definition onTimelineDown (st : View) (tw th mx my : R) : View :=
  let hit :=
    match currentLayer st with
    | Some (li, layer) =>
        if negb (String.eqb (layer_type layer) "background") then
          match timeline_hit_prop st tw th mx my layer KF_PROPS with
          | Some (prop, i) => Some (li, prop, i)
          | None => None
          end
        else None
    | None => None
    end in
  match hit with
  | Some d => set_dragKeyframe st (Some d)
  | None => applyTime st (mx * duration st)
  end.

(** [#onTimelineUp] *)
Definition onTimelineUp (st : View) : View := set_dragKeyframe st None.

(** *** Project settings *)

Local Open Scope Z_scope.

(** [#coerceInt(value, fallback, { min, max })].  [parsed] is what
    [parseInt(value, 10)] gives, [None] for [NaN]; a bound that is not given
    is [None]. *)
Definition coerceInt (parsed : option Z) (fallback : Z) (min max : option Z) : Z :=
  let next := match parsed with Some n => n | None => fallback end in
  let next := match min with Some m => Z.max m next | None => next end in
  match max with Some m => Z.min m next | None => next end.

(** The project part of [this.state], and the size of the preview canvas. *)
Record Project : Type := mkProject {
  state_width : Z;
  state_height : Z;
  state_fps : Z;
  state_totalFrames : Z;
  state_duration : R;
  preview_width : Z;
  preview_height : Z
}.

(** [#setResolution(width, height)]; the arguments are given as
    [parseInt] reads them. *)
Definition setResolution (pr : Project) (width height : option Z) : Project :=
  let nextWidth := coerceInt width (state_width pr) (Some 64) (Some 8192) in
  let nextHeight := coerceInt height (state_height pr) (Some 64) (Some 8192) in
  if (nextWidth =? state_width pr) && (nextHeight =? state_height pr) then pr
  else
    {| state_width := nextWidth; state_height := nextHeight;
       state_fps := state_fps pr; state_totalFrames := state_totalFrames pr;
       state_duration := state_duration pr;
       preview_width := Z.min nextWidth 1920; preview_height := Z.min nextHeight 1080 |}.

(** [#setTimelineMetrics(fps, totalFrames)] *)
Definition setTimelineMetrics (pr : Project) (fps totalFrames : option Z) : Project :=
  let nextFps := coerceInt fps (state_fps pr) (Some 1) (Some 120) in
  let nextFrames := coerceInt totalFrames (state_totalFrames pr) (Some 1) (Some 9999) in
  let fps1 := if negb (nextFps =? state_fps pr) then nextFps else state_fps pr in
  let frames1 :=
    if negb (nextFrames =? state_totalFrames pr) then nextFrames else state_totalFrames pr in
  {| state_width := state_width pr; state_height := state_height pr;
     state_fps := fps1; state_totalFrames := frames1;
     state_duration := (IZR frames1 / IZR (Z.max fps1 1))%R;
     preview_width := preview_width pr; preview_height := preview_height pr |}.

(** [applyProjectSettings]: the four inputs as [parseInt] reads them. *)
Definition applyProjectSettings (pr : Project) (widthInput heightInput fpsInput frameCount : option Z)
  : Project :=
  let width := coerceInt widthInput (state_width pr) (Some 64) (Some 8192) in
  let height := coerceInt heightInput (state_height pr) (Some 64) (Some 8192) in
  let fps := coerceInt fpsInput (state_fps pr) (Some 1) (Some 120) in
  let frames := coerceInt frameCount (state_totalFrames pr) (Some 1) (Some 9999) in
  setTimelineMetrics (setResolution pr (Some width) (Some height)) (Some fps) (Some frames).

(** What an input does to its setting: [typed] is what [parseInt] reads,
    [old] the setting before, [new] the setting after, [lo] and [hi] the
    bounds of the setting. *)
Definition setting_taken (typed : option Z) (old lo hi new : Z) : Prop :=
  (forall v, typed = Some v -> lo <= v <= hi -> new = v) /\
  (forall v, typed = Some v -> v < lo -> new = lo) /\
  (forall v, typed = Some v -> hi < v -> new = hi) /\
  (typed = None -> lo <= old <= hi -> new = old).

Definition set_jitter_amount (st : View) (a : Z) : View :=
  {| layers := layers st; selectedId := selectedId st; currentTime := currentTime st;
     duration := duration st; canvas_width := canvas_width st;
     canvas_height := canvas_height st; dragKeyframe := dragKeyframe st;
     mask_enabled := mask_enabled st; mask_brush := mask_brush st;
     maskCanvas := maskCanvas st; jitter_amount := a |}.

(** The [input] handler of the jitter slider. *)
Definition onMaskJitterInput (st : View) (value : option Z) : View :=
  set_jitter_amount st (coerceInt value (jitter_amount st) (Some 1) (Some 10)).

(** *** The order of the layers *)

(** [#moveLayer(direction)]: the selected layer changes places with its
    neighbour. *)
Definition moveLayer (st : View) (direction : Z) : View :=
  match currentLayer st with
  | None => st
  | Some (idx, layer) =>
      let newIdx := Z.of_nat idx + direction in
      if (newIdx <? 0) || (Z.of_nat (length (layers st)) <=? newIdx) then st
      else
        match layers st !! Z.to_nat newIdx with
        | None => st
        | Some other =>
            set_layers st (<[Z.to_nat newIdx := layer]> (<[idx := other]> (layers st)))
        end
  end.

(** [#moveLayerToTop]: [splice(idx, 1)] then [push]. *)
Definition moveLayerToTop (st : View) : View :=
  match currentLayer st with
  | None => st
  | Some (idx, layer) =>
      if Nat.eqb idx (length (layers st) - 1) then st
      else set_layers st (delete idx (layers st) ++ [layer])
  end.

(** [#moveLayerToBottom]: [splice(idx, 1)] then [unshift]. *)
Definition moveLayerToBottom (st : View) : View :=
  match currentLayer st with
  | None => st
  | Some (idx, layer) =>
      if Nat.eqb idx 0 then st
      else set_layers st (layer :: delete idx (layers st))
  end.

(** [#syncLayerSelect]: the selected id it leaves, [None] for [null]. *)
Definition syncLayerSelect (ls : list Layer) (sel : option string) : option string :=
  match ls with
  | [] => None
  | first :: _ =>
      if existsb (fun l => match sel with
                           | Some s => String.eqb (layer_id l) s
                           | None => false
                           end) ls
      then sel
      else Some (layer_id first)
  end.

(** A view of two layers, the foreground selected. *)
Definition stacked_view : View :=
  mkView [scenario_background; scenario_layer] "layer_0" 0 (81 / 16) 1280 720 None false 20
         (createImageData 0 0) 2.

(** *** The pointer on the canvas *)

Local Open Scope R_scope.

(** [this.state.layers.find(l => l.type === "background")] *)
Definition find_background (ls : list Layer) : option Layer :=
  List.find (fun l => String.eqb (layer_type l) "background") ls.

(** The [baseScale] of [#canvasToBgCoords] and of the extraction overlay
    of [#render]: [bg_mode || "fit"] picks it, and a mode that is neither
    fit nor fill gives 1. *)
Definition bg_base_scale (st : View) (bgLayer : Layer) (image : Image) : R :=
  let bgMode := if String.eqb (bg_mode bgLayer) "" then "fit"%string else bg_mode bgLayer in
  if String.eqb bgMode "fit" then
    Rmin (canvas_width st / img_width image) (canvas_height st / img_height image)
  else if String.eqb bgMode "fill" then
    Rmax (canvas_width st / img_width image) (canvas_height st / img_height image)
  else 1.

(** [#canvasToBgCoords(canvasPos, bgLayer)] *)
Definition canvasToBgCoords (st : View) (canvasPos : R * R) (bgLayer : Layer) (image : Image)
  : R * R :=
  let bgW := img_width image in
  let bgH := img_height image in
  let bgX := js_or (props bgLayer p_x) 0 in
  let bgY := js_or (props bgLayer p_y) 0 in
  let baseScale := bg_base_scale st bgLayer image in
  let finalScale := baseScale * js_or (props bgLayer p_scale_x) 1 in
  let bgCenterX := canvas_width st / 2 + bgX in
  let bgCenterY := canvas_height st / 2 + bgY in
  let x := fst canvasPos - bgCenterX in
  let y := snd canvasPos - bgCenterY in
  (x / finalScale + bgW / 2, y / finalScale + bgH / 2).

(** Where [#render] puts the point [(u, v)] of the extraction canvas when
    it lays it over the background: [ctx.translate], [ctx.scale], and
    [ctx.drawImage(extractCanvas, -bgW / 2, -bgH / 2)]. *)
Definition extract_overlay_point (st : View) (bgLayer : Layer) (image : Image)
    (local : R * R) : R * R :=
  let bgW := img_width image in
  let bgH := img_height image in
  let bgScaleX := js_or (props bgLayer p_scale_x) 1 in
  let bgScaleY := js_or (props bgLayer p_scale_y) 1 in
  let bgX := js_or (props bgLayer p_x) 0 in
  let bgY := js_or (props bgLayer p_y) 0 in
  let baseScale := bg_base_scale st bgLayer image in
  let m := translate identity (canvas_width st / 2 + bgX) (canvas_height st / 2 + bgY) in
  let m := scale m (baseScale * bgScaleX) (baseScale * bgScaleY) in
  transform_point m (- bgW / 2 + fst local, - bgH / 2 + snd local).

(** The view and the rest of [this.state] that the pointer handlers of the
    canvas read and write.  Of the two drawing contexts only the current
    point of the path is kept ([extract_pen], [mask_pen]); [path_data] is the
    list of control points. *)
Record Editor : Type := mkEditor {
  view : View;
  extract_enabled : bool;
  extract_drawing : bool;
  extract_pen : option (R * R);
  mask_drawing : bool;
  mask_erase : bool;
  mask_pen : option (R * R);
  path_enabled : bool;
  path_data : option (list (R * R));
  path_dragging : option nat;
  draggingLayer : bool;
  dragOffset : R * R
}.

Definition set_view (e : Editor) (v : View) : Editor :=
  mkEditor v (extract_enabled e) (extract_drawing e) (extract_pen e)
           (mask_drawing e) (mask_erase e) (mask_pen e)
           (path_enabled e) (path_data e) (path_dragging e)
           (draggingLayer e) (dragOffset e).

Definition set_extract_stroke (e : Editor) (drawing : bool) (pen : option (R * R)) : Editor :=
  mkEditor (view e) (extract_enabled e) drawing pen
           (mask_drawing e) (mask_erase e) (mask_pen e)
           (path_enabled e) (path_data e) (path_dragging e)
           (draggingLayer e) (dragOffset e).

Definition set_mask_stroke (e : Editor) (drawing erase : bool) (pen : option (R * R)) : Editor :=
  mkEditor (view e) (extract_enabled e) (extract_drawing e) (extract_pen e)
           drawing erase pen
           (path_enabled e) (path_data e) (path_dragging e)
           (draggingLayer e) (dragOffset e).

Definition set_path (e : Editor) (data : option (list (R * R))) (dragging : option nat)
  : Editor :=
  mkEditor (view e) (extract_enabled e) (extract_drawing e) (extract_pen e)
           (mask_drawing e) (mask_erase e) (mask_pen e)
           (path_enabled e) data dragging
           (draggingLayer e) (dragOffset e).

Definition set_drag (e : Editor) (dragging : bool) (offset : R * R) : Editor :=
  mkEditor (view e) (extract_enabled e) (extract_drawing e) (extract_pen e)
           (mask_drawing e) (mask_erase e) (mask_pen e)
           (path_enabled e) (path_data e) (path_dragging e)
           dragging offset.

(** [Math.hypot(x, y)] *)
Definition hypot (x y : R) : R := sqrt (x * x + y * y).

(** The loop of [#onCanvasDown] over the control points, from the index [i]
    on: the first one nearer than 10 to the pointer. *)
Fixpoint path_point_hit (points : list (R * R)) (pos : R * R) (i : nat) : option nat :=
  match points with
  | [] => None
  | pt :: rest =>
      if Rltb (hypot (fst pt - fst pos) (snd pt - snd pos)) 10
      then Some i
      else path_point_hit rest pos (S i)
  end.

(** [#onCanvasDown]; [pos] is the position [#canvasPosition] gives, [erase]
    is [event.button === 2 || event.shiftKey]. *)
Definition onCanvasDown (e : Editor) (pos : R * R) (erase : bool) : Editor :=
  let st := view e in
  if extract_enabled e then
    match find_background (layers st) with
    | Some bgLayer =>
        match img bgLayer with
        | Some image => set_extract_stroke e true (Some (canvasToBgCoords st pos bgLayer image))
        | None => e
        end
    | None => e
    end
  else if mask_enabled st then
    match currentLayer st with
    | Some (_, layer) =>
        match img layer with
        | Some image => set_mask_stroke e true erase (Some (canvasToLayerCoords st pos layer image))
        | None => e
        end
    | None => e
    end
  else
    match (if path_enabled e
           then match path_data e with
                | Some points => path_point_hit points pos 0
                | None => None
                end
           else None) with
    | Some i => set_path e (path_data e) (Some i)
    | None =>
        match currentLayer st with
        | None => e
        | Some (_, layer) =>
            set_drag e true (fst pos - canvas_width st / 2 - props layer p_x,
                             snd pos - canvas_height st / 2 - props layer p_y)
        end
    end.

(** [#onCanvasMove] *)
Definition onCanvasMove (e : Editor) (pos : R * R) : Editor :=
  let st := view e in
  if extract_drawing e && extract_enabled e then
    match find_background (layers st) with
    | Some bgLayer =>
        match img bgLayer with
        | Some image =>
            set_extract_stroke e (extract_drawing e)
                               (Some (canvasToBgCoords st pos bgLayer image))
        | None => e
        end
    | None => e
    end
  else if mask_drawing e && mask_enabled st then
    match currentLayer st with
    | Some (_, layer) =>
        match img layer with
        | Some image =>
            set_mask_stroke e (mask_drawing e) (mask_erase e)
                            (Some (canvasToLayerCoords st pos layer image))
        | None => e
        end
    | None => e
    end
  else
    match (if path_enabled e then path_dragging e else None), path_data e with
    | Some dragging, Some points =>
        if Nat.ltb dragging (length points)
        then set_path e (Some (<[dragging := pos]> points)) (path_dragging e)
        else e
    | _, _ =>
        if negb (draggingLayer e) then e
        else
          match currentLayer st with
          | None => e
          | Some (i, layer) =>
              let layer1 := set_prop layer p_x
                              (fst pos - canvas_width st / 2 - fst (dragOffset e)) in
              let layer2 := set_prop layer1 p_y
                              (snd pos - canvas_height st / 2 - snd (dragOffset e)) in
              set_view e (set_layers st (<[i := layer2]> (layers st)))
          end
    end.

(** [#onCanvasUp]; what it writes into the layer (the mask and the path)
    is outside the model. *)
Definition onCanvasUp (e : Editor) : Editor :=
  let e1 := if extract_drawing e then set_extract_stroke e false (extract_pen e) else e in
  let e2 :=
    if mask_drawing e1 then
      match currentLayer (view e1) with
      | Some _ => set_mask_stroke e1 false (mask_erase e1) (mask_pen e1)
      | None => e1
      end
    else e1 in
  let e3 :=
    match path_dragging e2, path_data e2 with
    | Some _, Some _ => set_path e2 (path_data e2) None
    | _, _ => e2
    end in
  set_drag e3 false (dragOffset e3).

(** The pointer state [#createState] starts with, around a view. *)
Definition createEditor (v : View) : Editor :=
  mkEditor v false false None false false None false None None false (0, 0).

Definition pictured_layer : Layer :=
  mkLayer "layer_1" "foreground" "fit"
    (fun p => match p with
              | p_x => 100
              | p_rotation => 90
              | p_scale_x => 2
              | p_scale_y => 1 / 2
              | p_opacity | p_mask_size | p_flip_h => 1
              | _ => 0
              end)
    (fun _ => None)
    (Some (mkImage 640 360)).

Definition masking_view : View :=
  mkView [scenario_background; pictured_layer] "layer_1" 0 (81 / 16) 1280 720 None true 20
         (createImageData 0 0) 2.

Definition extracting_editor : Editor :=
  mkEditor masking_view true false None false false None false None None false (0, 0).

Definition path_editor : Editor :=
  mkEditor stacked_view false false None false false None
           true (Some [(300, 400); (3, 4); (0, 0); (50, 60)]) None false (0, 0).

(** *** [#applyExtraction]: the guard and the two arrays it fills *)

Local Open Scope Z_scope.

(** [extractMask.data.some((v, i) => i % 4 === 0 && v > 128)], on the bytes
    from index [i] on. *)
Fixpoint some_selected (d : list Z) (i : Z) : bool :=
  match d with
  | [] => false
  | v :: rest => ((i mod 4 =? 0) && (128 <? v)) || some_selected rest (i + 1)
  end.

Definition hasSelection (extractMask : list Z) : bool := some_selected extractMask 0.

(** The body of the last loop of [#applyExtraction] at byte offset [i]:
    [blurredData] is the image data of the blurred copy of the background. *)
Definition composite_step (blurredData extractMask : list Z) (i : Z) (finalData : list Z)
  : list Z :=
  let maskVal := load extractMask i in
  if 128 <? maskVal then
    let finalData := store finalData i (load blurredData i) in
    let finalData := store finalData (i + 1) (load blurredData (i + 1)) in
    store finalData (i + 2) (load blurredData (i + 2))
  else finalData.

(** [finalData] starts as the image data of the background image. *)
Definition applyExtraction_background (bgData blurredData extractMask : list Z) : list Z :=
  for_step4 (Z.of_nat (length bgData)) (composite_step blurredData extractMask) bgData.

(** The two arrays the loops of [#applyExtraction] fill: [fgData], which
    [putImageData] puts on [fgCanvas], and [finalData], which it puts on
    [finalBg], the canvas of the new background; or nothing when the
    function stops at "Please draw a selection first".  The image of the
    new layer is not [fgData]: it is [fgCanvas] drawn onto [resizedFg], a
    canvas of the size of the preview canvas, and that resampling by the
    browser is not part of this definition. *)
Definition applyExtraction_buffers (bgW bgH : Z) (bgData blurredData extractMask : list Z)
  : option (list Z * list Z) :=
  if negb (hasSelection extractMask) then None
  else Some (applyExtraction_foreground bgW bgH bgData extractMask,
             applyExtraction_background bgData blurredData extractMask).

(** A blurred copy for the examples: every byte of the background halved. *)
Definition example_blurredData : list Z := [5; 10; 15; 127; 100; 105; 110; 127].

(** A 3 by 3 raster of one colour. *)
Definition flat_bgData : list Z :=
  [7; 8; 9; 255;  7; 8; 9; 255;  7; 8; 9; 255;
   7; 8; 9; 255;  7; 8; 9; 255;  7; 8; 9; 255;
   7; 8; 9; 255;  7; 8; 9; 255;  7; 8; 9; 255].

(** *** The bezier path: [#addPathPoint], [#applyPathToKeyframes] *)

Local Open Scope R_scope.

(** [points[i]] for an integer [i], where a coordinate of it is read next:
    [None] stands for the [TypeError] that reading [undefined.x] throws. *)
Definition point_at (points : list (R * R)) (i : Z) : option (R * R) :=
  if (i <? 0)%Z then None else points !! Z.to_nat i.

(** [getBezierPoint(t)] of [#applyPathToKeyframes]. *)
Definition getBezierPoint (points : list (R * R)) (t : R) : option (R * R) :=
  let len := Z.of_nat (length points) in
  if (len <? 4)%Z then
    let idx := t * IZR (len - 1) in
    let i1 := Zfloor idx in
    let i2 := Z.min (i1 + 1) (len - 1) in
    let frac := idx - IZR i1 in
    match point_at points i1, point_at points i2 with
    | Some q1, Some q2 =>
        Some (fst q1 + (fst q2 - fst q1) * frac, snd q1 + (snd q2 - snd q1) * frac)
    | _, _ => None
    end
  else
    let numSegments := ((len - 1) / 3)%Z in
    let segmentT := t * IZR numSegments in
    let segmentIdx := Z.min (Zfloor segmentT) (numSegments - 1) in
    let localT := segmentT - IZR segmentIdx in
    let startIdx := (segmentIdx * 3)%Z in
    match point_at points startIdx, point_at points (startIdx + 1),
          point_at points (startIdx + 2), point_at points (startIdx + 3) with
    | Some p0, Some p1, Some p2, Some p3 =>
        let mt := 1 - localT in
        let mt2 := mt * mt in
        let mt3 := mt2 * mt in
        let t2 := localT * localT in
        let t3 := t2 * localT in
        Some (mt3 * fst p0 + 3 * mt2 * localT * fst p1 + 3 * mt * t2 * fst p2 + t3 * fst p3,
              mt3 * snd p0 + 3 * mt2 * localT * snd p1 + 3 * mt * t2 * snd p2 + t3 * snd p3)
    | _, _, _, _ => None
    end.

(** How a handler ends: it returns, or an exception leaves it; the state
    is what it had written by then. *)
Inductive Outcome (A : Type) : Type :=
| Returned (a : A)
| Threw (a : A).
Arguments Returned {A} a.
Arguments Threw {A} a.

(** The body of the loop of [#applyPathToKeyframes]: the two tracks, and
    whether [getBezierPoint] has thrown. *)
Definition path_sample_step (points : list (R * R)) (duration centerX centerY : R)
    (segments i : Z) (s : list Keyframe * list Keyframe * bool)
  : list Keyframe * list Keyframe * bool :=
  let '(xs, ys, thrown) := s in
  if thrown then s
  else
    let t := IZR i / IZR segments in
    let time := t * duration in
    match getBezierPoint points t with
    | Some pt =>
        (xs ++ [mkKeyframe time (fst pt - centerX)],
         ys ++ [mkKeyframe time (snd pt - centerY)], false)
    | None => (xs, ys, true)
    end.

(** [#applyPathToKeyframes]; [segments] is what [parseInt] makes of the
    answer to the prompt, [None] for [NaN]. *)
Definition applyPathToKeyframes (e : Editor) (segments : option Z) : Outcome Editor :=
  let st := view e in
  match currentLayer st, path_data e with
  | Some (i, layer), Some points =>
      match segments with
      | None => Returned e
      | Some segments =>
          if (segments =? 0)%Z || (segments <? 2)%Z then Returned e
          else
            let centerX := canvas_width st / 2 in
            let centerY := canvas_height st / 2 in
            let '(xs, ys, thrown) :=
              for_range 0 (segments + 1)
                (path_sample_step points (duration st) centerX centerY segments)
                ([], [], false) in
            let layer1 := set_track (set_track layer p_x (Some xs)) p_y (Some ys) in
            let st1 := set_layers st (<[i := layer1]> (layers st)) in
            if thrown then Threw (set_view e st1)
            else Returned (set_view e (applyTime st1 (currentTime st1)))
      end
  | _, _ => Returned e
  end.

(** [#addPathPoint] *)
Definition addPathPoint (e : Editor) : Editor :=
  if negb (path_enabled e) then e
  else
    match path_data e with
    | None => e
    | Some points =>
        match currentLayer (view e) with
        | None => e
        | Some _ =>
            if (length points <? 4)%nat then e
            else
              match last points with
              | None => e
              | Some lastPoint =>
                  let offset := 100 in
                  set_path e
                    (Some (points ++ [(fst lastPoint + offset, snd lastPoint - offset);
                                      (fst lastPoint + offset * 2, snd lastPoint + offset);
                                      (fst lastPoint + offset * 3, snd lastPoint)]))
                    (path_dragging e)
              end
        end
    end.

(** *** What [#drawTimeline] shows *)

Local Open Scope R_scope.

(** The rectangle [ctx.fillRect(px - 2, 28, 4, 12)] that [#drawTimeline]
    draws for the sample [kf] on a timeline canvas [tw] wide: its corner,
    its width and its height. *)
Definition keyframe_marker (st : View) (tw : R) (kf : Keyframe) : R * R * R * R :=
  let px := kf_time kf / duration st * tw in
  (px - 2, 28, 4, 12).

(** [markerX], the abscissa of the line of the current time. *)
Definition playhead (st : View) (tw : R) : R :=
  currentTime st / duration st * tw.

(** *** Playback *)

(** [x % d] for a divisor other than 0: what is left of [x] after [d] times
    the quotient truncated towards zero. *)
Definition js_rem (x d : R) : R :=
  x - d * IZR (if Rltb (x / d) 0 then Zceil (x / d) else Zfloor (x / d)).

(** One turn of [tick] in [#startPlayback]: [origin] is the time at which
    the playback started, [elapsed] the seconds since then, [playing] the
    flag [this.state.playing]. *)
Definition playback_tick (st : View) (playing : bool) (origin elapsed : R) : View :=
  if negb playing then st
  else
    let next := js_rem (origin + elapsed) (duration st) in
    applyTime st next.

(** *** Images loaded into the project *)

(** What is used of the arithmetic of doubles: [rnd x] is the double the
    exact result [x] of a division or a multiplication is rounded to.
    Rounding to nearest is monotone, leaves an integer of at most 53 bits as
    it is, and on a result of normal size (here between [2^-20] and [2^40]
    in magnitude) is off by at most [2^-53] of the result. *)
Definition double_rounding (rnd : R -> R) : Prop :=
  (forall x y : R, x <= y -> rnd x <= rnd y) /\
  (forall n : Z, (Z.abs n <= 9007199254740992)%Z -> rnd (IZR n) = IZR n) /\
  (forall x : R, / 1048576 <= Rabs x <= 1099511627776 ->
                 Rabs (rnd x - x) <= Rabs x / 9007199254740992).

(** [#fitImageToCanvas(img, dataUrl)], the size of the image it returns:
    the image itself, or its copy drawn on a smaller canvas.  The two
    quotients and the two products are doubles, rounded by [rnd], and it is
    the rounded product that [Math.floor] cuts. *)
Definition fitImageToCanvas (rnd : R -> R) (pr : Project) (image : Image) : Image :=
  let maxW := IZR (state_width pr) in
  let maxH := IZR (state_height pr) in
  if Reqb (img_width image) 0 || Reqb (img_height image) 0 then image
  else
    let scale := Rmin (Rmin (rnd (maxW / img_width image)) (rnd (maxH / img_height image))) 1 in
    if Rleb 1 scale then image
    else
      mkImage (IZR (Z.max 1 (Zfloor (rnd (img_width image * scale)))))
              (IZR (Z.max 1 (Zfloor (rnd (img_height image * scale))))).

(** The project [#createState] starts with, and the size of the preview
    canvas [#buildUI] makes for it. *)
Definition createProject : Project := mkProject 1280 720 16 81 5 1280 720.

(** The scenario at 1.0 s, after 50 was typed into the [x] input: the
    property holds 50, the track [x] is the scenario's. *)
Definition typed_layer : Layer :=
  mkLayer "layer_0" "foreground" "fit"
    (fun p => match p with
              | p_x => 50
              | p_scale_x | p_scale_y | p_opacity | p_mask_size => 1
              | _ => 0
              end)
    (fun p => match p with p_x => Some scenario_track | _ => None end)
    None.

Definition typed_view : View :=
  mkView [typed_layer] "layer_0" 1 (81 / 16) 1280 720 None false 20
         (createImageData 0 0) 2.

(** * Properties *)

Local Open Scope R_scope.

(** ** Numbers *)

Lemma Rleb_true (a b : R) : Rleb a b = true <-> a <= b.
Proof. unfold Rleb. destruct (Rle_dec a b); split; intros; try easy. Qed.

Lemma Rleb_false (a b : R) : Rleb a b = false <-> b < a.
Proof. unfold Rleb. destruct (Rle_dec a b); split; intros; try easy; lra. Qed.

Lemma Rltb_true (a b : R) : Rltb a b = true <-> a < b.
Proof. unfold Rltb. destruct (Rlt_dec a b); split; intros; try easy. Qed.

Lemma Rltb_false (a b : R) : Rltb a b = false <-> b <= a.
Proof. unfold Rltb. destruct (Rlt_dec a b); split; intros; try easy; lra. Qed.

Lemma Reqb_true (a b : R) : Reqb a b = true <-> a = b.
Proof. unfold Reqb. destruct (Req_dec_T a b); split; intros; try easy. Qed.

Lemma Reqb_false (a b : R) : Reqb a b = false <-> a <> b.
Proof. unfold Reqb. destruct (Req_dec_T a b); split; intros; try easy. Qed.

Lemma js_or_nonzero (v d : R) : v <> 0 -> js_or v d = v.
Proof. intros H. unfold js_or. apply Reqb_false in H. now rewrite H. Qed.

Lemma js_or_zero (d : R) : js_or 0 d = d.
Proof. unfold js_or. now rewrite (proj2 (Reqb_true 0 0) eq_refl). Qed.

Lemma js_or_1_neq_0 (v : R) : js_or v 1 <> 0.
Proof.
  unfold js_or. destruct (Reqb v 0) eqn:E.
  - lra.
  - now apply Reqb_false in E.
Qed.

Lemma js_round_IZR (z : Z) : js_round (IZR z) = z.
Proof. unfold js_round. apply Zfloor_eq. lra. Qed.

Lemma fixed2_differs_refl (t : R) : fixed2_differs t t = false.
Proof.
  unfold fixed2_differs, fixed2_eqb.
  now rewrite Bool.eqb_reflx, Z.eqb_refl.
Qed.

Lemma fixed2_differs_neq (a b : R) : fixed2_differs a b = true -> a <> b.
Proof. intros H ->. now rewrite fixed2_differs_refl in H. Qed.

(** ** Tracks *)

Lemma strictly_ascending_ascending (l : list Keyframe) :
  strictly_ascending l -> ascending l.
Proof.
  induction l as [|a [|b rest] IH]; simpl; auto.
  intros [H1 H2]. split; [lra | now apply IH].
Qed.

Lemma ascending_tail (a : Keyframe) (l : list Keyframe) : ascending (a :: l) -> ascending l.
Proof. destruct l; simpl; tauto. Qed.

Lemma sort_by_time_ascending_id (l : list Keyframe) : ascending l -> sort_by_time l = l.
Proof.
  induction l as [|a l IH]; intros H; [reflexivity|].
  simpl. rewrite (IH (ascending_tail _ _ H)).
  destruct l as [|b l]; [reflexivity|].
  simpl in *. destruct H as [H _].
  now rewrite (proj2 (Rleb_true _ _) H).
Qed.

Lemma lerp_formula (a b : Keyframe) (ct : R) :
  lerp a b ct =
  kf_value a + (kf_value b - kf_value a) * (ct - kf_time a)
               / (if Reqb (kf_time b - kf_time a) 0 then 1 else kf_time b - kf_time a).
Proof. unfold lerp, js_or, Rdiv. ring. Qed.

Lemma lerp_formula_eps (a b : Keyframe) (ct eps : R) :
  0 < eps <= kf_time b - kf_time a ->
  lerp a b ct =
  kf_value a + (kf_value b - kf_value a) * (ct - kf_time a)
               / Rmax (kf_time b - kf_time a) eps.
Proof.
  intros [H1 H2]. rewrite lerp_formula.
  rewrite (proj2 (Reqb_false _ 0)) by lra.
  rewrite Rmax_left by lra. reflexivity.
Qed.

(** A track whose first sample is at or before [ct] and whose last sample
    is after [ct] has an adjacent pair around [ct]; the loop stops at one. *)
Lemma bracket_scan_finds (frames : list Keyframe) (first lst : Keyframe) (ct : R) :
  head frames = Some first -> last frames = Some lst ->
  kf_time first <= ct -> ct < kf_time lst ->
  exists (i : nat) (a b : Keyframe),
    frames !! i = Some a /\ frames !! S i = Some b /\
    kf_time a <= ct <= kf_time b /\
    bracket_scan frames ct = Some (lerp a b ct).
Proof.
  revert first. induction frames as [|a rest IH]; intros first Hh Hl H1 H2; [discriminate|].
  simpl in Hh. injection Hh as <-.
  destruct rest as [|b rest].
  - simpl in Hl. injection Hl as <-. lra.
  - simpl bracket_scan.
    destruct (Rleb (kf_time a) ct && Rleb ct (kf_time b)) eqn:E.
    + apply andb_true_iff in E. destruct E as [E1 E2].
      apply Rleb_true in E1, E2.
      exists 0%nat, a, b. repeat split; auto.
    + apply andb_false_iff in E.
      assert (Hb : kf_time b <= ct).
      { destruct E as [E|E]; apply Rleb_false in E; lra. }
      destruct (IH b eq_refl Hl Hb H2) as (i & a' & b' & Ha & Hb' & Hin & Hs).
      exists (S i), a', b'. repeat split; auto; lra.
Qed.

Lemma evaluate_at_or_before_first (track : list Keyframe) (first : Keyframe) (ct : R) :
  ascending track -> head track = Some first -> ct <= kf_time first ->
  evaluate track ct = Some (kf_value first).
Proof.
  intros Ha Hh Hle. unfold evaluate. rewrite (sort_by_time_ascending_id _ Ha).
  destruct track as [|f rest]; [discriminate|]. simpl in Hh. injection Hh as ->.
  destruct (last (first :: rest)) as [lst|] eqn:El.
  - now rewrite (proj2 (Rleb_true _ _) Hle).
  - now rewrite last_cons in El; destruct (last rest).
Qed.

Lemma evaluate_at_or_after_last (track : list Keyframe) (first lst : Keyframe) (ct : R) :
  ascending track -> head track = Some first -> last track = Some lst ->
  kf_time first < ct -> kf_time lst <= ct ->
  evaluate track ct = Some (kf_value lst).
Proof.
  intros Ha Hh Hl H1 H2. unfold evaluate. rewrite (sort_by_time_ascending_id _ Ha).
  destruct track as [|f rest]; [discriminate|]. simpl in Hh. injection Hh as ->.
  rewrite Hl.
  rewrite (proj2 (Rleb_false _ _) H1).
  now rewrite (proj2 (Rleb_true _ _) H2).
Qed.

Lemma evaluate_between (track : list Keyframe) (first lst : Keyframe) (ct : R) :
  ascending track -> head track = Some first -> last track = Some lst ->
  kf_time first < ct < kf_time lst ->
  exists (i : nat) (a b : Keyframe),
    track !! i = Some a /\ track !! S i = Some b /\
    kf_time a <= ct <= kf_time b /\
    evaluate track ct = Some (lerp a b ct).
Proof.
  intros Ha Hh Hl [H1 H2].
  assert (H1' : kf_time first <= ct) by lra.
  destruct (bracket_scan_finds track first lst ct Hh Hl H1' H2)
    as (i & a & b & Hia & Hib & Hin & Hs).
  exists i, a, b. repeat split; try tauto.
  unfold evaluate. rewrite (sort_by_time_ascending_id _ Ha).
  destruct track as [|f rest]; [discriminate|]. simpl in Hh. injection Hh as ->.
  rewrite Hl.
  rewrite (proj2 (Rleb_false _ _) H1).
  assert (H2' : Rleb (kf_time lst) ct = false) by (apply Rleb_false; lra).
  now rewrite H2'.
Qed.

Lemma KfProp_eqb_eq (p q : KfProp) : KfProp_eqb p q = true <-> p = q.
Proof. destruct p, q; simpl; split; intros H; try reflexivity; discriminate. Qed.

Lemma KfProp_eqb_refl (p : KfProp) : KfProp_eqb p p = true.
Proof. now apply KfProp_eqb_eq. Qed.

Lemma KF_PROPS_complete (p : KfProp) : In p KF_PROPS.
Proof. destruct p; simpl; tauto. Qed.

Lemma KF_PROPS_NoDup : List.NoDup KF_PROPS.
Proof.
  unfold KF_PROPS.
  repeat (apply List.NoDup_cons; [simpl; intuition discriminate|]).
  apply List.NoDup_nil.
Qed.

(** [#applyTime] on a layer, property by property: the value assigned is
    the one [evaluate] gives, and a property with an empty track keeps its
    value. *)
Lemma applyTime_fold_keyframes (ct : R) (ps : list KfProp) (l : Layer) :
  keyframes (fold_left (applyTime_prop ct) ps l) = keyframes l.
Proof.
  revert l. induction ps as [|q ps IH]; intros l; [reflexivity|].
  simpl. rewrite IH. unfold applyTime_prop. now destruct (evaluate _ _).
Qed.

Lemma applyTime_fold_props (ct : R) (ps : list KfProp) (l : Layer) (p : KfProp) :
  List.NoDup ps ->
  props (fold_left (applyTime_prop ct) ps l) p =
  if existsb (KfProp_eqb p) ps
  then match evaluate (track_of l p) ct with Some v => v | None => props l p end
  else props l p.
Proof.
  revert l. induction ps as [|q ps IH]; intros l Hnd; [reflexivity|].
  inversion Hnd as [|? ? Hq Hnd']; subst.
  simpl fold_left. rewrite (IH _ Hnd'). simpl existsb.
  assert (Ht : track_of (applyTime_prop ct l q) p = track_of l p).
  { unfold track_of, applyTime_prop. now destruct (evaluate _ _). }
  rewrite Ht.
  destruct (KfProp_eqb p q) eqn:E.
  - apply KfProp_eqb_eq in E. subst q.
    assert (Hn : existsb (KfProp_eqb p) ps = false).
    { apply not_true_is_false. intros Hx. apply existsb_exists in Hx.
      destruct Hx as (r & Hr & Er). apply KfProp_eqb_eq in Er. now subst r. }
    rewrite Hn. simpl.
    unfold applyTime_prop. destruct (evaluate (track_of l p) ct); [|reflexivity].
    simpl. now rewrite KfProp_eqb_refl.
  - simpl.
    assert (Hp : props (applyTime_prop ct l q) p = props l p).
    { unfold applyTime_prop. destruct (evaluate (track_of l q) ct); [|reflexivity].
      simpl. now rewrite E. }
    now rewrite Hp.
Qed.

Lemma applyTime_layer_props (ct : R) (l : Layer) (p : KfProp) :
  props (applyTime_layer ct l) p =
  match evaluate (track_of l p) ct with Some v => v | None => props l p end.
Proof.
  unfold applyTime_layer. rewrite applyTime_fold_props by apply KF_PROPS_NoDup.
  assert (H : existsb (KfProp_eqb p) KF_PROPS = true) by (destruct p; reflexivity).
  now rewrite H.
Qed.

Lemma scenario_evaluate_1 : evaluate scenario_track 1 = Some 0.
Proof.
  destruct (evaluate_between scenario_track (mkKeyframe 0 (-100)) (mkKeyframe 2 100) 1)
    as (i & a & b & Ha & Hb & Hin & He);
    [simpl; lra | reflexivity | reflexivity | simpl; lra |].
  rewrite He. f_equal.
  destruct i as [|[|i]]; simpl in Ha, Hb; try discriminate.
  injection Ha as <-. injection Hb as <-.
  rewrite lerp_formula. simpl.
  rewrite (proj2 (Reqb_false _ 0)) by lra. lra.
Qed.

Lemma scenario_evaluate_3 : evaluate scenario_track 3 = Some 100.
Proof.
  apply (evaluate_at_or_after_last scenario_track (mkKeyframe 0 (-100)) (mkKeyframe 2 100));
    simpl; try reflexivity; lra.
Qed.

Lemma scenario_applyTime (t v : R) :
  0 <= t <= 81 / 16 -> evaluate scenario_track t = Some v ->
  exists l, layers (applyTime scenario_view t) !! 0%nat = Some l /\ props l p_x = v.
Proof.
  intros Ht He. eexists. split; [reflexivity|].
  rewrite applyTime_layer_props.
  change (duration scenario_view) with (81 / 16).
  rewrite Rmin_right by lra. rewrite Rmax_right by lra.
  change (track_of scenario_layer p_x) with scenario_track.
  now rewrite He.
Qed.

Lemma applyTime_lookup (st : View) (time : R) (li : nat) (layer : Layer) :
  layers st !! li = Some layer ->
  layers (applyTime st time) !! li
  = Some (applyTime_layer (Rmax 0 (Rmin (duration st) time)) layer).
Proof.
  intros Hl. unfold applyTime. cbn [layers set_layers].
  change (map ?f ?l) with (f <$> l).
  now rewrite list_lookup_fmap, Hl.
Qed.

Lemma clamp_time_inside (d t : R) : 0 <= t <= d -> Rmax 0 (Rmin d t) = t.
Proof. intros H. rewrite Rmin_right by lra. apply Rmax_right. lra. Qed.

(** C1 (as amended).  For every layer and every property whose track is
    non-empty and ascending by time, [#applyTime] clamps the requested time
    into the timeline [0, duration] and evaluates at the clamped time [t],
    which is the requested time itself when that lies on the timeline.  It
    leaves in the property: the first sample's value when [t] is at or
    before the first sample; otherwise the last sample's value when [t] is
    at or after the last sample; otherwise, for an adjacent pair [(a, b)]
    with [a.time <= t <= b.time], the value
    [a.value + (b.value - a.value) * (t - a.time) / max(b.time - a.time, eps)],
    for every positive [eps] that only guards a zero-length interval, that
    is, that is not above a non-zero interval between adjacent samples.  The
    code writes the divisor as [b.time - a.time], or 1 when that is 0.  In
    the scenario, the track [x] evaluates to 0 at 1.0 and to 100 at 3.0. *)
Theorem C1_evaluate_ascending_track :
  forall (st : View) (li : nat) (layer : Layer) (p : KfProp) (time eps : R)
         (first lst : Keyframe),
    layers st !! li = Some layer ->
    ascending (track_of layer p) ->
    head (track_of layer p) = Some first -> last (track_of layer p) = Some lst ->
    0 < eps ->
    (forall (i : nat) (a b : Keyframe),
       track_of layer p !! i = Some a -> track_of layer p !! S i = Some b ->
       kf_time b - kf_time a = 0 \/ eps <= kf_time b - kf_time a) ->
    let t := Rmax 0 (Rmin (duration st) time) in
    (exists layer' : Layer,
       layers (applyTime st time) !! li = Some layer' /\
       currentTime (applyTime st time) = t /\
       (0 <= time <= duration st -> t = time) /\
       evaluate (track_of layer p) t = Some (props layer' p) /\
       (t <= kf_time first -> props layer' p = kf_value first) /\
       (kf_time first < t -> kf_time lst <= t -> props layer' p = kf_value lst) /\
       (kf_time first < t < kf_time lst ->
          exists (i : nat) (a b : Keyframe),
            track_of layer p !! i = Some a /\ track_of layer p !! S i = Some b /\
            kf_time a <= t <= kf_time b /\
            props layer' p = C1_claimed_value eps a b t /\
            props layer' p =
              kf_value a + (kf_value b - kf_value a) * (t - kf_time a)
              / (if Reqb (kf_time b - kf_time a) 0 then 1 else kf_time b - kf_time a))) /\
    (exists l, layers (applyTime scenario_view 1) !! 0%nat = Some l /\ props l p_x = 0) /\
    (exists l, layers (applyTime scenario_view 3) !! 0%nat = Some l /\ props l p_x = 100).
Proof.
  intros st li layer p time eps first lst Hl Ha Hh Hlast Heps Hguard. cbv zeta.
  set (t := Rmax 0 (Rmin (duration st) time)).
  split; [|split].
  - exists (applyTime_layer t layer).
    split; [now apply applyTime_lookup|].
    split; [reflexivity|].
    split; [intros Ht; now apply clamp_time_inside|].
    rewrite applyTime_layer_props.
    assert (Hv : exists v, evaluate (track_of layer p) t = Some v).
    { destruct (Rle_dec t (kf_time first)) as [H1|H1].
      - exists (kf_value first). now apply evaluate_at_or_before_first.
      - destruct (Rle_dec (kf_time lst) t) as [H2|H2].
        + exists (kf_value lst). apply (evaluate_at_or_after_last _ first lst); auto. lra.
        + destruct (evaluate_between _ first lst t Ha Hh Hlast) as (i & a & b & _ & _ & _ & He);
            [lra|]. eexists. exact He. }
    destruct Hv as [v Hv]. rewrite Hv.
    split; [reflexivity|]. split; [|split].
    + intros H1. rewrite (evaluate_at_or_before_first _ _ _ Ha Hh H1) in Hv. congruence.
    + intros H1 H2.
      rewrite (evaluate_at_or_after_last _ _ _ _ Ha Hh Hlast H1 H2) in Hv. congruence.
    + intros Hin.
      destruct (evaluate_between _ first lst t Ha Hh Hlast Hin)
        as (i & a & b & Hia & Hib & Hab & He).
      rewrite He in Hv. injection Hv as <-.
      exists i, a, b. repeat split; try tauto; [|apply lerp_formula].
      unfold C1_claimed_value.
      destruct (Hguard i a b Hia Hib) as [Hz | Hge].
      * rewrite lerp_formula, Hz, (proj2 (Reqb_true 0 0) eq_refl).
        replace (t - kf_time a) with 0 by lra. unfold Rdiv. ring.
      * apply lerp_formula_eps. lra.
  - apply scenario_applyTime; [lra | apply scenario_evaluate_1].
  - apply scenario_applyTime; [lra | apply scenario_evaluate_3].
Qed.

Lemma C1_evaluate_ascending_track_witness :
  exists l, layers (applyTime scenario_view 1) !! 0%nat = Some l /\ props l p_x = 0.
Proof.
  refine (proj1 (proj2 (C1_evaluate_ascending_track scenario_view 0%nat scenario_layer p_x 1 1
                          (mkKeyframe 0 (-100)) (mkKeyframe 2 100)
                          eq_refl _ eq_refl eq_refl _ _))).
  - simpl. lra.
  - lra.
  - intros [|[|i]] a b Ha Hb; simpl in Ha, Hb; try discriminate.
    injection Ha as <-. injection Hb as <-. right. simpl. lra.
Defined.

(** [#applyTime] evaluates at the clamped time, not at the requested one:
    in the project shortened to one second, the requested time 3.0 is at or
    after the last sample of the track [x], whose value is 100, and the
    property is left at 0, the value of the track at 1.0. *)
Lemma C1_clamped_time_counterexample :
  ascending (track_of scenario_layer p_x) /\
  last (track_of scenario_layer p_x) = Some (mkKeyframe 2 100) /\
  kf_time (mkKeyframe 2 100) <= 3 /\
  exists l, layers (applyTime shortened_view 3) !! 0%nat = Some l /\
            props l p_x = 0 /\ props l p_x <> kf_value (mkKeyframe 2 100).
Proof.
  split; [simpl; lra|]. split; [reflexivity|]. split; [simpl; lra|].
  eexists. split; [reflexivity|].
  assert (E : props (applyTime_layer (Rmax 0 (Rmin (duration shortened_view) 3))
                                     scenario_layer) p_x = 0).
  { rewrite applyTime_layer_props.
    change (duration shortened_view) with 1.
    rewrite Rmin_left by lra. rewrite Rmax_right by lra.
    change (track_of scenario_layer p_x) with scenario_track.
    now rewrite scenario_evaluate_1. }
  split; [exact E|]. rewrite E. simpl. lra.
Qed.

(** ** Keyframe store *)

Lemma ascending_cons (a : Keyframe) (l : list Keyframe) :
  ascending (a :: l) <-> Forall (fun b => kf_time a <= kf_time b) l /\ ascending l.
Proof.
  revert a. induction l as [|b l IH]; intros a.
  - simpl. split; [intros _; split; [constructor | exact I] | tauto].
  - change (ascending (a :: b :: l)) with (kf_time a <= kf_time b /\ ascending (b :: l)).
    rewrite Forall_cons. split.
    + intros [H1 H2]. repeat split; auto.
      apply IH in H2. destruct H2 as [H2 _].
      eapply Forall_impl; [exact H2|]. simpl. intros; lra.
    + tauto.
Qed.

Lemma strictly_ascending_cons (a : Keyframe) (l : list Keyframe) :
  strictly_ascending (a :: l) <->
  Forall (fun b => kf_time a < kf_time b) l /\ strictly_ascending l.
Proof.
  revert a. induction l as [|b l IH]; intros a.
  - simpl. split; [intros _; split; [constructor | exact I] | tauto].
  - change (strictly_ascending (a :: b :: l))
      with (kf_time a < kf_time b /\ strictly_ascending (b :: l)).
    rewrite Forall_cons. split.
    + intros [H1 H2]. repeat split; auto.
      apply IH in H2. destruct H2 as [H2 _].
      eapply Forall_impl; [exact H2|]. simpl. intros; lra.
    + tauto.
Qed.

Lemma insert_by_time_Permutation (k : Keyframe) (l : list Keyframe) :
  Permutation (insert_by_time k l) (k :: l).
Proof.
  induction l as [|h t IH]; simpl; [reflexivity|].
  destruct (Rleb (kf_time k) (kf_time h)); [reflexivity|].
  rewrite IH. apply perm_swap.
Qed.

Lemma sort_by_time_Permutation (l : list Keyframe) : Permutation (sort_by_time l) l.
Proof.
  induction l as [|a l IH]; simpl; [reflexivity|].
  rewrite insert_by_time_Permutation. now rewrite IH.
Qed.

Lemma insert_by_time_ascending (k : Keyframe) (l : list Keyframe) :
  ascending l -> ascending (insert_by_time k l).
Proof.
  induction l as [|h t IH]; intros H; [exact I|].
  simpl. destruct (Rleb (kf_time k) (kf_time h)) eqn:E.
  - apply Rleb_true in E. split; assumption.
  - apply Rleb_false in E. apply ascending_cons in H. destruct H as [H1 H2].
    apply ascending_cons. split; [|now apply IH].
    rewrite insert_by_time_Permutation. constructor; [lra | assumption].
Qed.

Lemma sort_by_time_ascending (l : list Keyframe) : ascending (sort_by_time l).
Proof.
  induction l as [|a l IH]; simpl; [exact I|]. now apply insert_by_time_ascending.
Qed.

Lemma strictly_ascending_NoDup (l : list Keyframe) :
  strictly_ascending l -> NoDup (map kf_time l).
Proof.
  induction l as [|a l IH]; intros H; [constructor|].
  apply strictly_ascending_cons in H. destruct H as [H1 H2].
  simpl. constructor; [|now apply IH].
  intros Hin. apply list_elem_of_fmap in Hin. destruct Hin as (b & Hb & Hin).
  rewrite Forall_forall in H1. specialize (H1 b Hin). lra.
Qed.

Lemma ascending_NoDup_strictly (l : list Keyframe) :
  ascending l -> NoDup (map kf_time l) -> strictly_ascending l.
Proof.
  induction l as [|a l IH]; intros H Hnd; [exact I|].
  apply ascending_cons in H. destruct H as [H1 H2].
  simpl in Hnd. apply NoDup_cons in Hnd. destruct Hnd as [Hni Hnd].
  apply strictly_ascending_cons. split; [|now apply IH].
  rewrite Forall_forall in *. intros b Hb. specialize (H1 b Hb).
  assert (kf_time a <> kf_time b).
  { intros E. apply Hni. rewrite E. apply list_elem_of_fmap. now exists b. }
  lra.
Qed.

Lemma strictly_ascending_filter (P : Keyframe -> Prop) `{forall k, Decision (P k)}
    (l : list Keyframe) :
  strictly_ascending l -> strictly_ascending (filter P l).
Proof.
  induction l as [|a l IH]; intros Hs; [exact I|].
  apply strictly_ascending_cons in Hs. destruct Hs as [H1 H2].
  rewrite filter_cons. destruct (decide (P a)); [|now apply IH].
  apply strictly_ascending_cons. split; [|now apply IH].
  rewrite Forall_forall in *. intros b Hb. apply H1.
  apply list_elem_of_filter in Hb. tauto.
Qed.

Lemma added_track_strictly_ascending (ct v : R) (track : list Keyframe) :
  strictly_ascending track -> strictly_ascending (added_track ct v track).
Proof.
  intros Hs. unfold added_track.
  apply ascending_NoDup_strictly; [apply sort_by_time_ascending|].
  rewrite sort_by_time_Permutation.
  rewrite map_app. simpl. apply NoDup_app. repeat split.
  - apply strictly_ascending_NoDup. now apply strictly_ascending_filter.
  - intros t Ht Ht'. apply list_elem_of_fmap in Ht. destruct Ht as (k & -> & Hk).
    apply list_elem_of_filter in Hk. destruct Hk as [Hk _].
    apply list_elem_of_singleton in Ht'.
    now apply fixed2_differs_neq in Hk.
  - apply NoDup_singleton.
Qed.

Lemma added_track_one_entry (ct v : R) (track : list Keyframe) :
  filter (fun kf => fixed2_differs (kf_time kf) ct = false) (added_track ct v track)
  = [mkKeyframe ct v].
Proof.
  apply Permutation_singleton_r. unfold added_track.
  rewrite sort_by_time_Permutation, filter_app.
  assert (E : filter (fun kf => fixed2_differs (kf_time kf) ct = false)
                (filter (fun kf => fixed2_differs (kf_time kf) ct = true) track) = []).
  { induction track as [|a l IH]; [reflexivity|].
    rewrite (filter_cons (fun kf => fixed2_differs (kf_time kf) ct = true)).
    destruct (decide (fixed2_differs (kf_time a) ct = true)) as [E|E]; [|exact IH].
    rewrite filter_cons. destruct (decide (fixed2_differs (kf_time a) ct = false)); [congruence|].
    exact IH. }
  rewrite E. simpl. rewrite filter_cons. simpl.
  destruct (decide (fixed2_differs ct ct = false)) as [_|E']; [reflexivity|].
  now rewrite fixed2_differs_refl in E'.
Qed.

(** A loop over [KF_PROPS] whose body rewrites the track of its own
    property only, from that track and the property's value. *)
Section PerProperty.
Variable f : Layer -> KfProp -> Layer.
Variable g : option (list Keyframe) -> R -> option (list Keyframe).
Hypothesis f_props : forall l q, props (f l q) = props l.
Hypothesis f_keyframes : forall l q p,
  keyframes (f l q) p = if KfProp_eqb p q then g (keyframes l q) (props l q)
                        else keyframes l p.

Lemma fold_per_property_props (ps : list KfProp) (l : Layer) :
  props (fold_left f ps l) = props l.
Proof using f_props.
  revert l. induction ps as [|q ps IH]; intros l; [reflexivity|].
  simpl. now rewrite IH.
Qed.

Lemma fold_per_property (ps : list KfProp) (l : Layer) (p : KfProp) :
  List.NoDup ps ->
  keyframes (fold_left f ps l) p =
  if existsb (KfProp_eqb p) ps then g (keyframes l p) (props l p) else keyframes l p.
Proof using f_props f_keyframes.
  revert l. induction ps as [|q ps IH]; intros l Hnd; [reflexivity|].
  inversion Hnd as [|? ? Hq Hnd']; subst.
  simpl fold_left. rewrite (IH _ Hnd'). simpl existsb.
  rewrite f_props, f_keyframes.
  destruct (KfProp_eqb p q) eqn:E; [|reflexivity].
  apply KfProp_eqb_eq in E. subst q. simpl.
  assert (Hn : existsb (KfProp_eqb p) ps = false).
  { apply not_true_is_false. intros Hx. apply existsb_exists in Hx.
    destruct Hx as (r & Hr & Er). apply KfProp_eqb_eq in Er. now subst r. }
  now rewrite Hn.
Qed.

Lemma fold_KF_PROPS (l : Layer) (p : KfProp) :
  keyframes (fold_left f KF_PROPS l) p = g (keyframes l p) (props l p).
Proof using f_props f_keyframes.
  rewrite fold_per_property by apply KF_PROPS_NoDup.
  assert (H : existsb (KfProp_eqb p) KF_PROPS = true) by (destruct p; reflexivity).
  now rewrite H.
Qed.
End PerProperty.

Lemma addKeyframe_layer_track (ct : R) (layer : Layer) (p : KfProp) :
  track_of (addKeyframe_layer ct layer) p = added_track ct (props layer p) (track_of layer p).
Proof.
  unfold track_of at 1, addKeyframe_layer.
  rewrite (fold_KF_PROPS (addKeyframe_prop ct)
             (fun o v => Some (added_track ct v (match o with Some t => t | None => [] end))));
    [reflexivity | reflexivity | reflexivity].
Qed.

Lemma addKeyframe_layer_props (ct : R) (layer : Layer) :
  props (addKeyframe_layer ct layer) = props layer.
Proof. unfold addKeyframe_layer. now apply fold_per_property_props. Qed.

Lemma deleteKeyframe_fold_fst (ct : R) (ps : list KfProp) (s : Layer * bool) :
  fst (fold_left (deleteKeyframe_prop ct) ps s) = fold_left (deleted_prop ct) ps (fst s).
Proof.
  revert s. induction ps as [|q ps IH]; intros [l m]; [reflexivity|].
  simpl fold_left. rewrite IH. f_equal.
  unfold deleted_prop, deleteKeyframe_prop. now destruct (keyframes l q).
Qed.

Lemma deleteKeyframe_layer_track (ct : R) (layer : Layer) (p : KfProp) :
  track_of (fst (deleteKeyframe_layer ct layer)) p
  = filter (fun kf => fixed2_differs (kf_time kf) ct = true) (track_of layer p).
Proof.
  unfold deleteKeyframe_layer. rewrite deleteKeyframe_fold_fst. simpl fst.
  unfold track_of at 1.
  rewrite (fold_KF_PROPS (deleted_prop ct)
             (fun o _ => match o with
                         | Some t => Some (filter (fun kf => fixed2_differs (kf_time kf) ct = true) t)
                         | None => None
                         end)).
  - unfold track_of. now destruct (keyframes layer p).
  - intros l q. unfold deleted_prop, deleteKeyframe_prop. now destruct (keyframes l q).
  - intros l q r. unfold deleted_prop, deleteKeyframe_prop.
    destruct (keyframes l q) eqn:E; simpl; [reflexivity|].
    destruct (KfProp_eqb r q) eqn:Er; [|reflexivity].
    apply KfProp_eqb_eq in Er. now subst r.
Qed.

Lemma moveKeyframe_ascending (frames : list Keyframe) (index : nat) (newTime : R) :
  is_Some (frames !! index) -> ascending (moveKeyframe frames index newTime).
Proof.
  intros [kf Hk]. unfold moveKeyframe. rewrite Hk. apply sort_by_time_ascending.
Qed.

Lemma moveKeyframe_Permutation (frames : list Keyframe) (index : nat) (newTime : R)
    (kf : Keyframe) :
  frames !! index = Some kf ->
  Permutation (moveKeyframe frames index newTime)
              (<[index := mkKeyframe newTime (kf_value kf)]> frames).
Proof.
  intros Hk. unfold moveKeyframe. rewrite Hk. apply sort_by_time_Permutation.
Qed.

Lemma moveKeyframe_strictly_ascending (frames : list Keyframe) (index : nat) (newTime : R) :
  strictly_ascending frames -> is_Some (frames !! index) ->
  (forall j k, j <> index -> frames !! j = Some k -> kf_time k <> newTime) ->
  strictly_ascending (moveKeyframe frames index newTime).
Proof.
  intros Hs [kf Hk] Hfree.
  apply ascending_NoDup_strictly; [apply moveKeyframe_ascending; eauto|].
  rewrite (moveKeyframe_Permutation _ _ _ _ Hk).
  apply strictly_ascending_NoDup in Hs.
  pose proof (lookup_lt_Some _ _ _ Hk) as Hlen.
  apply NoDup_alt. intros i j t Hi Hj.
  rewrite list_lookup_fmap in Hi, Hj.
  destruct (decide (i = index)) as [->|Hi'], (decide (j = index)) as [->|Hj']; auto.
  - rewrite list_lookup_insert_eq in Hi by assumption.
    rewrite list_lookup_insert_ne in Hj by auto.
    simpl in Hi. injection Hi as <-.
    destruct (frames !! j) as [k|] eqn:Ek; [|discriminate].
    simpl in Hj. injection Hj as Hj. now apply (Hfree j k) in Hj.
  - rewrite list_lookup_insert_eq in Hj by assumption.
    rewrite list_lookup_insert_ne in Hi by auto.
    simpl in Hj. injection Hj as <-.
    destruct (frames !! i) as [k|] eqn:Ek; [|discriminate].
    simpl in Hi. injection Hi as Hi. now apply (Hfree i k) in Hi.
  - rewrite list_lookup_insert_ne in Hi, Hj by auto.
    rewrite <- list_lookup_fmap in Hi, Hj.
    eapply NoDup_alt; eauto.
Qed.

Lemma onTimelineMove_track (st : View) (mx : R) (li index : nat) (prop : KfProp)
    (layer : Layer) (frames : list Keyframe) :
  dragKeyframe st = Some (li, prop, index) ->
  layers st !! li = Some layer ->
  keyframes layer prop = Some frames ->
  is_Some (frames !! index) ->
  exists layer',
    layers (onTimelineMove st mx) !! li = Some layer' /\
    track_of layer' prop
    = moveKeyframe frames index (Rmax 0 (Rmin (duration st) (mx * duration st))).
Proof.
  intros Hd Hl Hk [kf Hi].
  unfold onTimelineMove. rewrite Hd, Hl, Hk, Hi.
  eexists. split.
  - unfold applyTime. simpl layers.
    change (map ?f ?l) with (f <$> l).
    rewrite list_lookup_fmap.
    rewrite list_lookup_insert_eq by (eapply lookup_lt_Some; eauto).
    reflexivity.
  - unfold track_of, applyTime_layer. rewrite applyTime_fold_keyframes.
    simpl. now rewrite KfProp_eqb_refl.
Qed.

Lemma find_layer_lookup (sel : string) (ls : list Layer) (n i : nat) (l : Layer) :
  find_layer sel ls n = Some (i, l) ->
  exists j, i = (n + j)%nat /\ ls !! j = Some l.
Proof.
  revert n. induction ls as [|h t IH]; intros n H; [discriminate|].
  simpl in H. destruct (String.eqb (layer_id h) sel).
  - injection H as <- <-. exists 0%nat. split; [lia | reflexivity].
  - destruct (IH _ H) as (j & -> & Hj). exists (S j). split; [lia | exact Hj].
Qed.

Lemma currentLayer_lookup (st : View) (i : nat) (l : Layer) :
  currentLayer st = Some (i, l) -> layers st !! i = Some l.
Proof.
  intros H. apply find_layer_lookup in H. destruct H as (j & -> & Hj). exact Hj.
Qed.

(** C6 (as amended).  Adding a keyframe to a strictly ascending track
    leaves it strictly ascending, the sample whose time rounds like the
    current time (two decimals) being replaced by the new one; deleting
    leaves exactly the samples whose rounded time differs, still strictly
    ascending; dragging a keyframe re-sorts the track, which is then
    ascending by time and holds the same samples with the dragged one moved,
    and is strictly ascending again when no other sample has the new time. *)
Theorem C6_keyframe_operations_on_ascending_tracks :
  forall (layer : Layer) (p : KfProp) (ct : R),
    strictly_ascending (track_of layer p) ->
    (strictly_ascending (track_of (addKeyframe_layer ct layer) p) /\
     filter (fun kf => fixed2_differs (kf_time kf) ct = false)
            (track_of (addKeyframe_layer ct layer) p)
     = [mkKeyframe ct (props layer p)]) /\
    (strictly_ascending (track_of (fst (deleteKeyframe_layer ct layer)) p) /\
     track_of (fst (deleteKeyframe_layer ct layer)) p
     = filter (fun kf => fixed2_differs (kf_time kf) ct = true) (track_of layer p)) /\
    (forall (st : View) (li index : nat) (mx : R) (frames : list Keyframe) (kf : Keyframe),
       dragKeyframe st = Some (li, p, index) ->
       layers st !! li = Some layer ->
       keyframes layer p = Some frames ->
       frames !! index = Some kf ->
       exists (layer' : Layer) (newTime : R),
         newTime = Rmax 0 (Rmin (duration st) (mx * duration st)) /\
         layers (onTimelineMove st mx) !! li = Some layer' /\
         ascending (track_of layer' p) /\
         Permutation (track_of layer' p)
                     (<[index := mkKeyframe newTime (kf_value kf)]> frames) /\
         ((forall j k, j <> index -> frames !! j = Some k -> kf_time k <> newTime) ->
          strictly_ascending (track_of layer' p))).
Proof.
  intros layer p ct Hs. split; [|split].
  - rewrite addKeyframe_layer_track. split.
    + now apply added_track_strictly_ascending.
    + apply added_track_one_entry.
  - rewrite deleteKeyframe_layer_track. split; [|reflexivity].
    now apply strictly_ascending_filter.
  - intros st li index mx frames kf Hd Hl Hk Hi.
    destruct (onTimelineMove_track st mx li index p layer frames Hd Hl Hk)
      as (layer' & Hl' & Ht); [eauto|].
    exists layer', (Rmax 0 (Rmin (duration st) (mx * duration st))).
    rewrite Ht. split; [reflexivity|]. split; [exact Hl'|].
    assert (Hf : track_of layer p = frames) by (unfold track_of; now rewrite Hk).
    rewrite Hf in Hs.
    split; [apply moveKeyframe_ascending; eauto|].
    split; [now apply moveKeyframe_Permutation|].
    intros Hfree. apply moveKeyframe_strictly_ascending; eauto.
Qed.

Lemma C6_keyframe_operations_on_ascending_tracks_witness :
  strictly_ascending (track_of (addKeyframe_layer 1 scenario_layer) p_x).
Proof.
  refine (proj1 (proj1 (C6_keyframe_operations_on_ascending_tracks
                          scenario_layer p_x 1 _))).
  simpl. lra.
Defined.

(** Dragging the sample at 2 s to the left end of the timeline puts it at
    time 0, where the first sample already is: the track then holds two
    samples at the same time. *)
Lemma C6_drag_counterexample :
  strictly_ascending (track_of scenario_layer p_x) /\
  exists layer',
    layers (onTimelineMove dragging_view 0) !! 0%nat = Some layer' /\
    track_of layer' p_x = [mkKeyframe 0 (-100); mkKeyframe 0 100] /\
    ~ strictly_ascending (track_of layer' p_x).
Proof.
  split; [simpl; lra|].
  destruct (onTimelineMove_track dragging_view 0 0 1 p_x scenario_layer scenario_track)
    as (layer' & Hl & Ht); try reflexivity; [eexists; reflexivity|].
  exists layer'. split; [exact Hl|].
  assert (E : track_of layer' p_x = [mkKeyframe 0 (-100); mkKeyframe 0 100]).
  { rewrite Ht. change (duration dragging_view) with (81 / 16).
    replace (Rmax 0 (Rmin (81 / 16) (0 * (81 / 16)))) with 0.
    - unfold moveKeyframe. simpl.
      now rewrite (proj2 (Rleb_true 0 0)) by lra.
    - rewrite Rmin_right by lra. rewrite Rmax_left by lra. reflexivity. }
  split; [exact E|]. rewrite E. simpl. lra.
Qed.

(** C10.  [#addKeyframe] on the selected layer writes, for every one of
    the nine properties of [KF_PROPS], one sample at the current time
    carrying the property's current value; after it every track holds
    exactly one sample whose time rounds like the current time, and the
    properties themselves are unchanged. *)
Theorem C10_addKeyframe_writes_every_property :
  forall (st : View) (i : nat) (layer : Layer),
    currentLayer st = Some (i, layer) ->
    length KF_PROPS = 9%nat /\
    (forall p : KfProp, In p KF_PROPS) /\
    exists layer' : Layer,
      layers (addKeyframe st) !! i = Some layer' /\
      forall p : KfProp,
        In (mkKeyframe (currentTime st) (props layer p)) (track_of layer' p) /\
        filter (fun kf => fixed2_differs (kf_time kf) (currentTime st) = false)
               (track_of layer' p)
        = [mkKeyframe (currentTime st) (props layer p)] /\
        props layer' p = props layer p.
Proof.
  intros st i layer Hc. split; [reflexivity|]. split; [apply KF_PROPS_complete|].
  exists (addKeyframe_layer (currentTime st) layer). split.
  - unfold addKeyframe. rewrite Hc. simpl layers.
    apply list_lookup_insert_eq.
    exact (lookup_lt_Some _ _ _ (currentLayer_lookup _ _ _ Hc)).
  - intros p. rewrite addKeyframe_layer_track, addKeyframe_layer_props.
    split; [|split; [apply added_track_one_entry | reflexivity]].
    unfold added_track. apply list_elem_of_In.
    rewrite sort_by_time_Permutation. apply elem_of_app. right.
    apply list_elem_of_singleton. reflexivity.
Qed.

Lemma C10_addKeyframe_writes_every_property_witness :
  length KF_PROPS = 9%nat.
Proof.
  exact (proj1 (C10_addKeyframe_writes_every_property scenario_view 0%nat scenario_layer
                  eq_refl)).
Defined.

(** ** Transform pipeline *)

Lemma signed_scale_x_neq_0 (layer : Layer) : signed_scale_x layer <> 0.
Proof.
  unfold signed_scale_x. pose proof (js_or_1_neq_0 (props layer p_scale_x)).
  destruct (Rltb (1 / 2) (props layer p_flip_h)); nra.
Qed.

Lemma signed_scale_y_neq_0 (layer : Layer) : signed_scale_y layer <> 0.
Proof.
  unfold signed_scale_y. pose proof (js_or_1_neq_0 (props layer p_scale_y)).
  destruct (Rltb (1 / 2) (props layer p_flip_v)); nra.
Qed.

Lemma render_point_formula (st : View) (layer : Layer) (image : Image) (u v : R) :
  let angle := props layer p_rotation * PI / 180 in
  let lx := signed_scale_x layer * (u - img_width image / 2) in
  let ly := signed_scale_y layer * (v - img_height image / 2) in
  render_point st layer image (u, v)
  = (canvas_width st / 2 + props layer p_x + (cos angle * lx - sin angle * ly),
     canvas_height st / 2 + props layer p_y + (sin angle * lx + cos angle * ly)).
Proof.
  simpl. unfold render_point, render_transform, transform_point. simpl.
  f_equal; field.
Qed.

Lemma canvasToLayerCoords_render_point (st : View) (layer : Layer) (image : Image)
    (local : R * R) :
  canvasToLayerCoords st (render_point st layer image local) layer image = local.
Proof.
  destruct local as [u v]. rewrite render_point_formula.
  unfold canvasToLayerCoords. cbv zeta. simpl fst. simpl snd.
  rewrite cos_neg, sin_neg.
  set (c := cos (props layer p_rotation * PI / 180)).
  set (s := sin (props layer p_rotation * PI / 180)).
  assert (Hcs : c * c + s * s = 1).
  { pose proof (sin2_cos2 (props layer p_rotation * PI / 180)) as H.
    unfold Rsqr in H. fold c s in H. lra. }
  pose proof (signed_scale_x_neq_0 layer) as Hx.
  pose proof (signed_scale_y_neq_0 layer) as Hy.
  set (sx := signed_scale_x layer) in *. set (sy := signed_scale_y layer) in *.
  f_equal.
  - match goal with |- ?n / sx + ?w = u =>
      replace n with (sx * (u - w) * (c * c + s * s)) by ring end.
    rewrite Hcs. field. exact Hx.
  - match goal with |- ?n / sy + ?h = v =>
      replace n with (sy * (v - h) * (c * c + s * s)) by ring end.
    rewrite Hcs. field. exact Hy.
Qed.

(** C2.  For every canvas size, every layer and every point of the
    raster, mapping the point to the canvas the way [#render] draws it
    (translate to [(W/2 + x, H/2 + y)], rotate by [rotation] degrees, scale
    by [scale_x * (flip_h > 0.5 ? -1 : 1)] and the same vertically, raster
    centred) and then through [#canvasToLayerCoords] gives the point back:
    with any rotation (0, 90 and 45 degrees among them), any flips and any
    positive scales, equal or not. *)
Theorem C2_inverse_mapping_round_trip :
  forall (st : View) (layer : Layer) (image : Image) (u v : R),
    0 < props layer p_scale_x -> 0 < props layer p_scale_y ->
    let angle := props layer p_rotation * PI / 180 in
    let sx := props layer p_scale_x * (if Rltb (1 / 2) (props layer p_flip_h) then -1 else 1) in
    let sy := props layer p_scale_y * (if Rltb (1 / 2) (props layer p_flip_v) then -1 else 1) in
    let lx := sx * (u - img_width image / 2) in
    let ly := sy * (v - img_height image / 2) in
    render_point st layer image (u, v)
    = (canvas_width st / 2 + props layer p_x + (cos angle * lx - sin angle * ly),
       canvas_height st / 2 + props layer p_y + (sin angle * lx + cos angle * ly)) /\
    canvasToLayerCoords st (render_point st layer image (u, v)) layer image = (u, v).
Proof.
  intros st layer image u v Hx Hy. cbv zeta. split.
  - rewrite render_point_formula. cbv zeta. unfold signed_scale_x, signed_scale_y.
    rewrite !js_or_nonzero by lra. reflexivity.
  - apply canvasToLayerCoords_render_point.
Qed.

Lemma C2_inverse_mapping_round_trip_witness :
  canvasToLayerCoords scenario_view
    (render_point scenario_view scenario_layer (mkImage 640 360) (10, 20))
    scenario_layer (mkImage 640 360) = (10, 20).
Proof.
  refine (proj2 (C2_inverse_mapping_round_trip scenario_view scenario_layer
                   (mkImage 640 360) 10 20 _ _)).
  - simpl. lra.
  - simpl. lra.
Defined.

Lemma drawBackground_scenario :
  bd_scale (drawBackground scenario_view scenario_background (mkImage 1000 500))
  = (128 / 100 * 1 * 1, 128 / 100 * 1 * 1).
Proof.
  unfold drawBackground. simpl.
  rewrite !js_or_nonzero by lra.
  assert (E : Rltb (1 / 2) 0 = false) by (apply Rltb_false; lra).
  rewrite E.
  replace (Rmin (1280 / 1000) (720 / 500)) with (128 / 100)
    by (symmetry; rewrite Rmin_left by lra; lra).
  reflexivity.
Qed.

(** C7.  [#drawBackground] scales the raster, drawn at its natural size
    [iw] by [ih], by [min(W/iw, H/ih)] in fit mode and by [max(W/iw, H/ih)]
    in fill mode, times the user's scale and the flip sign on each axis; in
    stretch mode the destination size is the canvas size times the user's
    scale (the canvas size itself at scale 1), under the flip signs alone.  A 1000 by 500 raster fitted on a
    1280 by 720 canvas at scale 1 has base scale 1.28 and is drawn 1280
    pixels wide. *)
Theorem C7_drawBackground_modes :
  forall (st : View) (layer : Layer) (image : Image),
    props layer p_scale_x <> 0 -> props layer p_scale_y <> 0 ->
    let W := canvas_width st in
    let H := canvas_height st in
    let iw := img_width image in
    let ih := img_height image in
    let flipX := if Rltb (1 / 2) (props layer p_flip_h) then -1 else 1 in
    let flipY := if Rltb (1 / 2) (props layer p_flip_v) then -1 else 1 in
    let d := drawBackground st layer image in
    (bg_mode layer = "fit"%string ->
       bd_scale d = (Rmin (W / iw) (H / ih) * props layer p_scale_x * flipX,
                     Rmin (W / iw) (H / ih) * props layer p_scale_y * flipY) /\
       bd_dest_w d = iw /\ bd_dest_h d = ih) /\
    (bg_mode layer = "fill"%string ->
       bd_scale d = (Rmax (W / iw) (H / ih) * props layer p_scale_x * flipX,
                     Rmax (W / iw) (H / ih) * props layer p_scale_y * flipY) /\
       bd_dest_w d = iw /\ bd_dest_h d = ih) /\
    (bg_mode layer = "stretch"%string ->
       bd_scale d = (flipX, flipY) /\
       bd_dest_w d = W * props layer p_scale_x /\
       bd_dest_h d = H * props layer p_scale_y /\
       (props layer p_scale_x = 1 -> props layer p_scale_y = 1 ->
        bd_dest_w d = W /\ bd_dest_h d = H)) /\
    Rmin (1280 / 1000) (720 / 500) = 128 / 100 /\
    drawn_width (drawBackground scenario_view scenario_background (mkImage 1000 500)) = 1280.
Proof.
  intros st layer image Hx Hy. cbv zeta.
  assert (Hd : forall mode, bg_mode layer = mode ->
            drawBackground st layer image
            = drawBackground st (mkLayer (layer_id layer) (layer_type layer) mode
                                   (props layer) (keyframes layer) (img layer)) image).
  { intros mode <-. reflexivity. }
  split; [|split; [|split; [|split]]].
  - intros E. rewrite (Hd _ E). unfold drawBackground. simpl.
    rewrite !js_or_nonzero by assumption. auto.
  - intros E. rewrite (Hd _ E). unfold drawBackground. simpl.
    rewrite !js_or_nonzero by assumption. auto.
  - intros E. rewrite (Hd _ E). unfold drawBackground. simpl.
    rewrite !js_or_nonzero by assumption.
    split; [reflexivity|]. split; [reflexivity|]. split; [reflexivity|].
    intros E1 E2. rewrite E1, E2. split; lra.
  - rewrite Rmin_left by lra. lra.
  - unfold drawn_width. rewrite drawBackground_scenario.
    unfold drawBackground. simpl. rewrite Rabs_right by lra. lra.
Qed.

Lemma C7_drawBackground_modes_witness :
  Rmin (1280 / 1000) (720 / 500) = 128 / 100.
Proof.
  refine (proj1 (proj2 (proj2 (proj2
            (C7_drawBackground_modes scenario_view scenario_background
               (mkImage 1000 500) _ _))))).
  - simpl. lra.
  - simpl. lra.
Defined.

Lemma signed_scale_x_abs (layer : Layer) :
  Rabs (signed_scale_x layer) = Rabs (js_or (props layer p_scale_x) 1).
Proof.
  unfold signed_scale_x. rewrite Rabs_mult.
  destruct (Rltb (1 / 2) (props layer p_flip_h)).
  - rewrite (Rabs_left (-1)) by lra. lra.
  - rewrite (Rabs_right 1) by lra. lra.
Qed.

Lemma signed_scale_y_abs (layer : Layer) :
  Rabs (signed_scale_y layer) = Rabs (js_or (props layer p_scale_y) 1).
Proof.
  unfold signed_scale_y. rewrite Rabs_mult.
  destruct (Rltb (1 / 2) (props layer p_flip_v)).
  - rewrite (Rabs_left (-1)) by lra. lra.
  - rewrite (Rabs_right 1) by lra. lra.
Qed.

Lemma wheel_scale_bounds (v factor : R) :
  1 / 100 <= Rmax (1 / 100) (Rmin 5 (js_or v 1 * factor)) <= 5.
Proof.
  unfold Rmax, Rmin.
  repeat match goal with |- context [Rle_dec ?a ?b] => destruct (Rle_dec a b) end; lra.
Qed.

(** C9 (as amended).  The divisors of [#canvasToLayerCoords] are
    [scale_x || 1] and [scale_y || 1] under the flip signs: a scale of 0 is
    replaced by 1 and any other scale is used as it is, so the divisors are
    never 0 and the result is the quotient it is written as.  Only the
    wheel handler bounds the scales it writes, to 0.01..5. *)
Theorem C9_inverse_mapping_divisors :
  forall (st : View) (canvasPos : R * R) (layer : Layer) (image : Image),
    0 <= props layer p_scale_x -> 0 <= props layer p_scale_y ->
    (signed_scale_x layer <> 0 /\ signed_scale_y layer <> 0) /\
    (props layer p_scale_x = 0 -> Rabs (signed_scale_x layer) = 1) /\
    (props layer p_scale_y = 0 -> Rabs (signed_scale_y layer) = 1) /\
    (0 < props layer p_scale_x -> Rabs (signed_scale_x layer) = props layer p_scale_x) /\
    (0 < props layer p_scale_y -> Rabs (signed_scale_y layer) = props layer p_scale_y) /\
    (let angleRad := - (props layer p_rotation * PI / 180) in
     let dx := fst canvasPos - (canvas_width st / 2 + props layer p_x) in
     let dy := snd canvasPos - (canvas_height st / 2 + props layer p_y) in
     let r := canvasToLayerCoords st canvasPos layer image in
     (fst r - img_width image / 2) * signed_scale_x layer
       = dx * cos angleRad - dy * sin angleRad /\
     (snd r - img_height image / 2) * signed_scale_y layer
       = dx * sin angleRad + dy * cos angleRad) /\
    (forall (i : nat) (deltaY : R),
       mask_enabled st = false -> currentLayer st = Some (i, layer) ->
       exists layer',
         layers (onCanvasWheel st deltaY) !! i = Some layer' /\
         1 / 100 <= props layer' p_scale_x <= 5 /\
         1 / 100 <= props layer' p_scale_y <= 5).
Proof.
  intros st canvasPos layer image Hx Hy.
  pose proof (signed_scale_x_neq_0 layer) as Nx.
  pose proof (signed_scale_y_neq_0 layer) as Ny.
  split; [auto|]. split; [|split; [|split; [|split; [|split]]]].
  - intros E. rewrite signed_scale_x_abs, E, js_or_zero. apply Rabs_right. lra.
  - intros E. rewrite signed_scale_y_abs, E, js_or_zero. apply Rabs_right. lra.
  - intros E. rewrite signed_scale_x_abs, js_or_nonzero by lra. apply Rabs_right. lra.
  - intros E. rewrite signed_scale_y_abs, js_or_nonzero by lra. apply Rabs_right. lra.
  - unfold canvasToLayerCoords. cbv zeta. simpl fst. simpl snd. split; field; assumption.
  - intros i deltaY Hm Hc. unfold onCanvasWheel. rewrite Hm, Hc.
    eexists. split.
    + simpl layers. apply list_lookup_insert_eq.
      exact (lookup_lt_Some _ _ _ (currentLayer_lookup _ _ _ Hc)).
    + simpl. split; apply wheel_scale_bounds.
Qed.

Lemma C9_inverse_mapping_divisors_witness :
  signed_scale_x scenario_layer <> 0 /\ signed_scale_y scenario_layer <> 0.
Proof.
  refine (proj1 (C9_inverse_mapping_divisors scenario_view (0, 0) scenario_layer
                   (mkImage 640 360) _ _)).
  - simpl. lra.
  - simpl. lra.
Defined.

(** No positive minimum bounds the divisor from below: a layer whose
    horizontal scale is half of a proposed minimum is divided by exactly
    that scale. *)
Lemma C9_no_minimum_counterexample :
  ~ exists m : R, 0 < m /\
      forall layer : Layer,
        0 <= props layer p_scale_x -> m <= Rabs (signed_scale_x layer).
Proof.
  intros (m & Hm & H).
  specialize (H (set_prop scenario_layer p_scale_x (m / 2))).
  rewrite signed_scale_x_abs in H. simpl in H.
  rewrite js_or_nonzero in H by lra.
  rewrite Rabs_right in H by lra.
  assert (0 <= m / 2) by lra. specialize (H H0). lra.
Qed.

(** ** Rasters: arrays and loops *)

Local Open Scope Z_scope.

Lemma store_length (d : list Z) (i v : Z) : length (store d i v) = length d.
Proof. unfold store. destruct (i <? 0); [reflexivity | apply length_insert]. Qed.

Lemma load_store_eq (d : list Z) (i v : Z) :
  0 <= i < Z.of_nat (length d) -> load (store d i v) i = v.
Proof.
  intros [H1 H2]. unfold load, store.
  destruct (i <? 0) eqn:E; [apply Z.ltb_lt in E; lia|].
  rewrite list_lookup_insert_eq by lia. reflexivity.
Qed.

Lemma load_store_ne (d : list Z) (i j v : Z) : i <> j -> load (store d i v) j = load d j.
Proof.
  intros Hne. unfold load, store.
  destruct (j <? 0) eqn:Ej; [reflexivity|].
  destruct (i <? 0) eqn:Ei; [reflexivity|].
  apply Z.ltb_ge in Ej, Ei.
  rewrite list_lookup_insert_ne by lia. reflexivity.
Qed.

Lemma load_replicate_0 (n : nat) (i : Z) : load (replicate n 0) i = 0.
Proof.
  unfold load. destruct (i <? 0); [reflexivity|].
  destruct (replicate n 0 !! Z.to_nat i) eqn:E; [|reflexivity].
  apply lookup_replicate in E. simpl. tauto.
Qed.

Lemma load_ext (d d' : list Z) :
  length d = length d' -> (forall i, load d i = load d' i) -> d = d'.
Proof.
  intros Hlen H. apply list_eq_same_length with (length d); auto.
  intros i a b Hi Ha Hb. specialize (H (Z.of_nat i)).
  unfold load in H. destruct (Z.of_nat i <? 0) eqn:E; [apply Z.ltb_lt in E; lia|].
  rewrite Nat2Z.id, Ha, Hb in H. exact H.
Qed.

Lemma for_range_nil {St : Type} (lo hi : Z) (body : Z -> St -> St) (s : St) :
  hi <= lo -> for_range lo hi body s = s.
Proof. intros H. unfold for_range. rewrite seqZ_nil by lia. reflexivity. Qed.

Lemma for_range_snoc {St : Type} (lo hi : Z) (body : Z -> St -> St) (s : St) :
  lo <= hi -> for_range lo (hi + 1) body s = body hi (for_range lo hi body s).
Proof.
  intros H. unfold for_range.
  replace (hi + 1 - lo) with ((hi - lo) + 1) by lia.
  rewrite seqZ_app by lia. rewrite fold_left_app.
  replace (lo + (hi - lo)) with hi by lia.
  rewrite seqZ_cons by lia. rewrite seqZ_nil by lia. reflexivity.
Qed.

(** Induction over the iterations of a loop, last iteration first. *)
Lemma for_range_rect {St : Type} (lo : Z) (body : Z -> St -> St) (s : St)
    (P : Z -> St -> Prop) :
  P lo s ->
  (forall hi, lo <= hi -> P hi (for_range lo hi body s) ->
              P (hi + 1) (body hi (for_range lo hi body s))) ->
  forall hi, lo <= hi -> P hi (for_range lo hi body s).
Proof.
  intros H0 Hstep hi Hle.
  replace hi with (lo + Z.of_nat (Z.to_nat (hi - lo))) by lia.
  induction (Z.to_nat (hi - lo)) as [|n IH].
  - rewrite Z.add_0_r. rewrite for_range_nil by lia. exact H0.
  - replace (lo + Z.of_nat (S n)) with (lo + Z.of_nat n + 1) by lia.
    rewrite for_range_snoc by lia. apply Hstep; [lia | exact IH].
Qed.

(** An invariant of the body is an invariant of the loop. *)
Lemma for_range_inv {St : Type} (lo hi : Z) (body : Z -> St -> St) (s : St) (P : St -> Prop) :
  P s -> (forall i t, lo <= i < hi -> P t -> P (body i t)) ->
  P (for_range lo hi body s).
Proof.
  intros H0 Hstep.
  destruct (Z_le_gt_dec lo hi) as [Hle|Hgt].
  - assert (H : hi <= hi -> P (for_range lo hi body s)); [|apply H; lia].
    apply (for_range_rect lo body s (fun k t => k <= hi -> P t)); auto.
    intros k Hk IH Hk'. apply Hstep; [lia | apply IH; lia].
  - rewrite for_range_nil by lia. exact H0.
Qed.

Lemma for_range_ext {St : Type} (lo hi : Z) (body body' : Z -> St -> St) (s : St) :
  (forall i t, lo <= i < hi -> body i t = body' i t) ->
  for_range lo hi body s = for_range lo hi body' s.
Proof.
  intros Hext.
  destruct (Z_le_gt_dec lo hi) as [Hle|Hgt].
  - assert (H : hi <= hi -> for_range lo hi body s = for_range lo hi body' s);
      [|apply H; lia].
    apply (for_range_rect lo body s
             (fun k t => k <= hi -> t = for_range lo k body' s)).
    + intros _. now rewrite for_range_nil by lia.
    + intros k Hk IH Hk'. rewrite for_range_snoc by lia.
      rewrite <- IH by lia. apply Hext. lia.
    + exact Hle.
  - now rewrite !for_range_nil by lia.
Qed.

(** A loop over the columns [lo .. lo + n) is the loop over [0 .. n) with
    the column shifted. *)
Lemma for_range_shift {St : Type} (lo n : Z) (body : Z -> St -> St) (s : St) :
  0 <= n ->
  for_range lo (lo + n) body s = for_range 0 n (fun i => body (lo + i)) s.
Proof.
  intros Hn.
  assert (H : forall k, 0 <= k ->
            for_range 0 k (fun i => body (lo + i)) s = for_range lo (lo + k) body s);
    [|now rewrite H].
  intros k Hk.
  apply (for_range_rect 0 (fun i => body (lo + i)) s
           (fun k t => t = for_range lo (lo + k) body s)); auto.
  - now rewrite Z.add_0_r, for_range_nil by lia.
  - intros m Hm IH. rewrite Z.add_assoc, for_range_snoc by lia. now rewrite <- IH.
Qed.

(** The two loops over the rows and the columns of a raster are one loop
    over the pixels, rows first. *)
Lemma for_rows_columns {St : Type} (w h : Z) (body : Z -> Z -> St -> St) (s : St) :
  0 < w -> 0 <= h ->
  for_range 0 h (fun y => for_range 0 w (body y)) s
  = for_range 0 (w * h) (fun k => body (k / w) (k mod w)) s.
Proof.
  intros Hw Hh.
  apply (for_range_rect 0 (fun y => for_range 0 w (body y)) s
           (fun k t => t = for_range 0 (w * k) (fun k => body (k / w) (k mod w)) s)); auto.
  - now rewrite Z.mul_0_r, !for_range_nil by lia.
  - intros y Hy IH. rewrite IH. clear IH.
    set (t := for_range 0 (w * y) _ s).
    replace (w * (y + 1)) with (w * y + w) by lia.
    assert (Hsplit : forall n, 0 <= n -> n <= w ->
              for_range 0 (w * y + n) (fun k => body (k / w) (k mod w)) s
              = for_range 0 n (body y) t).
    { intros n Hn. 
      apply (for_range_rect 0 (body y) t
               (fun n r => n <= w ->
                  for_range 0 (w * y + n) (fun k => body (k / w) (k mod w)) s = r)); auto.
      - intros _. now rewrite Z.add_0_r.
      - intros x Hx IHx Hle. rewrite Z.add_assoc, for_range_snoc by nia.
        rewrite IHx by lia.
        replace ((w * y + x) / w) with y by (apply Z.div_unique_pos with x; lia).
        replace ((w * y + x) mod w) with x by (apply Z.mod_unique_pos with y; lia).
        reflexivity. }
    symmetry. apply Hsplit; lia.
Qed.

Lemma load_store (d : list Z) (i j v : Z) :
  load (store d i v) j
  = if decide (i = j /\ 0 <= i < Z.of_nat (length d)) then v else load d j.
Proof.
  destruct (decide (i = j /\ 0 <= i < Z.of_nat (length d))) as [[-> H]|H].
  - now apply load_store_eq.
  - destruct (decide (i = j)) as [->|Hne]; [|now apply load_store_ne].
    unfold load, store. destruct (j <? 0) eqn:E; [reflexivity|].
    apply Z.ltb_ge in E. rewrite list_insert_ge by lia. reflexivity.
Qed.

Lemma load_out_of_range (d : list Z) (i : Z) :
  ~ (0 <= i < Z.of_nat (length d)) -> load d i = 0.
Proof.
  intros H. unfold load. destruct (i <? 0) eqn:E; [reflexivity|].
  apply Z.ltb_ge in E. rewrite lookup_ge_None_2 by lia. reflexivity.
Qed.

(** A loop over the pixels whose body writes the four bytes of its own
    pixel only, from what they held and from data the loop does not write:
    every pixel ends as the body leaves it on the initial array. *)
Section PixelLoop.
Variable step : Z -> list Z -> list Z.
Hypothesis step_length : forall k d, length (step k d) = length d.
Hypothesis step_frame : forall k d j, j / 4 <> k -> load (step k d) j = load d j.
Hypothesis step_own : forall k d d' j,
  length d = length d' ->
  (forall c, 0 <= c < 4 -> load d (4 * k + c) = load d' (4 * k + c)) ->
  j / 4 = k -> load (step k d) j = load (step k d') j.

Lemma pixel_loop_length (n : Z) (d : list Z) :
  length (for_range 0 n step d) = length d.
Proof using step_length.
  apply (for_range_inv 0 n step d (fun t => length t = length d)); [reflexivity|].
  intros i t _ Ht. now rewrite step_length.
Qed.

Lemma pixel_loop_load (n : Z) (d : list Z) (j : Z) :
  0 <= n ->
  load (for_range 0 n step d) j
  = if decide (0 <= j / 4 < n) then load (step (j / 4) d) j else load d j.
Proof using step_length step_frame step_own.
  intros Hn. revert j.
  pose (P := fun (k : Z) (t : list Z) => forall j, load t j
              = if decide (0 <= j / 4 < k) then load (step (j / 4) d) j else load d j).
  change (P n (for_range 0 n step d)).
  apply (for_range_rect 0 step d P); [| |exact Hn]; unfold P; clear P.
  - intros j. destruct (decide (0 <= j / 4 < 0)); [lia | reflexivity].
  - intros k Hk IH j.
    destruct (decide (j / 4 = k)) as [E|E].
    + destruct (decide (0 <= j / 4 < k + 1)); [|lia].
      rewrite E. apply step_own; [apply pixel_loop_length | | exact E].
      intros c Hc. rewrite IH.
      destruct (decide (0 <= (4 * k + c) / 4 < k)) as [H|H]; [|reflexivity].
      exfalso. clear - H Hc. Z.div_mod_to_equations. lia.
    + rewrite step_frame by exact E. rewrite IH.
      destruct (decide (0 <= j / 4 < k)), (decide (0 <= j / 4 < k + 1));
        try reflexivity; lia.
Qed.
End PixelLoop.

Lemma block_index_neq (j k c : Z) : j / 4 <> k -> 0 <= c < 4 -> 4 * k + c <> j.
Proof. intros H Hc E. subst j. apply H. clear H. Z.div_mod_to_equations. lia. Qed.

Lemma block_index (j : Z) : j = 4 * (j / 4) + j mod 4 /\ 0 <= j mod 4 < 4.
Proof. Z.div_mod_to_equations. lia. Qed.

Lemma cutout_step_length (bg mask : list Z) (i : Z) (fg : list Z) :
  length (cutout_step bg mask i fg) = length fg.
Proof.
  unfold cutout_step. destruct (128 <? load mask i); now rewrite !store_length.
Qed.

Lemma cutout_step_frame (bg mask : list Z) (k : Z) (fg : list Z) (j : Z) :
  j / 4 <> k -> load (cutout_step bg mask (4 * k) fg) j = load fg j.
Proof.
  intros H. unfold cutout_step.
  pose proof (block_index_neq j k 0 H). pose proof (block_index_neq j k 1 H).
  pose proof (block_index_neq j k 2 H). pose proof (block_index_neq j k 3 H).
  destruct (128 <? load mask (4 * k)); rewrite !load_store_ne by lia; reflexivity.
Qed.

Lemma cutout_step_own (bg mask : list Z) (k : Z) (d d' : list Z) (j : Z) :
  length d = length d' ->
  (forall c, 0 <= c < 4 -> load d (4 * k + c) = load d' (4 * k + c)) ->
  j / 4 = k ->
  load (cutout_step bg mask (4 * k) d) j = load (cutout_step bg mask (4 * k) d') j.
Proof.
  intros Hlen Hblock Hj. unfold cutout_step.
  destruct (block_index j) as [Ej Hc]. rewrite Hj in Ej.
  specialize (Hblock (j mod 4) Hc). rewrite <- Ej in Hblock.
  destruct (128 <? load mask (4 * k));
    rewrite !load_store, ?store_length, Hlen, Hblock; reflexivity.
Qed.

Lemma cutout_pixel (bg mask fg : list Z) (j : Z) :
  load (cutout bg mask fg) j
  = if decide (0 <= j / 4 < (Z.of_nat (length bg) + 3) / 4)
    then load (cutout_step bg mask (4 * (j / 4)) fg) j
    else load fg j.
Proof.
  unfold cutout, for_step4.
  change (fold_left (fun acc k => cutout_step bg mask (4 * k) acc)
            (seqZ 0 ((Z.of_nat (length bg) + 3) / 4)) fg)
    with (fold_left (fun acc k => (fun k => cutout_step bg mask (4 * k)) k acc)
            (seqZ 0 ((Z.of_nat (length bg) + 3) / 4)) fg).
  rewrite <- (Z.sub_0_r ((Z.of_nat (length bg) + 3) / 4)) at 1.
  fold (for_range 0 ((Z.of_nat (length bg) + 3) / 4)
          (fun k => cutout_step bg mask (4 * k)) fg).
  apply (pixel_loop_load (fun k => cutout_step bg mask (4 * k))).
  - intros. apply cutout_step_length.
  - intros. now apply cutout_step_frame.
  - intros. now apply cutout_step_own.
  - Z.div_mod_to_equations. lia.
Qed.

Lemma createImageData_length (w h : Z) :
  0 <= w -> 0 <= h -> Z.of_nat (length (data (createImageData w h))) = 4 * w * h.
Proof. intros Hw Hh. simpl. rewrite length_replicate. nia. Qed.

Lemma createImageData_load (w h i : Z) : load (data (createImageData w h)) i = 0.
Proof. apply load_replicate_0. Qed.

(** The bytes of pixel [p] of the cut-out. *)
Lemma cutout_bytes (w h : Z) (bgData maskData : list Z) (p : Z) :
  0 <= w -> 0 <= h -> Z.of_nat (length bgData) = 4 * w * h -> 0 <= p < w * h ->
  let F := cutout bgData maskData (data (createImageData w h)) in
  if 128 <? load maskData (4 * p)
  then load F (4 * p) = load bgData (4 * p) /\
       load F (4 * p + 1) = load bgData (4 * p + 1) /\
       load F (4 * p + 2) = load bgData (4 * p + 2) /\
       load F (4 * p + 3) = 255
  else load F (4 * p) = 0 /\ load F (4 * p + 1) = 0 /\
       load F (4 * p + 2) = 0 /\ load F (4 * p + 3) = 0.
Proof.
  intros Hw Hh Hlen Hp. cbv zeta.
  pose proof (createImageData_length w h Hw Hh) as Hz.
  assert (Hpix : forall c, 0 <= c < 4 ->
            load (cutout bgData maskData (data (createImageData w h))) (4 * p + c)
            = load (cutout_step bgData maskData (4 * p) (data (createImageData w h)))
                   (4 * p + c)).
  { intros c Hc. rewrite cutout_pixel.
    assert (E : (4 * p + c) / 4 = p) by (Z.div_mod_to_equations; lia).
    rewrite E. destruct (decide (0 <= p < (Z.of_nat (length bgData) + 3) / 4)) as [|N];
      [reflexivity|].
    exfalso. apply N. rewrite Hlen. Z.div_mod_to_equations. nia. }
  pose proof (Hpix 0) as H0. pose proof (Hpix 1) as H1.
  pose proof (Hpix 2) as H2. pose proof (Hpix 3) as H3.
  rewrite Z.add_0_r in H0.
  rewrite H0, H1, H2, H3 by lia. clear Hpix H0 H1 H2 H3.
  unfold cutout_step.
  destruct (128 <? load maskData (4 * p));
    rewrite !load_store, ?store_length, !createImageData_load;
    repeat match goal with
           | |- context [decide ?P] => destruct (decide P); try lia
           end; auto.
Qed.

(** C3.  In the foreground raster [F] cut out of the background [B] under
    the mask [M] (its red channel), by [BackgroundExtractor.extract] and by
    [#applyExtraction] alike, pixel [p] is opaque with the colour of [B]
    exactly when [M[p] > 128], and is transparent otherwise; its alpha is
    255 or 0 and nothing else. *)
Theorem C3_cutout_partitions_pixels :
  forall (w h : Z) (bgData maskData F : list Z) (p : Z),
    0 <= w -> 0 <= h -> Z.of_nat (length bgData) = 4 * w * h ->
    0 <= p < w * h ->
    F = extract_foreground w h bgData maskData \/
    F = applyExtraction_foreground w h bgData maskData ->
    let M := load maskData (4 * p) in
    ((load F (4 * p + 3) = 255 /\
      load F (4 * p) = load bgData (4 * p) /\
      load F (4 * p + 1) = load bgData (4 * p + 1) /\
      load F (4 * p + 2) = load bgData (4 * p + 2)) <-> 128 < M) /\
    (~ 128 < M -> load F (4 * p + 3) = 0) /\
    (load F (4 * p + 3) = 255 \/ load F (4 * p + 3) = 0).
Proof.
  intros w h bgData maskData F p Hw Hh Hlen Hp HF. cbv zeta.
  assert (E : F = cutout bgData maskData (data (createImageData w h)))
    by (destruct HF as [-> | ->]; reflexivity).
  subst F. clear HF.
  pose proof (cutout_bytes w h bgData maskData p Hw Hh Hlen Hp) as H. cbv zeta in H.
  destruct (128 <? load maskData (4 * p)) eqn:EM.
  - apply Z.ltb_lt in EM. destruct H as (H0 & H1 & H2 & H3).
    rewrite H0, H1, H2, H3. repeat split; intros; auto; lia.
  - apply Z.ltb_ge in EM. destruct H as (H0 & H1 & H2 & H3).
    rewrite H3. repeat split; intros; auto; lia.
Qed.

Lemma C3_cutout_partitions_pixels_witness :
  load (extract_foreground 2 1 example_bgData example_maskData) 3 = 255 \/
  load (extract_foreground 2 1 example_bgData example_maskData) 3 = 0.
Proof.
  refine (proj2 (proj2 (C3_cutout_partitions_pixels 2 1 example_bgData example_maskData
                          (extract_foreground 2 1 example_bgData example_maskData) 0
                          _ _ _ _ _))).
  - lia.
  - lia.
  - reflexivity.
  - lia.
  - left. reflexivity.
Defined.

(** ** Filling and smoothing: what is written *)

(** Writes guarded by the mask of the pixel they belong to leave every
    byte of a pixel at or under the threshold as it was. *)
Lemma fill_pixel_frame (w h : Z) (bgData maskData : list Z) (y x : Z) (d : list Z) (j : Z) :
  load maskData (4 * (j / 4)) <= 128 ->
  load (fill_pixel w h bgData maskData y x d) j = load d j.
Proof.
  intros Hm. unfold fill_pixel.
  destruct (128 <? load maskData ((y * w + x) * 4)) eqn:E; [|reflexivity].
  apply Z.ltb_lt in E.
  destruct (fill_sums w h bgData maskData x y) as [[[sumR sumG] sumB] count].
  destruct (Rltb 0 count); [|reflexivity].
  assert (Hne : j / 4 <> y * w + x).
  { intros Hj. rewrite Hj in Hm. replace (4 * (y * w + x)) with ((y * w + x) * 4) in Hm by lia.
    lia. }
  pose proof (block_index_neq j _ 0 Hne). pose proof (block_index_neq j _ 1 Hne).
  pose proof (block_index_neq j _ 2 Hne). pose proof (block_index_neq j _ 3 Hne).
  rewrite !load_store_ne by lia. reflexivity.
Qed.

Lemma fill_pixel_length (w h : Z) (bgData maskData : list Z) (y x : Z) (d : list Z) :
  length (fill_pixel w h bgData maskData y x d) = length d.
Proof.
  unfold fill_pixel.
  destruct (128 <? load maskData ((y * w + x) * 4)); [|reflexivity].
  destruct (fill_sums w h bgData maskData x y) as [[[sumR sumG] sumB] count].
  destruct (Rltb 0 count); [|reflexivity].
  now rewrite !store_length.
Qed.

Lemma copy_bytes_same_length (bgData d : list Z) :
  length d = length bgData -> copy_bytes bgData d = bgData.
Proof.
  intros Hlen. unfold copy_bytes.
  assert (H : forall n, 0 <= n ->
            let r := for_range 0 n (fun i f => store f i (load bgData i)) d in
            length r = length d /\
            forall j, load r j = if decide (0 <= j < n) then load bgData j else load d j).
  { intros n Hn.
    pose (P := fun (n : Z) (r : list Z) =>
                 length r = length d /\
                 forall j, load r j = if decide (0 <= j < n) then load bgData j else load d j).
    change (P n (for_range 0 n (fun i f => store f i (load bgData i)) d)).
    apply for_range_rect; unfold P; clear P; auto.
    - split; [reflexivity|]. intros j. destruct (decide (0 <= j < 0)); [lia | reflexivity].
    - intros k Hk [IH1 IH2]. split; [now rewrite store_length|].
      intros j. rewrite load_store, IH1, IH2.
      destruct (decide (k = j /\ 0 <= k < Z.of_nat (length d))) as [[-> ?]|N].
      + destruct (decide (0 <= j < j + 1)); [reflexivity | lia].
      + destruct (decide (0 <= j < k)), (decide (0 <= j < k + 1)); try reflexivity; try lia.
        assert (j = k) by lia. subst j.
        rewrite (load_out_of_range bgData), (load_out_of_range d) by lia. reflexivity. }
  destruct (H (Z.of_nat (length bgData))) as [H1 H2]; [lia|].
  apply load_ext; [congruence|].
  intros j. rewrite H2. destruct (decide (0 <= j < Z.of_nat (length bgData))); [reflexivity|].
  rewrite (load_out_of_range bgData), (load_out_of_range d) by lia. reflexivity.
Qed.

Lemma fill_background_length (w h : Z) (bgData maskData : list Z) :
  0 <= w -> 0 <= h -> Z.of_nat (length bgData) = 4 * w * h ->
  length (fill_background w h bgData maskData) = length bgData.
Proof.
  intros Hw Hh Hlen. unfold fill_background.
  rewrite copy_bytes_same_length
    by (apply Nat2Z.inj; rewrite createImageData_length by lia; lia).
  apply (for_range_inv 0 h _ bgData (fun t => length t = length bgData)); [reflexivity|].
  intros y t _ Ht.
  apply (for_range_inv 0 w _ t (fun t => length t = length bgData)); [exact Ht|].
  intros x t' _ Ht'. now rewrite fill_pixel_length.
Qed.

Lemma fill_background_frame (w h : Z) (bgData maskData : list Z) (j : Z) :
  0 <= w -> 0 <= h -> Z.of_nat (length bgData) = 4 * w * h ->
  load maskData (4 * (j / 4)) <= 128 ->
  load (fill_background w h bgData maskData) j = load bgData j.
Proof.
  intros Hw Hh Hlen Hm. unfold fill_background.
  rewrite copy_bytes_same_length
    by (apply Nat2Z.inj; rewrite createImageData_length by lia; lia).
  apply (for_range_inv 0 h _ bgData (fun t => load t j = load bgData j)); [reflexivity|].
  intros y t _ Ht.
  apply (for_range_inv 0 w _ t (fun t => load t j = load bgData j)); [exact Ht|].
  intros x t' _ Ht'. now rewrite fill_pixel_frame.
Qed.

Lemma blur_pixel_frame (w : Z) (maskData tempData : list Z) (y x : Z) (d : list Z) (j : Z) :
  load maskData (4 * (j / 4)) <= 64 ->
  load (blur_pixel w maskData tempData y x d) j = load d j.
Proof.
  intros Hm. unfold blur_pixel.
  destruct (64 <? load maskData ((y * w + x) * 4)) eqn:E; [|reflexivity].
  apply Z.ltb_lt in E.
  destruct (blur_sums w tempData x y) as [[sumR sumG] sumB].
  assert (Hne : j / 4 <> y * w + x).
  { intros Hj. rewrite Hj in Hm. replace (4 * (y * w + x)) with ((y * w + x) * 4) in Hm by lia.
    lia. }
  pose proof (block_index_neq j _ 0 Hne). pose proof (block_index_neq j _ 1 Hne).
  pose proof (block_index_neq j _ 2 Hne).
  rewrite !load_store_ne by lia. reflexivity.
Qed.

Lemma blur_pass_frame (w h : Z) (maskData d : list Z) (j : Z) :
  load maskData (4 * (j / 4)) <= 64 ->
  load (blur_pass w h maskData d) j = load d j.
Proof.
  intros Hm. unfold blur_pass.
  apply (for_range_inv 1 (h - 1) _ d (fun t => load t j = load d j)); [reflexivity|].
  intros y t _ Ht.
  apply (for_range_inv 1 (w - 1) _ t (fun t => load t j = load d j)); [exact Ht|].
  intros x t' _ Ht'. now rewrite blur_pixel_frame.
Qed.

Lemma applyGaussianBlur_frame (w h : Z) (source maskData : list Z) (iterations j : Z) :
  load maskData (4 * (j / 4)) <= 64 ->
  load (applyGaussianBlur w h source maskData iterations) j = load source j.
Proof.
  intros Hm. unfold applyGaussianBlur.
  apply (for_range_inv 0 iterations _ source (fun t => load t j = load source j));
    [reflexivity|].
  intros i t _ Ht. now rewrite blur_pass_frame.
Qed.

(** The alpha channel is never written by the smoothing pass. *)
Lemma blur_pixel_alpha (w : Z) (maskData tempData : list Z) (y x : Z) (d : list Z) (j : Z) :
  j mod 4 = 3 -> load (blur_pixel w maskData tempData y x d) j = load d j.
Proof.
  intros Hj. unfold blur_pixel.
  destruct (64 <? load maskData ((y * w + x) * 4)); [|reflexivity].
  destruct (blur_sums w tempData x y) as [[sumR sumG] sumB].
  rewrite !load_store_ne; [reflexivity | | |];
    intros E; subst j; revert Hj; clear; intros Hj; Z.div_mod_to_equations; lia.
Qed.

(** C5 (as amended).  After the hole fill and the smoothing pass, every
    byte of a pixel whose mask value is 64 or less is the byte of the
    original background.  The fill writes only pixels whose mask value is
    over 128; the smoothing pass, whatever its number of iterations, writes
    only pixels whose mask value is over 64. *)
Theorem C5_extraction_keeps_pixels_under_threshold :
  forall (w h : Z) (bgData maskData : list Z) (j : Z),
    0 <= w -> 0 <= h -> Z.of_nat (length bgData) = 4 * w * h ->
    (load maskData (4 * (j / 4)) <= 128 ->
       load (fill_background w h bgData maskData) j = load bgData j) /\
    (load maskData (4 * (j / 4)) <= 64 ->
       (forall (source : list Z) (iterations : Z),
          load (applyGaussianBlur w h source maskData iterations) j = load source j) /\
       load (extract_background w h bgData maskData) j = load bgData j).
Proof.
  intros w h bgData maskData j Hw Hh Hlen. split.
  - intros Hm. now apply fill_background_frame.
  - intros Hm. split.
    + intros source iterations. now apply applyGaussianBlur_frame.
    + unfold extract_background. rewrite applyGaussianBlur_frame by exact Hm.
      apply fill_background_frame; auto. lia.
Qed.

Lemma C5_extraction_keeps_pixels_under_threshold_witness :
  load (extract_background 2 1 example_bgData example_maskData) 4 = load example_bgData 4.
Proof.
  refine (proj2 (proj2 (C5_extraction_keeps_pixels_under_threshold
                          2 1 example_bgData example_maskData 4 _ _ _) _)).
  - lia.
  - lia.
  - reflexivity.
  - vm_compute. discriminate.
Defined.

(** The centre pixel is outside the selection (its mask value is not over
    128), and the smoothing pass rewrites it: black in the original, white
    after five iterations. *)
Lemma C5_soft_edge_counterexample :
  load soft_edge_maskData 16 <= 128 /\
  load soft_edge_bgData 16 = 0 /\
  load (extract_background 3 3 soft_edge_bgData soft_edge_maskData) 16 = 255.
Proof. vm_compute. repeat split; discriminate. Qed.

(** ** The hole fill at a mask value of exactly 128 *)

Lemma fill_sums_edge : fill_sums 2 1 example_bgData edge_maskData 0 0 = (0, 0, 0, 0)%R.
Proof. vm_compute. reflexivity. Qed.

Lemma claimed_fill_sums_edge :
  claimed_fill_sums 2 1 example_bgData edge_maskData 0 0
  = (let weight := Rmax 0 (10 - sqrt 1) in
     (0 + 200 * weight, 0 + 210 * weight, 0 + 220 * weight, 0 + weight))%R.
Proof. vm_compute. reflexivity. Qed.

Lemma fill_background_edge :
  fill_background 2 1 example_bgData edge_maskData = example_bgData.
Proof.
  unfold fill_background.
  rewrite copy_bytes_same_length by reflexivity.
  unfold for_range.
  change (seqZ 0 (1 - 0)) with [0]. change (seqZ 0 (2 - 0)) with [0; 1].
  simpl fold_left.
  assert (E0 : forall d, fill_pixel 2 1 example_bgData edge_maskData 0 0 d = d).
  { intros d. unfold fill_pixel.
    change (128 <? load edge_maskData ((0 * 2 + 0) * 4)) with true. cbv iota.
    rewrite fill_sums_edge.
    assert (E : Rltb 0 0 = false) by (apply Rltb_false; lra).
    now rewrite E. }
  assert (E1 : forall d, fill_pixel 2 1 example_bgData edge_maskData 0 1 d = d).
  { intros d. reflexivity. }
  now rewrite E0, E1.
Qed.

(** What the fill does in general: the sums gathered, and the bytes of a
    pixel from them. *)
Lemma fill_pixel_frame_other (w h : Z) (bgData maskData : list Z) (y x : Z) (d : list Z)
    (j : Z) :
  j / 4 <> y * w + x -> load (fill_pixel w h bgData maskData y x d) j = load d j.
Proof.
  intros Hne. unfold fill_pixel.
  destruct (128 <? load maskData ((y * w + x) * 4)); [|reflexivity].
  destruct (fill_sums w h bgData maskData x y) as [[[sumR sumG] sumB] count].
  destruct (Rltb 0 count); [|reflexivity].
  pose proof (block_index_neq j _ 0 Hne). pose proof (block_index_neq j _ 1 Hne).
  pose proof (block_index_neq j _ 2 Hne). pose proof (block_index_neq j _ 3 Hne).
  rewrite !load_store_ne by lia. reflexivity.
Qed.

Lemma fill_pixel_own (w h : Z) (bgData maskData : list Z) (y x : Z) (d d' : list Z) (j : Z) :
  length d = length d' ->
  (forall c, 0 <= c < 4 -> load d (4 * (y * w + x) + c) = load d' (4 * (y * w + x) + c)) ->
  j / 4 = y * w + x ->
  load (fill_pixel w h bgData maskData y x d) j
  = load (fill_pixel w h bgData maskData y x d') j.
Proof.
  intros Hlen Hblock Hj. unfold fill_pixel.
  destruct (block_index j) as [Ej Hc]. rewrite Hj in Ej.
  specialize (Hblock (j mod 4) Hc). rewrite <- Ej in Hblock.
  destruct (128 <? load maskData ((y * w + x) * 4)); [|exact Hblock].
  destruct (fill_sums w h bgData maskData x y) as [[[sumR sumG] sumB] count].
  destruct (Rltb 0 count); [|exact Hblock].
  rewrite !load_store, ?store_length, Hlen, Hblock. reflexivity.
Qed.

Lemma fill_background_pixel (w h : Z) (bgData maskData : list Z) (x y c : Z) :
  0 < w -> 0 < h -> Z.of_nat (length bgData) = 4 * w * h ->
  0 <= x < w -> 0 <= y < h -> 0 <= c < 4 ->
  load (fill_background w h bgData maskData) ((y * w + x) * 4 + c)
  = load (fill_pixel w h bgData maskData y x bgData) ((y * w + x) * 4 + c).
Proof.
  intros Hw Hh Hlen Hx Hy Hc. unfold fill_background.
  rewrite copy_bytes_same_length
    by (apply Nat2Z.inj; rewrite createImageData_length by lia; lia).
  rewrite for_rows_columns by lia.
  assert (Ek : ((y * w + x) * 4 + c) / 4 = y * w + x) by (Z.div_mod_to_equations; lia).
  assert (Ey : (y * w + x) / w = y) by (symmetry; apply Z.div_unique_pos with x; lia).
  assert (Ex : (y * w + x) mod w = x) by (symmetry; apply Z.mod_unique_pos with y; lia).
  rewrite (pixel_loop_load (fun k => fill_pixel w h bgData maskData (k / w) (k mod w))).
  - rewrite Ek, Ey, Ex.
    destruct (decide (0 <= y * w + x < w * h)) as [_|N]; [reflexivity|].
    exfalso. apply N. nia.
  - intros. apply fill_pixel_length.
  - intros k d j Hj. apply fill_pixel_frame_other.
    pose proof (Z.div_mod k w). lia.
  - intros k d d' j Hl Hb Hj. apply fill_pixel_own; auto.
    + intros c' Hc'. replace (k / w * w + k mod w) with k by (pose proof (Z.div_mod k w); lia).
      now apply Hb.
    + pose proof (Z.div_mod k w). lia.
  - nia.
Qed.

(** A selected pixel becomes the rounded quotients of the sums, opaque,
    when some weight was gathered, and keeps its bytes otherwise. *)
Lemma fill_background_selected (w h : Z) (bgData maskData : list Z) (x y : Z)
    (sumR sumG sumB count : R) :
  0 < w -> 0 < h -> Z.of_nat (length bgData) = 4 * w * h ->
  0 <= x < w -> 0 <= y < h ->
  128 < load maskData ((y * w + x) * 4) ->
  fill_sums w h bgData maskData x y = (sumR, sumG, sumB, count) ->
  let F := fill_background w h bgData maskData in
  let idx := (y * w + x) * 4 in
  ((0 < count)%R ->
     load F idx = clamp8 (js_round (sumR / count)) /\
     load F (idx + 1) = clamp8 (js_round (sumG / count)) /\
     load F (idx + 2) = clamp8 (js_round (sumB / count)) /\
     load F (idx + 3) = 255) /\
  ((count <= 0)%R -> forall c, 0 <= c < 4 -> load F (idx + c) = load bgData (idx + c)).
Proof.
  intros Hw Hh Hlen Hx Hy Hm Hs. cbv zeta.
  assert (Hin : 0 <= (y * w + x) * 4 /\ (y * w + x) * 4 + 3 < 4 * w * h) by nia.
  assert (Hpix : forall c, 0 <= c < 4 ->
            load (fill_background w h bgData maskData) ((y * w + x) * 4 + c)
            = load (fill_pixel w h bgData maskData y x bgData) ((y * w + x) * 4 + c))
    by (intros; now apply fill_background_pixel).
  set (idx := (y * w + x) * 4) in *.
  assert (E : (128 <? load maskData idx) = true) by (apply Z.ltb_lt; lia).
  split.
  - intros Hc. pose proof (Hpix 0) as H0. rewrite Z.add_0_r in H0.
    rewrite H0, (Hpix 1), (Hpix 2), (Hpix 3) by lia.
    unfold fill_pixel. fold idx. rewrite E, Hs, (proj2 (Rltb_true _ _) Hc).
    rewrite !load_store, ?store_length.
    repeat match goal with
           | |- context [decide ?P] => destruct (decide P) as [?|?]
           end; try lia; auto.
  - intros Hc c Hcc. rewrite (Hpix c Hcc).
    unfold fill_pixel. fold idx. rewrite E, Hs, (proj2 (Rltb_false _ _) Hc). reflexivity.
Qed.

(** When every pixel of the raster within ten columns and ten rows of a
    pixel has a mask value of 128 or more, no weight is gathered: such a
    pixel, the centre of a wide selection for one, keeps its bytes. *)
Lemma fill_sums_nothing_sampled (w h : Z) (bgData maskData : list Z) (x y : Z) :
  (forall dx dy, - blurRadius <= dx <= blurRadius -> - blurRadius <= dy <= blurRadius ->
     0 <= x + dx < w -> 0 <= y + dy < h ->
     128 <= load maskData (((y + dy) * w + (x + dx)) * 4)) ->
  fill_sums w h bgData maskData x y = (0, 0, 0, 0)%R.
Proof.
  intros H. unfold fill_sums.
  apply (for_range_inv _ _ _ _ (fun acc => acc = (0, 0, 0, 0)%R)); [reflexivity|].
  intros dy acc Hdy ->.
  apply (for_range_inv _ _ _ _ (fun acc => acc = (0, 0, 0, 0)%R)); [reflexivity|].
  intros dx acc Hdx ->.
  unfold fill_sample.
  destruct ((0 <=? x + dx) && (x + dx <? w) && (0 <=? y + dy) && (y + dy <? h)) eqn:E;
    [|reflexivity].
  repeat (apply andb_true_iff in E; destruct E as [E ?]).
  assert (Hm : 128 <= load maskData (((y + dy) * w + (x + dx)) * 4))
    by (apply H; unfold blurRadius in *; lia).
  destruct (load maskData (((y + dy) * w + (x + dx)) * 4) <? 128) eqn:E'; [|reflexivity].
  apply Z.ltb_lt in E'. lia.
Qed.

Lemma fill_background_far_from_unselected (w h : Z) (bgData maskData : list Z) (x y c : Z) :
  0 < w -> 0 < h -> Z.of_nat (length bgData) = 4 * w * h ->
  0 <= x < w -> 0 <= y < h -> 0 <= c < 4 ->
  (forall dx dy, - blurRadius <= dx <= blurRadius -> - blurRadius <= dy <= blurRadius ->
     0 <= x + dx < w -> 0 <= y + dy < h ->
     128 <= load maskData (((y + dy) * w + (x + dx)) * 4)) ->
  load (fill_background w h bgData maskData) ((y * w + x) * 4 + c)
  = load bgData ((y * w + x) * 4 + c).
Proof.
  intros Hw Hh Hlen Hx Hy Hc Hfar.
  rewrite fill_background_pixel by assumption.
  unfold fill_pixel. rewrite (fill_sums_nothing_sampled _ _ _ _ _ _ Hfar).
  assert (E : Rltb 0 0 = false) by (apply Rltb_false; lra).
  rewrite E. now destruct (128 <? load maskData ((y * w + x) * 4)).
Qed.

(** The sums of C4 as worded are the sums of the code on every mask that
    holds no 128. *)
Lemma claimed_fill_sums_without_128 (w h : Z) (bgData maskData : list Z) (x y : Z) :
  (forall i, load maskData i <> 128) ->
  claimed_fill_sums w h bgData maskData x y = fill_sums w h bgData maskData x y.
Proof.
  intros H. unfold claimed_fill_sums, fill_sums.
  apply for_range_ext. intros dy acc _.
  apply for_range_ext. intros dx acc' _.
  unfold claimed_fill_sample, fill_sample.
  destruct acc' as [[[sumR sumG] sumB] count].
  destruct ((0 <=? x + dx) && (x + dx <? w) && (0 <=? y + dy) && (y + dy <? h));
    [|reflexivity].
  specialize (H (((y + dy) * w + (x + dx)) * 4)).
  destruct (Z.leb_spec (load maskData (((y + dy) * w + (x + dx)) * 4)) 128),
           (Z.ltb_spec (load maskData (((y + dy) * w + (x + dx)) * 4)) 128);
    try reflexivity; lia.
Qed.

(** C4, at a failing input.  On a two-pixel background whose first pixel
    is selected and whose second pixel holds the mask value 128, the
    selected pixel has an unselected neighbour at distance 1, of weight 9;
    the rounded weighted average of C4 is that neighbour's colour, and the
    fill leaves the selected pixel as it was: it samples a neighbour only
    when its mask value is under 128. *)
Theorem C4_fill_skips_neighbour_at_128 :
  128 < load edge_maskData 0 /\
  load edge_maskData 4 <= 128 /\
  claimed_fill_rgb 2 1 example_bgData edge_maskData 0 0 = Some (200, 210, 220) /\
  fill_background 2 1 example_bgData edge_maskData = example_bgData /\
  (load example_bgData 0, load example_bgData 1, load example_bgData 2) = (10, 20, 30).
Proof.
  split; [vm_compute; reflexivity|]. split; [vm_compute; discriminate|].
  split; [|split; [apply fill_background_edge | reflexivity]].
  unfold claimed_fill_rgb. rewrite claimed_fill_sums_edge. cbv zeta.
  rewrite sqrt_1. rewrite Rmax_right by lra.
  assert (E : Rltb 0 (0 + (10 - 1)) = true) by (apply Rltb_true; lra).
  rewrite E.
  replace ((0 + 200 * (10 - 1)) / (0 + (10 - 1)))%R with (IZR 200) by (field; lra).
  replace ((0 + 210 * (10 - 1)) / (0 + (10 - 1)))%R with (IZR 210) by (field; lra).
  replace ((0 + 220 * (10 - 1)) / (0 + (10 - 1)))%R with (IZR 220) by (field; lra).
  now rewrite !js_round_IZR.
Qed.

(** ** Mask edge jitter *)

Lemma jitter_pixel_eq (w h amount : Z) (src : list Z) (rand : nat -> R) (y x : Z)
    (n : nat) (dst : list Z) :
  jitter_pixel w h amount src rand y x (n, dst)
  = (S (S n),
     let ox := fst (jitter_offset amount (rand n) (rand (S n))) in
     let oy := snd (jitter_offset amount (rand n) (rand (S n))) in
     let sx := Z.min (w - 1) (Z.max 0 (x + ox)) in
     let sy := Z.min (h - 1) (Z.max 0 (y + oy)) in
     let dstIdx := (y * w + x) * 4 in
     let srcIdx := (sy * w + sx) * 4 in
     store (store (store (store dst dstIdx (load src srcIdx))
                         (dstIdx + 1) (load src (srcIdx + 1)))
                  (dstIdx + 2) (load src (srcIdx + 2)))
           (dstIdx + 3) (load src (srcIdx + 3))).
Proof. reflexivity. Qed.

Lemma jitter_flat (w h amount : Z) (src : list Z) (rand : nat -> R) (n : nat) :
  0 < w -> 0 <= h ->
  jitter w h amount src rand n
  = ((n + 2 * Z.to_nat (w * h))%nat,
     for_range 0 (w * h) (jitter_step w h amount src rand n) (data (createImageData w h))).
Proof.
  intros Hw Hh. unfold jitter. rewrite for_rows_columns by assumption.
  set (d0 := data (createImageData w h)).
  set (body := fun k => jitter_pixel w h amount src rand (k / w) (k mod w)).
  pose (P := fun (k : Z) (s : nat * list Z) =>
               s = ((n + 2 * Z.to_nat k)%nat,
                    for_range 0 k (jitter_step w h amount src rand n) d0)).
  change (P (w * h) (for_range 0 (w * h) body (n, d0))).
  apply for_range_rect; unfold P; clear P; [| |nia].
  - rewrite for_range_nil by lia. f_equal. simpl. lia.
  - intros k Hk IH. rewrite IH. rewrite for_range_snoc by lia.
    unfold body, jitter_step. rewrite !jitter_pixel_eq. simpl snd. f_equal. lia.
Qed.

Lemma pixel_offset (w k : Z) : 0 < w -> (k / w * w + k mod w) * 4 = 4 * k.
Proof. intros Hw. pose proof (Z.div_mod k w). lia. Qed.

Lemma jitter_step_length (w h amount : Z) (src : list Z) (rand : nat -> R) (n0 : nat)
    (k : Z) (d : list Z) :
  length (jitter_step w h amount src rand n0 k d) = length d.
Proof. unfold jitter_step. rewrite jitter_pixel_eq. simpl. now rewrite !store_length. Qed.

Lemma jitter_step_frame (w h amount : Z) (src : list Z) (rand : nat -> R) (n0 : nat)
    (k : Z) (d : list Z) (j : Z) :
  0 < w -> j / 4 <> k -> load (jitter_step w h amount src rand n0 k d) j = load d j.
Proof.
  intros Hw H. unfold jitter_step. rewrite jitter_pixel_eq. cbv zeta. simpl snd.
  rewrite (pixel_offset w k Hw).
  pose proof (block_index_neq j k 0 H). pose proof (block_index_neq j k 1 H).
  pose proof (block_index_neq j k 2 H). pose proof (block_index_neq j k 3 H).
  rewrite !load_store_ne by lia. reflexivity.
Qed.

Lemma jitter_step_own (w h amount : Z) (src : list Z) (rand : nat -> R) (n0 : nat)
    (k : Z) (d d' : list Z) (j : Z) :
  0 < w -> length d = length d' ->
  (forall c, 0 <= c < 4 -> load d (4 * k + c) = load d' (4 * k + c)) ->
  j / 4 = k ->
  load (jitter_step w h amount src rand n0 k d) j
  = load (jitter_step w h amount src rand n0 k d') j.
Proof.
  intros Hw Hlen Hblock Hj. unfold jitter_step. rewrite !jitter_pixel_eq. cbv zeta. simpl snd.
  destruct (block_index j) as [Ej Hc]. rewrite Hj in Ej.
  specialize (Hblock (j mod 4) Hc). rewrite <- Ej in Hblock.
  rewrite !load_store, ?store_length, Hlen, Hblock. reflexivity.
Qed.

(** Every byte of the jittered raster is the byte of its source pixel. *)
Lemma jitter_bytes (w h amount : Z) (src : list Z) (rand : nat -> R) (n : nat) (x y c : Z) :
  0 < w -> 0 < h -> 0 <= x < w -> 0 <= y < h -> 0 <= c < 4 ->
  let s := jitter_source w h amount rand n x y in
  load (snd (jitter w h amount src rand n)) ((y * w + x) * 4 + c)
  = load src ((snd s * w + fst s) * 4 + c).
Proof.
  intros Hw Hh Hx Hy Hc. cbv zeta.
  rewrite jitter_flat by lia.
  assert (Hl : Z.of_nat (length (data (createImageData w h))) = 4 * w * h)
    by (apply createImageData_length; lia).
  set (d0 := data (createImageData w h)) in *.
  cbn [snd].
  rewrite (pixel_loop_load (jitter_step w h amount src rand n)).
  - assert (Ek : ((y * w + x) * 4 + c) / 4 = y * w + x) by (Z.div_mod_to_equations; lia).
    rewrite Ek.
    destruct (decide (0 <= y * w + x < w * h)) as [_|N]; [|exfalso; apply N; nia].
    unfold jitter_step. rewrite jitter_pixel_eq. cbn [snd]. cbv zeta.
    assert (Ey : (y * w + x) / w = y) by (symmetry; apply Z.div_unique_pos with x; lia).
    assert (Ex : (y * w + x) mod w = x) by (symmetry; apply Z.mod_unique_pos with y; lia).
    rewrite Ey, Ex.
    unfold jitter_source.
    destruct (jitter_offset amount (rand (n + 2 * Z.to_nat (y * w + x))%nat)
                (rand (S (n + 2 * Z.to_nat (y * w + x))))) as [ox oy] eqn:Eo.
    cbn [fst snd].
    assert (Hin : 0 <= (y * w + x) * 4 /\ (y * w + x) * 4 + 3 < 4 * w * h) by nia.
    set (idx := (y * w + x) * 4) in *.
    assert (Hcs : c = 0 \/ c = 1 \/ c = 2 \/ c = 3) by lia.
    rewrite !load_store, ?store_length, Hl.
    destruct Hcs as [-> | [-> | [-> | ->]]];
      repeat match goal with
             | |- context [decide ?P] => destruct (decide P) as [?|?]
             end; try reflexivity; try lia;
      rewrite ?Z.add_0_r; try reflexivity.
  - intros. apply jitter_step_length.
  - intros. now apply jitter_step_frame.
  - intros. now apply jitter_step_own.
  - nia.
Qed.

Lemma applyMaskJitter_enabled (st : View) (rand : nat -> R) (n : nat) :
  mask_enabled st = true -> 0 < width (maskCanvas st) -> 0 < height (maskCanvas st) ->
  applyMaskJitter st rand n
  = set_maskCanvas st
      (mkImageData (width (maskCanvas st)) (height (maskCanvas st))
         (snd (jitter (width (maskCanvas st)) (height (maskCanvas st)) (jitter_amount st)
                      (data (maskCanvas st)) rand n))).
Proof.
  intros He Hw Hh. unfold applyMaskJitter. rewrite He. cbn [negb].
  assert (E1 : (width (maskCanvas st) =? 0) = false) by (apply Z.eqb_neq; lia).
  assert (E2 : (height (maskCanvas st) =? 0) = false) by (apply Z.eqb_neq; lia).
  now rewrite E1, E2.
Qed.

(** C8 (as amended).  With the mask mode on and a non-empty mask canvas,
    [#applyMaskJitter] writes the mask canvas and nothing else; the new
    raster has the size of the old one, and its pixel [(x, y)] holds the
    four bytes of the source pixel [(x + ox, y + oy)] clamped to the raster,
    where [(ox, oy)] is the rounding of the vector of angle [2 * pi * u1] and
    length [amount * u2], for the two draws [u1], [u2] that [Math.random]
    gives at that pixel: the length is linear in the draw. *)
Theorem C8_jitter_copies_displaced_pixels :
  forall (st : View) (rand : nat -> R) (n : nat),
    mask_enabled st = true ->
    0 < width (maskCanvas st) -> 0 < height (maskCanvas st) ->
    let w := width (maskCanvas st) in
    let h := height (maskCanvas st) in
    let st' := applyMaskJitter st rand n in
    st' = set_maskCanvas st (maskCanvas st') /\
    layers st' = layers st /\
    width (maskCanvas st') = w /\ height (maskCanvas st') = h /\
    forall x y c : Z, 0 <= x < w -> 0 <= y < h -> 0 <= c < 4 ->
      let k := Z.to_nat (y * w + x) in
      let u1 := rand (n + 2 * k)%nat in
      let u2 := rand (S (n + 2 * k)) in
      let vx := (cos (u1 * PI * 2) * IZR (jitter_amount st) * u2)%R in
      let vy := (sin (u1 * PI * 2) * IZR (jitter_amount st) * u2)%R in
      let sx := Z.min (w - 1) (Z.max 0 (x + js_round vx)) in
      let sy := Z.min (h - 1) (Z.max 0 (y + js_round vy)) in
      (vx * vx + vy * vy = (IZR (jitter_amount st) * u2) * (IZR (jitter_amount st) * u2))%R /\
      0 <= sx < w /\ 0 <= sy < h /\
      load (data (maskCanvas st')) ((y * w + x) * 4 + c)
      = load (data (maskCanvas st)) ((sy * w + sx) * 4 + c).
Proof.
  intros st rand n He Hw Hh. cbv zeta.
  rewrite (applyMaskJitter_enabled st rand n He Hw Hh).
  split; [reflexivity|]. split; [reflexivity|]. split; [reflexivity|].
  split; [reflexivity|].
  intros x y c Hx Hy Hc.
  split.
  { pose proof (sin2_cos2 (rand (n + 2 * Z.to_nat (y * width (maskCanvas st) + x))%nat
                           * PI * 2)) as Hsc.
    unfold Rsqr in Hsc.
    set (s := sin _) in *. set (co := cos _) in *.
    set (a := IZR (jitter_amount st)). set (u := rand _).
    replace (co * a * u * (co * a * u) + s * a * u * (s * a * u))%R
      with ((s * s + co * co) * (a * u * (a * u)))%R by ring.
    rewrite Hsc. ring. }
  split; [lia|]. split; [lia|].
  cbn [maskCanvas set_maskCanvas data].
  rewrite (jitter_bytes _ _ _ _ _ _ x y c) by lia.
  reflexivity.
Qed.

Lemma C8_jitter_copies_displaced_pixels_witness :
  width (maskCanvas (applyMaskJitter jitter_view jitter_draws 0)) = 3.
Proof.
  refine (proj1 (proj2 (proj2 (C8_jitter_copies_displaced_pixels
                                 jitter_view jitter_draws 0%nat _ _ _)))).
  - reflexivity.
  - simpl. lia.
  - simpl. lia.
Defined.

Lemma jitter_offset_example : jitter_offset 4 0 (1 / 4) = (1, 0).
Proof.
  unfold jitter_offset.
  replace (0 * PI * 2)%R with 0%R by ring. rewrite cos_0, sin_0.
  replace (1 * 4 * (1 / 4))%R with (IZR 1) by lra.
  replace (0 * 4 * (1 / 4))%R with (IZR 0) by lra.
  now rewrite !js_round_IZR.
Qed.

(** With the draws [u1 = 0], [u2 = 1/4] and the amount 4, the radius
    [amount * sqrt(u2)] puts the source of pixel 0 two pixels to the right,
    at the grey level 30; the code copies the pixel one to the right, at the
    grey level 20. *)
Lemma C8_radius_counterexample :
  claimed_displacement 4 (jitter_draws 0) (jitter_draws 1) = (2, 0)%R /\
  load (data (maskCanvas jitter_view)) ((0 * 3 + (0 + 2)) * 4) = 30 /\
  load (data (maskCanvas jitter_view)) ((0 * 3 + (0 + 1)) * 4) = 20 /\
  load (data (maskCanvas (applyMaskJitter jitter_view jitter_draws 0))) ((0 * 3 + 0) * 4) = 20.
Proof.
  split; [|split; [reflexivity | split; [reflexivity|]]].
  - unfold claimed_displacement, jitter_draws. cbn [Nat.even].
    replace (2 * PI * 0)%R with 0%R by ring. rewrite cos_0, sin_0.
    replace (1 / 4)%R with (1 / 2 * (1 / 2))%R by lra.
    rewrite sqrt_square by lra. f_equal; lra.
  - rewrite applyMaskJitter_enabled; [|reflexivity|simpl; lia|simpl; lia].
    cbn [maskCanvas set_maskCanvas data jitter_view width height jitter_amount].
    pose proof (jitter_bytes 3 1 4 [10; 10; 10; 255; 20; 20; 20; 255; 30; 30; 30; 255]
                  jitter_draws 0 0 0 0) as H.
    cbv zeta in H. rewrite Z.add_0_r in H. rewrite H by lia. clear H.
    unfold jitter_source.
    change (jitter_draws (0 + 2 * Z.to_nat (0 * 3 + 0))) with 0%R.
    change (jitter_draws (S (0 + 2 * Z.to_nat (0 * 3 + 0)))) with (1 / 4)%R.
    rewrite jitter_offset_example. reflexivity.
Qed.

(** * Further properties *)

Local Open Scope R_scope.

(** ** Interpolation *)

Lemma strictly_ascending_lookup_lt (l : list Keyframe) (i j : nat) (a b : Keyframe) :
  strictly_ascending l -> l !! i = Some a -> l !! j = Some b -> (i < j)%nat ->
  kf_time a < kf_time b.
Proof.
  revert i j. induction l as [|h t IH]; intros i j Hs Hi Hj Hlt; [discriminate|].
  apply strictly_ascending_cons in Hs. destruct Hs as [Hall Hs].
  destruct j as [|j]; [lia|]. simpl in Hj.
  destruct i as [|i].
  - simpl in Hi. injection Hi as <-.
    rewrite Forall_forall in Hall. apply Hall. eapply list_elem_of_lookup_2; eauto.
  - simpl in Hi. apply (IH i j); auto. lia.
Qed.

Lemma strictly_ascending_lookup_inj (l : list Keyframe) (i j : nat) (a b : Keyframe) :
  strictly_ascending l -> l !! i = Some a -> l !! j = Some b ->
  kf_time a = kf_time b -> i = j.
Proof.
  intros Hs Hi Hj E.
  destruct (Nat.lt_trichotomy i j) as [H|[H|H]]; auto.
  - pose proof (strictly_ascending_lookup_lt l i j a b Hs Hi Hj H). lra.
  - pose proof (strictly_ascending_lookup_lt l j i b a Hs Hj Hi H). lra.
Qed.

Lemma lerp_at_left (a b : Keyframe) : lerp a b (kf_time a) = kf_value a.
Proof. unfold lerp, Rdiv. ring. Qed.

Lemma lerp_at_right (a b : Keyframe) :
  kf_time a < kf_time b -> lerp a b (kf_time b) = kf_value b.
Proof.
  intros H. unfold lerp. rewrite js_or_nonzero by lra. field. lra.
Qed.

Lemma evaluate_sample_time (track : list Keyframe) (j : nat) (k : Keyframe) :
  strictly_ascending track -> track !! j = Some k ->
  evaluate track (kf_time k) = Some (kf_value k).
Proof.
  intros Hs Hk.
  pose proof (strictly_ascending_ascending _ Hs) as Ha.
  destruct (head track) as [first|] eqn:Hh;
    [|destruct track; [discriminate Hk | discriminate Hh]].
  destruct (last track) as [lst|] eqn:Hl;
    [|apply last_None in Hl; subst track; discriminate Hk].
  assert (Hh0 : track !! 0%nat = Some first) by (destruct track; [discriminate | exact Hh]).
  assert (Hln : track !! pred (length track) = Some lst) by (now rewrite <- last_lookup).
  destruct (Rle_dec (kf_time k) (kf_time first)) as [H1|H1].
  - rewrite (evaluate_at_or_before_first _ _ _ Ha Hh H1). f_equal.
    destruct j as [|j]; [congruence|].
    pose proof (strictly_ascending_lookup_lt track 0 (S j) first k Hs Hh0 Hk ltac:(lia)). lra.
  - destruct (Rle_dec (kf_time lst) (kf_time k)) as [H2|H2].
    + rewrite (evaluate_at_or_after_last _ first lst _ Ha Hh Hl) by lra. f_equal.
      pose proof (lookup_lt_Some _ _ _ Hk) as Hj.
      destruct (decide (j = pred (length track))) as [->|Hne]; [congruence|].
      pose proof (strictly_ascending_lookup_lt track j (pred (length track)) k lst
                    Hs Hk Hln ltac:(lia)). lra.
    + destruct (evaluate_between track first lst (kf_time k) Ha Hh Hl)
        as (i & a & b & Hia & Hib & Hab & He); [lra|].
      rewrite He. f_equal.
      assert (Hab' : kf_time a < kf_time b)
        by (apply (strictly_ascending_lookup_lt track i (S i) a b); auto; lia).
      destruct (le_lt_dec j i) as [Hji|Hji].
      * assert (j = i).
        { destruct (decide (j = i)) as [|Hne]; auto.
          pose proof (strictly_ascending_lookup_lt track j i k a Hs Hk Hia ltac:(lia)). lra. }
        subst j. assert (k = a) by congruence. subst k. apply lerp_at_left.
      * assert (j = S i).
        { destruct (decide (j = S i)) as [|Hne]; auto.
          pose proof (strictly_ascending_lookup_lt track (S i) j b k Hs Hib Hk ltac:(lia)). lra. }
        subst j. assert (k = b) by congruence. subst k. now apply lerp_at_right.
Qed.

(** X1.  On a strictly ascending track, [#applyTime] at the time of a
    sample that lies on the timeline, [0 <= time <= duration], makes that
    time the current time and leaves in the property exactly the value of
    that sample. *)
Theorem applyTime_at_sample :
  forall (st : View) (li : nat) (layer : Layer) (p : KfProp) (j : nat) (k : Keyframe),
    layers st !! li = Some layer ->
    strictly_ascending (track_of layer p) -> track_of layer p !! j = Some k ->
    0 <= kf_time k <= duration st ->
    currentTime (applyTime st (kf_time k)) = kf_time k /\
    exists layer' : Layer,
      layers (applyTime st (kf_time k)) !! li = Some layer' /\
      props layer' p = kf_value k.
Proof.
  intros st li layer p j k Hl Hs Hk Ht. split.
  - unfold applyTime. cbn [currentTime set_layers set_currentTime].
    now apply clamp_time_inside.
  - exists (applyTime_layer (Rmax 0 (Rmin (duration st) (kf_time k))) layer).
    split; [now apply applyTime_lookup|].
    rewrite applyTime_layer_props, (clamp_time_inside _ _ Ht).
    now rewrite (evaluate_sample_time _ j k Hs Hk).
Qed.

Lemma applyTime_at_sample_witness :
  exists layer' : Layer,
    layers (applyTime scenario_view 2) !! 0%nat = Some layer' /\ props layer' p_x = 100.
Proof.
  refine (proj2 (applyTime_at_sample scenario_view 0%nat scenario_layer p_x 1%nat
                   (mkKeyframe 2 100) eq_refl _ eq_refl _)).
  - simpl. lra.
  - simpl. lra.
Defined.

Lemma lerp_between (a b : Keyframe) (t : R) :
  kf_time a <= t <= kf_time b ->
  Rmin (kf_value a) (kf_value b) <= lerp a b t <= Rmax (kf_value a) (kf_value b).
Proof.
  intros [H1 H2]. unfold lerp, js_or.
  destruct (Reqb (kf_time b - kf_time a) 0) eqn:E.
  - apply Reqb_true in E. replace (t - kf_time a) with 0 by lra.
    unfold Rdiv. rewrite Rmult_0_l, Rmult_0_r, Rplus_0_r.
    split; [apply Rmin_l | apply Rmax_l].
  - apply Reqb_false in E.
    set (s := (t - kf_time a) / (kf_time b - kf_time a)).
    assert (Hd : 0 < kf_time b - kf_time a) by lra.
    assert (Hs : 0 <= s <= 1).
    { unfold s. split.
      - apply Rmult_le_pos; [lra | left; now apply Rinv_0_lt_compat].
      - apply (Rmult_le_reg_r (kf_time b - kf_time a)); [exact Hd|].
        unfold Rdiv. rewrite Rmult_assoc, Rinv_l by lra. lra. }
    unfold Rmin, Rmax. destruct (Rle_dec (kf_value a) (kf_value b)); nra.
Qed.

(** X2.  Interpolation never overshoots: on a non-empty ascending track
    the value at any time lies between the values of two samples of the
    track (the bracketing pair, or the end sample taken twice). *)
Theorem evaluate_within_samples :
  forall (track : list Keyframe) (t : R),
    ascending track -> track <> [] ->
    exists (v : R) (a b : Keyframe),
      evaluate track t = Some v /\ In a track /\ In b track /\
      Rmin (kf_value a) (kf_value b) <= v <= Rmax (kf_value a) (kf_value b).
Proof.
  intros track t Ha Hne.
  destruct (head track) as [first|] eqn:Hh; [|destruct track; [congruence | discriminate Hh]].
  destruct (last track) as [lst|] eqn:Hl; [|apply last_None in Hl; congruence].
  assert (Hf : In first track) by (destruct track; [discriminate|]; injection Hh as ->; now left).
  assert (Hlin : In lst track).
  { apply list_elem_of_In. rewrite last_lookup in Hl. eapply list_elem_of_lookup_2; eauto. }
  destruct (Rle_dec t (kf_time first)) as [H1|H1].
  - exists (kf_value first), first, first. repeat split; auto.
    + now apply evaluate_at_or_before_first.
    + rewrite Rmin_left; lra.
    + rewrite Rmax_left; lra.
  - destruct (Rle_dec (kf_time lst) t) as [H2|H2].
    + exists (kf_value lst), lst, lst. repeat split; auto.
      * apply (evaluate_at_or_after_last _ first lst); auto. lra.
      * rewrite Rmin_left; lra.
      * rewrite Rmax_left; lra.
    + destruct (evaluate_between track first lst t Ha Hh Hl)
        as (i & a & b & Hia & Hib & Hab & He); [lra|].
      exists (lerp a b t), a, b. split; [exact He|].
      split; [apply list_elem_of_In; eapply list_elem_of_lookup_2; eauto|].
      split; [apply list_elem_of_In; eapply list_elem_of_lookup_2; eauto|].
      now apply lerp_between.
Qed.

Lemma evaluate_within_samples_witness :
  exists (v : R) (a b : Keyframe),
    evaluate scenario_track 1 = Some v /\ In a scenario_track /\ In b scenario_track /\
    Rmin (kf_value a) (kf_value b) <= v <= Rmax (kf_value a) (kf_value b).
Proof.
  apply (evaluate_within_samples scenario_track 1).
  - simpl. lra.
  - discriminate.
Defined.

Lemma clamp_time_bounds (d t : R) : 0 <= d -> 0 <= Rmax 0 (Rmin d t) <= d.
Proof.
  intros Hd. unfold Rmin. destruct (Rle_dec d t); unfold Rmax;
    match goal with |- context [Rle_dec ?a ?b] => destruct (Rle_dec a b) end; lra.
Qed.

Lemma clamp_time_fixed (d t : R) : 0 <= t <= d -> Rmax 0 (Rmin d t) = t.
Proof.
  intros H. unfold Rmin. destruct (Rle_dec d t); unfold Rmax;
    match goal with |- context [Rle_dec ?a ?b] => destruct (Rle_dec a b) end; lra.
Qed.

Lemma applyTime_layer_idempotent (ct : R) (l : Layer) (p : KfProp) :
  props (applyTime_layer ct (applyTime_layer ct l)) p = props (applyTime_layer ct l) p.
Proof.
  rewrite (applyTime_layer_props ct (applyTime_layer ct l)).
  assert (Ht : track_of (applyTime_layer ct l) p = track_of l p).
  { unfold track_of, applyTime_layer. now rewrite applyTime_fold_keyframes. }
  rewrite Ht, (applyTime_layer_props ct l).
  now destruct (evaluate (track_of l p) ct).
Qed.

(** X3.  [#applyTime] puts the current time inside [0, duration], keeps
    every track, and is idempotent: applying the same time again, or
    re-applying the current time as the keyframe operations do, changes no
    property of any layer. *)
Theorem applyTime_idempotent :
  forall (st : View) (t : R) (li : nat) (l1 : Layer),
    0 <= duration st ->
    layers (applyTime st t) !! li = Some l1 ->
    0 <= currentTime (applyTime st t) <= duration st /\
    (forall l0, layers st !! li = Some l0 -> keyframes l1 = keyframes l0) /\
    (forall t', t' = t \/ t' = currentTime (applyTime st t) ->
       currentTime (applyTime (applyTime st t) t') = currentTime (applyTime st t) /\
       exists l2, layers (applyTime (applyTime st t) t') !! li = Some l2 /\
                  keyframes l2 = keyframes l1 /\
                  forall p, props l2 p = props l1 p).
Proof.
  intros st t li l1 Hd Hl.
  assert (Hc : currentTime (applyTime st t) = Rmax 0 (Rmin (duration st) t)) by reflexivity.
  destruct (layers st !! li) as [l0|] eqn:E0.
  2:{ unfold applyTime in Hl. cbn [layers set_layers] in Hl.
      change (map ?f ?l) with (f <$> l) in Hl.
      rewrite list_lookup_fmap, E0 in Hl. discriminate. }
  rewrite (applyTime_lookup st t li l0 E0) in Hl. injection Hl as <-.
  split; [|split].
  - rewrite Hc. now apply clamp_time_bounds.
  - intros l0' E. injection E as <-.
    unfold applyTime_layer. now rewrite applyTime_fold_keyframes.
  - intros t' Ht'.
    assert (Ect : Rmax 0 (Rmin (duration (applyTime st t)) t') = Rmax 0 (Rmin (duration st) t)).
    { change (duration (applyTime st t)) with (duration st).
      destruct Ht' as [-> | ->]; [reflexivity|]. rewrite Hc.
      apply clamp_time_fixed. now apply clamp_time_bounds. }
    split.
    + change (currentTime (applyTime (applyTime st t) t'))
        with (Rmax 0 (Rmin (duration (applyTime st t)) t')).
      now rewrite Ect, Hc.
    + eexists. split.
      * exact (applyTime_lookup _ _ _ _ (applyTime_lookup _ _ _ _ E0)).
      * rewrite Ect. split.
        -- unfold applyTime_layer. now rewrite applyTime_fold_keyframes.
        -- intros p. apply applyTime_layer_idempotent.
Qed.

Lemma applyTime_idempotent_witness :
  0 <= currentTime (applyTime scenario_view 7) <= duration scenario_view.
Proof.
  refine (proj1 (applyTime_idempotent scenario_view 7 0%nat
                   (applyTime_layer (Rmax 0 (Rmin (duration scenario_view) 7)) scenario_layer)
                   _ eq_refl)).
  simpl. lra.
Defined.

(** ** Keyframe store: round trips *)

Lemma filter_insert_by_time (P : Keyframe -> Prop) `{forall k, Decision (P k)}
    (k : Keyframe) (l : list Keyframe) :
  ascending l ->
  filter P (insert_by_time k l)
  = if decide (P k) then insert_by_time k (filter P l) else filter P l.
Proof.
  induction l as [|h t IH]; intros Ha.
  - simpl. rewrite filter_cons. now destruct (decide (P k)).
  - apply ascending_cons in Ha. destruct Ha as [Hall Ha].
    simpl. destruct (Rleb (kf_time k) (kf_time h)) eqn:E.
    + apply Rleb_true in E. rewrite filter_cons.
      destruct (decide (P k)); [|reflexivity].
      assert (Hk : Forall (fun b => kf_time k <= kf_time b) (filter P (h :: t))).
      { apply Forall_forall. intros b Hb. apply list_elem_of_filter in Hb.
        destruct Hb as [_ Hb]. apply elem_of_cons in Hb. destruct Hb as [->|Hb]; [exact E|].
        rewrite Forall_forall in Hall. specialize (Hall b Hb). lra. }
      destruct (filter P (h :: t)) as [|b r]; [reflexivity|].
      simpl. apply Forall_cons in Hk. destruct Hk as [Hk _].
      now rewrite (proj2 (Rleb_true _ _) Hk).
    + rewrite !(filter_cons _ h), (IH Ha).
      destruct (decide (P h)), (decide (P k)); try reflexivity.
      simpl. now rewrite E.
Qed.

Lemma ascending_filter (P : Keyframe -> Prop) `{forall k, Decision (P k)}
    (l : list Keyframe) :
  ascending l -> ascending (filter P l).
Proof.
  induction l as [|a l IH]; intros Hs; [exact I|].
  apply ascending_cons in Hs. destruct Hs as [H1 H2].
  rewrite filter_cons. destruct (decide (P a)); [|now apply IH].
  apply ascending_cons. split; [|now apply IH].
  rewrite Forall_forall in *. intros b Hb. apply H1.
  apply list_elem_of_filter in Hb. tauto.
Qed.

(** Filtering commutes with the sort. *)
Lemma filter_sort_by_time (P : Keyframe -> Prop) `{forall k, Decision (P k)}
    (l : list Keyframe) :
  filter P (sort_by_time l) = sort_by_time (filter P l).
Proof.
  induction l as [|a l IH]; [reflexivity|].
  simpl. rewrite filter_insert_by_time by apply sort_by_time_ascending.
  rewrite filter_cons, IH. now destruct (decide (P a)).
Qed.

Lemma filter_all (P : Keyframe -> Prop) `{forall k, Decision (P k)} (l : list Keyframe) :
  Forall P l -> filter P l = l.
Proof.
  induction l as [|a l IH]; intros Hf; [reflexivity|].
  apply Forall_cons in Hf. destruct Hf as [Ha Hf].
  rewrite filter_cons. destruct (decide (P a)); [|contradiction]. now rewrite IH.
Qed.

Lemma evaluate_empty (ct : R) : evaluate [] ct = None.
Proof. reflexivity. Qed.

(** X5.  [#clearKeyframes] does nothing when the confirmation is refused;
    when it is given, the selected layer loses every track and keeps every
    property's value, at once and at whatever time is applied afterwards. *)
Theorem clearKeyframes_freezes_layer :
  forall (st : View) (i : nat) (layer : Layer),
    currentLayer st = Some (i, layer) ->
    clearKeyframes st false = st /\
    exists l' : Layer,
      layers (clearKeyframes st true) !! i = Some l' /\
      (forall p, keyframes l' p = None /\ props l' p = props layer p) /\
      forall t : R, exists l'' : Layer,
        layers (applyTime (clearKeyframes st true) t) !! i = Some l'' /\
        forall p, keyframes l'' p = None /\ props l'' p = props layer p.
Proof.
  intros st i layer Hc. unfold clearKeyframes. rewrite Hc. split; [reflexivity|].
  pose proof (lookup_lt_Some _ _ _ (currentLayer_lookup _ _ _ Hc)) as Hi.
  set (cleared := set_keyframes layer (fun _ => None)).
  set (st1 := set_layers st (<[i := cleared]> (layers st))).
  assert (H1 : layers st1 !! i = Some cleared)
    by (unfold st1; cbn [layers set_layers]; now apply list_lookup_insert_eq).
  assert (Hfrozen : forall ct p,
            keyframes (applyTime_layer ct cleared) p = None /\
            props (applyTime_layer ct cleared) p = props layer p).
  { intros ct p. split.
    - unfold applyTime_layer. now rewrite applyTime_fold_keyframes.
    - rewrite applyTime_layer_props. reflexivity. }
  eexists. split; [exact (applyTime_lookup _ _ _ _ H1)|].
  split; [intros p; apply Hfrozen|].
  intros t. eexists. split.
  - exact (applyTime_lookup _ _ _ _ (applyTime_lookup _ _ _ _ H1)).
  - intros p. split.
    + unfold applyTime_layer. now rewrite !applyTime_fold_keyframes.
    + rewrite applyTime_layer_props.
      assert (Ht : track_of (applyTime_layer
                     (Rmax 0 (Rmin (duration st1) (currentTime st))) cleared) p = []).
      { unfold track_of. now rewrite (proj1 (Hfrozen _ p)). }
      rewrite Ht, evaluate_empty. apply Hfrozen.
Qed.

Lemma clearKeyframes_freezes_layer_witness :
  clearKeyframes scenario_view false = scenario_view.
Proof.
  exact (proj1 (clearKeyframes_freezes_layer scenario_view 0%nat scenario_layer eq_refl)).
Defined.

(** ** The timeline: starting a drag *)

Lemma timeline_hit_index_spec (st : View) (tw th mx my : R) (frames : list Keyframe)
    (n i : nat) :
  timeline_hit_index st tw th mx my frames n = Some i ->
  exists (j : nat) (kf : Keyframe),
    i = (n + j)%nat /\ frames !! j = Some kf /\ timeline_hit st tw th mx my kf = true.
Proof.
  revert n. induction frames as [|kf rest IH]; intros n H; [discriminate|].
  simpl in H. destruct (timeline_hit st tw th mx my kf) eqn:E.
  - injection H as <-. exists 0%nat, kf. repeat split; auto; lia.
  - destruct (IH _ H) as (j & kf' & -> & Hj & Hh).
    exists (S j), kf'. repeat split; auto; lia.
Qed.

Lemma timeline_hit_prop_spec (st : View) (tw th mx my : R) (layer : Layer)
    (ps : list KfProp) (p : KfProp) (i : nat) :
  timeline_hit_prop st tw th mx my layer ps = Some (p, i) ->
  exists kf : Keyframe,
    In p ps /\ track_of layer p !! i = Some kf /\ timeline_hit st tw th mx my kf = true.
Proof.
  induction ps as [|q ps IH]; intros H; [discriminate|].
  simpl in H.
  destruct (timeline_hit_index st tw th mx my (track_of layer q) 0) as [j|] eqn:E.
  - injection H as <- <-.
    destruct (timeline_hit_index_spec _ _ _ _ _ _ _ _ E) as (j' & kf & -> & Hj & Hh).
    exists kf. repeat split; auto. now left.
  - destruct (IH H) as (kf & Hin & Hk & Hh). exists kf. repeat split; auto. now right.
Qed.

(** X6.  A press on the timeline either starts the drag of a sample or
    moves the time, never both.  A drag is started only on a selected layer
    that is not the background, and it names a sample that exists and is
    under the pointer; nothing else of the view changes, and the next
    [#onTimelineMove] moves exactly that sample and re-sorts its track. *)
Theorem onTimelineDown_drag_target :
  forall (st : View) (tw th mx my : R),
    dragKeyframe st = None ->
    match dragKeyframe (onTimelineDown st tw th mx my) with
    | Some (li, p, i) =>
        onTimelineDown st tw th mx my = set_dragKeyframe st (Some (li, p, i)) /\
        exists (layer : Layer) (frames : list Keyframe) (kf : Keyframe),
          currentLayer st = Some (li, layer) /\
          layer_type layer <> "background"%string /\
          keyframes layer p = Some frames /\ frames !! i = Some kf /\
          timeline_hit st tw th mx my kf = true /\
          forall mx' : R, exists layer' : Layer,
            layers (onTimelineMove (onTimelineDown st tw th mx my) mx') !! li = Some layer' /\
            track_of layer' p
            = moveKeyframe frames i (Rmax 0 (Rmin (duration st) (mx' * duration st)))
    | None => onTimelineDown st tw th mx my = applyTime st (mx * duration st)
    end.
Proof.
  intros st tw th mx my Hd. unfold onTimelineDown.
  destruct (currentLayer st) as [[li layer]|] eqn:Hc; [|cbn; now rewrite Hd].
  destruct (String.eqb (layer_type layer) "background") eqn:Eb; [cbn; now rewrite Hd|].
  cbn [negb].
  destruct (timeline_hit_prop st tw th mx my layer KF_PROPS) as [[p i]|] eqn:Eh;
    [|cbn; now rewrite Hd].
  cbn [dragKeyframe set_dragKeyframe]. split; [reflexivity|].
  destruct (timeline_hit_prop_spec _ _ _ _ _ _ _ _ _ Eh) as (kf & _ & Hk & Hh).
  unfold track_of in Hk.
  destruct (keyframes layer p) as [frames|] eqn:Ek; [|discriminate].
  exists layer, frames, kf. repeat split; auto.
  - intros E. rewrite E in Eb. discriminate.
  - intros mx'.
    apply (onTimelineMove_track (set_dragKeyframe st (Some (li, p, i))) mx' li i p layer frames);
      auto; try exact (currentLayer_lookup _ _ _ Hc); eauto.
Qed.

Lemma timeline_hit_index_none (st : View) (tw th mx my : R) (frames : list Keyframe) (n : nat) :
  (forall kf, timeline_hit st tw th mx my kf = false) ->
  timeline_hit_index st tw th mx my frames n = None.
Proof.
  intros H. revert n. induction frames as [|kf rest IH]; intros n; [reflexivity|].
  simpl. now rewrite H.
Qed.

(** A press above or below the row of the keyframe markers moves the time. *)
Lemma onTimelineDown_outside_row (st : View) (tw th mx my : R) :
  12 < Rabs (my * th - 35) ->
  onTimelineDown st tw th mx my = applyTime st (mx * duration st).
Proof.
  intros Hy.
  assert (Eh : forall kf, timeline_hit st tw th mx my kf = false).
  { intros kf. unfold timeline_hit.
    rewrite (proj2 (Rleb_false (Rabs (my * th - 35)) 12) Hy). apply andb_false_r. }
  assert (Ep : forall layer ps, timeline_hit_prop st tw th mx my layer ps = None).
  { intros layer ps. induction ps as [|q ps IH]; [reflexivity|].
    simpl. now rewrite timeline_hit_index_none. }
  unfold onTimelineDown.
  destruct (currentLayer st) as [[li layer]|]; [|reflexivity].
  rewrite Ep. now destruct (negb _).
Qed.

Lemma onTimelineDown_drag_target_witness :
  onTimelineDown scenario_view 1000 50 (1 / 2) 0 = applyTime scenario_view (1 / 2 * (81 / 16)).
Proof.
  pose proof (onTimelineDown_drag_target scenario_view 1000 50 (1 / 2) 0 eq_refl) as H.
  assert (E : onTimelineDown scenario_view 1000 50 (1 / 2) 0
              = applyTime scenario_view (1 / 2 * duration scenario_view)).
  { apply onTimelineDown_outside_row. rewrite Rabs_left by lra. lra. }
  assert (E' : dragKeyframe (onTimelineDown scenario_view 1000 50 (1 / 2) 0) = None)
    by (rewrite E; reflexivity).
  rewrite E' in H. exact H.
Defined.

(** ** Project settings *)

Local Open Scope Z_scope.

Lemma coerceInt_bounds (parsed : option Z) (fallback lo hi : Z) :
  lo <= hi -> lo <= coerceInt parsed fallback (Some lo) (Some hi) <= hi.
Proof. intros H. unfold coerceInt. lia. Qed.

Lemma coerceInt_in_range (n fallback lo hi : Z) :
  lo <= n <= hi -> coerceInt (Some n) fallback (Some lo) (Some hi) = n.
Proof. intros H. unfold coerceInt. lia. Qed.

Lemma coerceInt_setting (typed : option Z) (old lo hi : Z) :
  lo <= hi -> setting_taken typed old lo hi (coerceInt typed old (Some lo) (Some hi)).
Proof.
  intros H. unfold setting_taken, coerceInt.
  repeat split; [intros v -> Hv | intros v -> Hv | intros v -> Hv | intros -> Hv]; lia.
Qed.

(** X7.  Whatever is typed in the four project inputs, after
    [applyProjectSettings] the resolution is within 64..8192, the frame
    rate within 1..120, the frame count within 1..9999, and the duration is
    the frame count over the frame rate, positive.  For each of the four
    settings (width, height, frame rate, frame count): a value typed inside
    its range is taken as it is, one typed outside is replaced by the nearer
    bound, and an unreadable one leaves the setting as it was when that was
    in range.  The preview canvas keeps being the resolution capped at 1920
    by 1080. *)
Theorem applyProjectSettings_bounds :
  forall (pr : Project) (w h f n : option Z),
    let pr' := applyProjectSettings pr w h f n in
    (64 <= state_width pr' <= 8192 /\ 64 <= state_height pr' <= 8192 /\
     1 <= state_fps pr' <= 120 /\ 1 <= state_totalFrames pr' <= 9999) /\
    ((state_duration pr' * IZR (state_fps pr'))%R = IZR (state_totalFrames pr') /\
     (0 < state_duration pr')%R) /\
    (setting_taken w (state_width pr) 64 8192 (state_width pr') /\
     setting_taken h (state_height pr) 64 8192 (state_height pr') /\
     setting_taken f (state_fps pr) 1 120 (state_fps pr') /\
     setting_taken n (state_totalFrames pr) 1 9999 (state_totalFrames pr')) /\
    (preview_width pr = Z.min (state_width pr) 1920 ->
     preview_height pr = Z.min (state_height pr) 1080 ->
     preview_width pr' = Z.min (state_width pr') 1920 /\
     preview_height pr' = Z.min (state_height pr') 1080).
Proof.
  intros pr w h f n. cbv zeta.
  unfold applyProjectSettings, setTimelineMetrics, setResolution.
  set (W := coerceInt w (state_width pr) (Some 64) (Some 8192)).
  set (H := coerceInt h (state_height pr) (Some 64) (Some 8192)).
  assert (HW : 64 <= W <= 8192) by (apply coerceInt_bounds; lia).
  assert (HH : 64 <= H <= 8192) by (apply coerceInt_bounds; lia).
  rewrite (coerceInt_in_range W), (coerceInt_in_range H) by assumption.
  set (pr1 := if (W =? state_width pr) && (H =? state_height pr) then pr else _).
  assert (E1 : state_width pr1 = W /\ state_height pr1 = H /\
               state_fps pr1 = state_fps pr /\
               state_totalFrames pr1 = state_totalFrames pr).
  { unfold pr1. destruct ((W =? state_width pr) && (H =? state_height pr)) eqn:E; simpl; auto.
    apply andb_true_iff in E. destruct E as [Ea Eb].
    apply Z.eqb_eq in Ea, Eb. auto. }
  destruct E1 as (E1w & E1h & E1f & E1n).
  rewrite E1f, E1n.
  set (F := coerceInt f (state_fps pr) (Some 1) (Some 120)).
  set (N := coerceInt n (state_totalFrames pr) (Some 1) (Some 9999)).
  assert (HF : 1 <= F <= 120) by (apply coerceInt_bounds; lia).
  assert (HN : 1 <= N <= 9999) by (apply coerceInt_bounds; lia).
  rewrite (coerceInt_in_range F), (coerceInt_in_range N) by assumption.
  assert (EF : (if negb (F =? state_fps pr) then F else state_fps pr) = F).
  { destruct (F =? state_fps pr) eqn:E; simpl; auto. apply Z.eqb_eq in E. auto. }
  assert (EN : (if negb (N =? state_totalFrames pr) then N else state_totalFrames pr) = N).
  { destruct (N =? state_totalFrames pr) eqn:E; simpl; auto. apply Z.eqb_eq in E. auto. }
  cbn [state_width state_height state_fps state_totalFrames state_duration
       preview_width preview_height].
  rewrite EF, EN, E1w, E1h.
  split; [auto|]. split.
  - rewrite Z.max_l by lia.
    assert (0 < IZR F)%R by (apply IZR_lt; lia).
    assert (0 < IZR N)%R by (apply IZR_lt; lia).
    split; [field; lra|]. apply Rdiv_lt_0_compat; assumption.
  - split.
    + unfold W, H, F, N. repeat split; apply coerceInt_setting; lia.
    + intros Pw Ph. unfold pr1.
      destruct ((W =? state_width pr) && (H =? state_height pr)) eqn:E; simpl; auto.
      apply andb_true_iff in E. destruct E as [Ea Eb].
      apply Z.eqb_eq in Ea, Eb. rewrite Pw, Ph, Ea, Eb. auto.
Qed.

Lemma applyProjectSettings_bounds_witness :
  preview_width (applyProjectSettings (mkProject 1280 720 16 81 (81 / 16) 1280 720)
                   (Some 100000) None (Some 0) None)
  = Z.min (state_width (applyProjectSettings (mkProject 1280 720 16 81 (81 / 16) 1280 720)
                          (Some 100000) None (Some 0) None)) 1920.
Proof.
  refine (proj1 (proj2 (proj2 (proj2
            (applyProjectSettings_bounds (mkProject 1280 720 16 81 (81 / 16) 1280 720)
               (Some 100000) None (Some 0) None))) _ _)).
  - reflexivity.
  - reflexivity.
Defined.

(** ** The order of the layers *)

Lemma find_layer_id (sel : string) (ls : list Layer) (n i : nat) (l : Layer) :
  find_layer sel ls n = Some (i, l) -> layer_id l = sel.
Proof.
  revert n. induction ls as [|h t IH]; intros n H; [discriminate|].
  simpl in H. destruct (String.eqb (layer_id h) sel) eqn:E.
  - injection H as _ <-. now apply String.eqb_eq.
  - eauto.
Qed.

Lemma find_layer_unique (sel : string) (ls : list Layer) (n i : nat) (l : Layer) :
  NoDup (map layer_id ls) -> ls !! i = Some l -> layer_id l = sel ->
  find_layer sel ls n = Some ((n + i)%nat, l).
Proof.
  revert n i. induction ls as [|h t IH]; intros n i Hnd Hi Hid; [discriminate|].
  simpl in Hnd. apply NoDup_cons in Hnd. destruct Hnd as [Hh Hnd].
  simpl. destruct i as [|i].
  - simpl in Hi. injection Hi as ->. rewrite (proj2 (String.eqb_eq _ _) Hid).
    now rewrite Nat.add_0_r.
  - simpl in Hi.
    destruct (String.eqb (layer_id h) sel) eqn:E.
    + apply String.eqb_eq in E. exfalso. apply Hh. rewrite E, <- Hid.
      apply list_elem_of_fmap. exists l. split; [reflexivity|].
      eapply list_elem_of_lookup_2; eauto.
    + rewrite (IH (S n) i Hnd Hi Hid). f_equal. f_equal. lia.
Qed.

Lemma currentLayer_unique (st : View) (i : nat) (l : Layer) :
  NoDup (map layer_id (layers st)) -> layers st !! i = Some l ->
  layer_id l = selectedId st -> currentLayer st = Some (i, l).
Proof. intros. unfold currentLayer. now rewrite (find_layer_unique _ _ 0 i l). Qed.

Lemma insert_head_Permutation (t : list Layer) (j : nat) (a b : Layer) :
  t !! j = Some b -> Permutation (b :: <[j := a]> t) (a :: t).
Proof.
  revert j. induction t as [|h t IH]; intros j Hj; [discriminate|].
  destruct j as [|j]; simpl in *.
  - injection Hj as ->. apply perm_swap.
  - rewrite perm_swap. rewrite (IH j Hj). apply perm_swap.
Qed.

Lemma swap_Permutation (ls : list Layer) (i j : nat) (a b : Layer) :
  ls !! i = Some a -> ls !! j = Some b ->
  Permutation (<[j := a]> (<[i := b]> ls)) ls.
Proof.
  revert i j. induction ls as [|h t IH]; intros i j Hi Hj; [discriminate|].
  destruct i as [|i], j as [|j]; simpl in *.
  - injection Hi as ->. reflexivity.
  - injection Hi as ->. now apply insert_head_Permutation.
  - injection Hj as ->. now apply insert_head_Permutation.
  - constructor. now apply IH.
Qed.

Lemma set_layers_same (st : View) : set_layers st (layers st) = st.
Proof. now destruct st. Qed.

Lemma moveLayer_in_range (st : View) (d : Z) (idx : nat) (layer other : Layer) :
  currentLayer st = Some (idx, layer) ->
  layers st !! Z.to_nat (Z.of_nat idx + d) = Some other ->
  (0 <= Z.of_nat idx + d)%Z ->
  moveLayer st d
  = set_layers st (<[Z.to_nat (Z.of_nat idx + d) := layer]> (<[idx := other]> (layers st))).
Proof.
  intros Hc Ho Hd. unfold moveLayer. rewrite Hc.
  pose proof (lookup_lt_Some _ _ _ Ho) as Hlt.
  assert (E1 : (Z.of_nat idx + d <? 0)%Z = false) by (apply Z.ltb_ge; lia).
  assert (E2 : (Z.of_nat (length (layers st)) <=? Z.of_nat idx + d)%Z = false)
    by (apply Z.leb_gt; lia).
  now rewrite E1, E2, Ho.
Qed.

(** X8.  With distinct layer ids, the three reordering operations keep
    every layer (the new list is a permutation of the old one) and keep the
    same layer selected: [#moveLayerToTop] leaves it last, the others in
    their order before it; [#moveLayerToBottom] leaves it first; and
    [#moveLayer] puts it at the neighbouring position when there is one and
    changes nothing at the end of the list. *)
Theorem layer_reordering :
  forall (st : View) (idx : nat) (layer : Layer) (d : Z),
    NoDup (map layer_id (layers st)) ->
    currentLayer st = Some (idx, layer) ->
    (Permutation (layers (moveLayerToTop st)) (layers st) /\
     currentLayer (moveLayerToTop st) = Some ((length (layers st) - 1)%nat, layer) /\
     take (length (layers st) - 1) (layers (moveLayerToTop st)) = delete idx (layers st)) /\
    (Permutation (layers (moveLayerToBottom st)) (layers st) /\
     currentLayer (moveLayerToBottom st) = Some (0%nat, layer) /\
     drop 1 (layers (moveLayerToBottom st)) = delete idx (layers st)) /\
    (Permutation (layers (moveLayer st d)) (layers st) /\
     ((0 <= Z.of_nat idx + d < Z.of_nat (length (layers st)))%Z ->
        currentLayer (moveLayer st d) = Some (Z.to_nat (Z.of_nat idx + d), layer) /\
        layers (moveLayer st d) !! idx = layers st !! Z.to_nat (Z.of_nat idx + d)) /\
     (~ (0 <= Z.of_nat idx + d < Z.of_nat (length (layers st)))%Z -> moveLayer st d = st)).
Proof.
  intros st idx layer d Hnd Hc.
  pose proof (currentLayer_lookup _ _ _ Hc) as Hl.
  pose proof (lookup_lt_Some _ _ _ Hl) as Hlt.
  pose proof (find_layer_id _ _ _ _ _ Hc) as Hid.
  assert (Hdel : Permutation (layers st) (layer :: delete idx (layers st)))
    by (now apply delete_Permutation).
  assert (Hlen : length (delete idx (layers st)) = (length (layers st) - 1)%nat)
    by (rewrite length_delete; eauto).
  split; [|split].
  - unfold moveLayerToTop. rewrite Hc.
    destruct (Nat.eqb idx (length (layers st) - 1)) eqn:E.
    + apply Nat.eqb_eq in E. split; [reflexivity|]. split; [now rewrite <- E|].
      rewrite <- E, delete_take_drop, drop_ge by lia. now rewrite app_nil_r.
    + cbn [layers set_layers].
      assert (Hp : Permutation (delete idx (layers st) ++ [layer]) (layers st)).
      { rewrite Hdel at 2. rewrite Permutation_app_comm. reflexivity. }
      split; [exact Hp|]. split.
      * apply currentLayer_unique; cbn [layers set_layers selectedId]; auto.
        -- now rewrite Hp.
        -- rewrite <- Hlen. rewrite lookup_app_r by lia.
           now rewrite Nat.sub_diag.
      * rewrite <- Hlen. now rewrite take_app_length.
  - unfold moveLayerToBottom. rewrite Hc.
    destruct (Nat.eqb idx 0) eqn:E.
    + apply Nat.eqb_eq in E. subst idx. split; [reflexivity|]. split; [exact Hc|].
      destruct (layers st); [discriminate | reflexivity].
    + cbn [layers set_layers].
      split; [now symmetry|]. split; [|reflexivity].
      apply currentLayer_unique; cbn [layers set_layers selectedId]; auto.
      now rewrite <- Hdel.
  - destruct (decide (0 <= Z.of_nat idx + d < Z.of_nat (length (layers st)))%Z) as [Hr|Hr].
    + destruct (lookup_lt_is_Some_2 (layers st) (Z.to_nat (Z.of_nat idx + d))) as [other Ho];
        [lia|].
      rewrite (moveLayer_in_range st d idx layer other Hc Ho) by lia.
      cbn [layers set_layers].
      pose proof (swap_Permutation _ _ _ _ _ Hl Ho) as Hp.
      split; [exact Hp|]. split; [|tauto].
      intros _. split.
      * apply currentLayer_unique; cbn [layers set_layers selectedId]; auto.
        -- now rewrite Hp.
        -- apply list_lookup_insert_eq. rewrite length_insert. lia.
      * rewrite Ho. destruct (decide (Z.to_nat (Z.of_nat idx + d) = idx)) as [E|E].
        -- rewrite E in *. rewrite list_lookup_insert_eq by (rewrite length_insert; lia).
           congruence.
        -- rewrite list_lookup_insert_ne by auto. now apply list_lookup_insert_eq.
    + assert (E : moveLayer st d = st).
      { unfold moveLayer. rewrite Hc.
        destruct (Z.of_nat idx + d <? 0)%Z eqn:E1; [reflexivity|].
        destruct (Z.of_nat (length (layers st)) <=? Z.of_nat idx + d)%Z eqn:E2; [reflexivity|].
        apply Z.ltb_ge in E1. apply Z.leb_gt in E2. lia. }
      rewrite E. split; [reflexivity|]. split; [tauto | auto].
Qed.

Lemma stacked_view_ids : NoDup (map layer_id (layers stacked_view)).
Proof.
  simpl. apply NoDup_cons. split; [|apply NoDup_singleton].
  intros H. apply list_elem_of_singleton in H. discriminate.
Qed.

Lemma layer_reordering_witness :
  currentLayer (moveLayerToBottom stacked_view) = Some (0%nat, scenario_layer).
Proof.
  refine (proj1 (proj2 (proj1 (proj2
            (layer_reordering stacked_view 1%nat scenario_layer 0 _ _))))).
  - apply stacked_view_ids.
  - reflexivity.
Defined.

Lemma swap_back (ls : list Layer) (i j : nat) (a b : Layer) :
  ls !! i = Some a -> ls !! j = Some b ->
  <[i := a]> (<[j := b]> (<[j := a]> (<[i := b]> ls))) = ls.
Proof.
  intros Hi Hj.
  pose proof (lookup_lt_Some _ _ _ Hi). pose proof (lookup_lt_Some _ _ _ Hj).
  apply list_eq. intros k.
  rewrite !list_lookup_insert, !length_insert.
  repeat case_decide; subst; try congruence; try lia; intuition (try congruence; try lia).
Qed.

(** X9.  Moving the selected layer by [d] places and then by [-d] gives
    the view back, when the layer ids are distinct and the first move stays
    inside the list. *)
Theorem moveLayer_round_trip :
  forall (st : View) (idx : nat) (layer : Layer) (d : Z),
    NoDup (map layer_id (layers st)) ->
    currentLayer st = Some (idx, layer) ->
    (0 <= Z.of_nat idx + d < Z.of_nat (length (layers st)))%Z ->
    moveLayer (moveLayer st d) (- d) = st.
Proof.
  intros st idx layer d Hnd Hc Hr.
  pose proof (currentLayer_lookup _ _ _ Hc) as Hl.
  pose proof (lookup_lt_Some _ _ _ Hl) as Hlt.
  pose proof (find_layer_id _ _ _ _ _ Hc) as Hid.
  set (j := Z.to_nat (Z.of_nat idx + d)) in *.
  destruct (lookup_lt_is_Some_2 (layers st) j) as [other Ho]; [unfold j; lia|].
  rewrite (moveLayer_in_range st d idx layer other Hc Ho) by lia. fold j.
  set (ls1 := <[j := layer]> (<[idx := other]> (layers st))).
  assert (Hp : Permutation ls1 (layers st)) by (now apply swap_Permutation).
  assert (Hj1 : ls1 !! j = Some layer).
  { unfold ls1. apply list_lookup_insert_eq. rewrite length_insert. unfold j. lia. }
  assert (Hi1 : ls1 !! idx = Some other).
  { unfold ls1. destruct (decide (j = idx)) as [E|E].
    - rewrite E in *. rewrite list_lookup_insert_eq by (rewrite length_insert; lia). congruence.
    - rewrite list_lookup_insert_ne by auto. now apply list_lookup_insert_eq. }
  assert (Hc1 : currentLayer (set_layers st ls1) = Some (j, layer)).
  { apply currentLayer_unique; cbn [layers set_layers selectedId]; auto. now rewrite Hp. }
  assert (Ej : Z.to_nat (Z.of_nat j + - d) = idx) by (unfold j; lia).
  rewrite (moveLayer_in_range (set_layers st ls1) (- d) j layer other Hc1);
    cbn [layers set_layers]; rewrite ?Ej; auto; [|unfold j; lia].
  unfold ls1. rewrite (swap_back _ _ _ _ _ Hl Ho).
  now destruct st.
Qed.

Lemma moveLayer_round_trip_witness :
  moveLayer (moveLayer stacked_view (-1)) (- (-1)) = stacked_view.
Proof.
  apply (moveLayer_round_trip stacked_view 1%nat scenario_layer (-1)).
  - apply stacked_view_ids.
  - reflexivity.
  - simpl. lia.
Defined.

Lemma find_layer_existsb (sel : string) (ls : list Layer) (n : nat) :
  existsb (fun l => String.eqb (layer_id l) sel) ls = true
  <-> is_Some (find_layer sel ls n).
Proof.
  revert n. induction ls as [|h t IH]; intros n; simpl.
  - split; [discriminate | intros [x Hx]; discriminate].
  - destruct (String.eqb (layer_id h) sel); simpl; [|apply IH].
    split; eauto.
Qed.

(** X10.  [#syncLayerSelect] leaves no selection exactly when there is no
    layer; otherwise the id it leaves is the id of a layer, so that
    [#currentLayer] finds one: the old selection when a layer has it, and
    the first layer's id in every other case, that is, when the old
    selection is [null] (as in the initial state) or names no layer. *)
Theorem syncLayerSelect_selects_a_layer :
  forall (ls : list Layer) (sel : option string),
    (syncLayerSelect ls sel = None <-> ls = []) /\
    (forall s, syncLayerSelect ls sel = Some s -> is_Some (find_layer s ls 0)) /\
    (forall s, sel = Some s -> is_Some (find_layer s ls 0) ->
               syncLayerSelect ls sel = Some s) /\
    (forall first rest, ls = first :: rest ->
               (forall s, sel = Some s -> find_layer s ls 0 = None) ->
               syncLayerSelect ls sel = Some (layer_id first)).
Proof.
  intros ls sel. unfold syncLayerSelect.
  destruct ls as [|first rest].
  - repeat split; try discriminate; auto.
    intros s _ [x Hx]. discriminate.
  - set (ls := first :: rest).
    destruct sel as [s0|].
    + destruct (existsb (fun l => String.eqb (layer_id l) s0) ls) eqn:E.
      * apply (find_layer_existsb s0 ls 0) in E.
        repeat split; try discriminate; auto.
        -- intros s Hs. injection Hs as <-. exact E.
        -- intros f r _ Hn. rewrite (Hn s0 eq_refl) in E.
           destruct E; discriminate.
      * assert (Hn : ~ is_Some (find_layer s0 ls 0)).
        { intros H. apply (find_layer_existsb s0 ls 0) in H. congruence. }
        repeat split; try discriminate; auto.
        -- intros s Hs. injection Hs as <-. unfold ls. simpl.
           rewrite String.eqb_refl. eauto.
        -- intros s Hs Hsome. injection Hs as <-. contradiction.
        -- intros f r Hls _. injection Hls as <- _. reflexivity.
    + assert (E : existsb (fun _ : Layer => false) ls = false)
        by (clear; induction ls; simpl; auto).
      rewrite E. repeat split; try discriminate; auto.
      * intros s Hs. injection Hs as <-. unfold ls. simpl. rewrite String.eqb_refl. eauto.
      * intros f r Hls _. injection Hls as <- _. reflexivity.
Qed.

Lemma syncLayerSelect_selects_a_layer_witness :
  syncLayerSelect (layers stacked_view) None = Some "background"%string.
Proof.
  refine (proj2 (proj2 (proj2 (syncLayerSelect_selects_a_layer (layers stacked_view) None)))
            scenario_background [scenario_layer] _ _).
  - reflexivity.
  - intros s Hs. discriminate Hs.
Defined.

(** ** The pointer on the canvas *)

Lemma find_layer_insert (sel : string) (ls : list Layer) (n i : nat) (l l' : Layer) :
  find_layer sel ls n = Some (i, l) -> layer_id l' = layer_id l ->
  find_layer sel (<[(i - n)%nat := l']> ls) n = Some (i, l').
Proof.
  revert n. induction ls as [|h t IH]; intros n H Hid; [discriminate|].
  simpl in H. destruct (String.eqb (layer_id h) sel) eqn:E.
  - injection H as <- <-. rewrite Nat.sub_diag. simpl. now rewrite Hid, E.
  - destruct (find_layer_lookup _ _ _ _ _ H) as (j & -> & _).
    specialize (IH (S n) H Hid).
    remember (S n + j)%nat as m eqn:Em.
    replace (m - n)%nat with (S (m - S n)) by lia.
    cbn [insert list_insert find_layer]. rewrite E. exact IH.
Qed.

Local Open Scope R_scope.

Lemma bg_base_scale_pos (st : View) (bgLayer : Layer) (image : Image) :
  0 < canvas_width st -> 0 < canvas_height st ->
  0 < img_width image -> 0 < img_height image ->
  0 < bg_base_scale st bgLayer image.
Proof.
  intros Hw Hh Hiw Hih. unfold bg_base_scale. cbv zeta.
  assert (0 < canvas_width st / img_width image) by now apply Rdiv_lt_0_compat.
  assert (0 < canvas_height st / img_height image) by now apply Rdiv_lt_0_compat.
  destruct (String.eqb _ "fit").
  - now apply Rmin_glb_lt.
  - destruct (String.eqb _ "fill"); [|lra].
    eapply Rlt_le_trans; [exact H | apply Rmax_l].
Qed.

Lemma canvasToBgCoords_overlay (st : View) (bgLayer : Layer) (image : Image) (u v : R) :
  bg_base_scale st bgLayer image <> 0 ->
  canvasToBgCoords st (extract_overlay_point st bgLayer image (u, v)) bgLayer image
  = (u, img_height image / 2
        + js_or (props bgLayer p_scale_y) 1 / js_or (props bgLayer p_scale_x) 1
          * (v - img_height image / 2)).
Proof.
  intros Hb. unfold canvasToBgCoords, extract_overlay_point, transform_point. simpl.
  pose proof (js_or_1_neq_0 (props bgLayer p_scale_x)) as Hx.
  f_equal; field; now split.
Qed.

Lemma onCanvasUp_view (e : Editor) : view (onCanvasUp e) = view e.
Proof.
  unfold onCanvasUp. cbv zeta.
  destruct (extract_drawing e); simpl;
    destruct (mask_drawing e); simpl;
    destruct (currentLayer (view e)); simpl;
    destruct (path_dragging e), (path_data e); reflexivity.
Qed.

(** X11.  Releasing the button ends every gesture: whatever the editor was
    doing (painting the extraction or the mask, dragging a control point or
    a layer), after [#onCanvasUp] a move of the pointer changes nothing. *)
Theorem onCanvasUp_ends_every_gesture :
  forall (e : Editor) (pos : R * R),
    onCanvasMove (onCanvasUp e) pos = onCanvasUp e.
Proof.
  intros e pos. destruct e as [v ee ed ep md me0 mp pe pd pg dl off].
  unfold onCanvasUp, onCanvasMove. cbv zeta. simpl.
  destruct ed; simpl; destruct md; simpl;
    destruct (currentLayer v) as [[i l]|] eqn:Ec; simpl;
    destruct pg, pd; simpl; rewrite ?Ec;
    destruct (mask_enabled v); simpl; try reflexivity;
    destruct pe; reflexivity.
Qed.

Lemma onCanvasDown_plain (e : Editor) (pos : R * R) (erase : bool) (i : nat) (layer : Layer) :
  extract_enabled e = false -> mask_enabled (view e) = false -> path_enabled e = false ->
  currentLayer (view e) = Some (i, layer) ->
  onCanvasDown e pos erase
  = set_drag e true (fst pos - canvas_width (view e) / 2 - props layer p_x,
                     snd pos - canvas_height (view e) / 2 - props layer p_y).
Proof.
  intros He Hm Hp Hc. unfold onCanvasDown. cbv zeta. now rewrite He, Hm, Hp, Hc.
Qed.

Lemma onCanvasMove_plain (e : Editor) (pos : R * R) (i : nat) (layer : Layer) :
  extract_enabled e = false -> mask_enabled (view e) = false -> path_enabled e = false ->
  draggingLayer e = true -> currentLayer (view e) = Some (i, layer) ->
  onCanvasMove e pos
  = set_view e (set_layers (view e)
      (<[i := set_prop (set_prop layer p_x
                          (fst pos - canvas_width (view e) / 2 - fst (dragOffset e)))
                       p_y (snd pos - canvas_height (view e) / 2 - snd (dragOffset e))]>
         (layers (view e)))).
Proof.
  intros He Hm Hp Hd Hc. unfold onCanvasMove. cbv zeta.
  rewrite He, Hm, Hp, Hd, Hc, !Bool.andb_false_r. reflexivity.
Qed.

Lemma currentLayer_insert (v : View) (i : nat) (l l' : Layer) :
  currentLayer v = Some (i, l) -> layer_id l' = layer_id l ->
  currentLayer (set_layers v (<[i := l']> (layers v))) = Some (i, l').
Proof.
  intros Hc Hid. unfold currentLayer in *. simpl.
  pose proof (find_layer_insert _ _ 0 i l l' Hc Hid) as H.
  now rewrite Nat.sub_0_r in H.
Qed.

(** X12.  With no mode switched on, pressing on the canvas and moving
    drags the selected layer: after a move to [pos1] its position is the
    old one plus the displacement of the pointer since the press, however
    many moves came before; nothing else of the layer, no other layer and
    no keyframe changes, and the layer stays the selected one. *)
Theorem canvas_drag_moves_layer :
  forall (e : Editor) (pos0 pos1 pos2 : R * R) (erase : bool) (i : nat) (layer : Layer),
    extract_enabled e = false -> mask_enabled (view e) = false -> path_enabled e = false ->
    currentLayer (view e) = Some (i, layer) ->
    let e1 := onCanvasMove (onCanvasDown e pos0 erase) pos1 in
    let e2 := onCanvasMove e1 pos2 in
    (exists layer1,
        currentLayer (view e1) = Some (i, layer1) /\
        props layer1 p_x = props layer p_x + (fst pos1 - fst pos0) /\
        props layer1 p_y = props layer p_y + (snd pos1 - snd pos0) /\
        (forall p, p <> p_x -> p <> p_y -> props layer1 p = props layer p) /\
        keyframes layer1 = keyframes layer /\ img layer1 = img layer) /\
    (exists layer2,
        currentLayer (view e2) = Some (i, layer2) /\
        props layer2 p_x = props layer p_x + (fst pos2 - fst pos0) /\
        props layer2 p_y = props layer p_y + (snd pos2 - snd pos0)) /\
    (forall j, j <> i -> layers (view e1) !! j = layers (view e) !! j) /\
    length (layers (view e1)) = length (layers (view e)).
Proof.
  intros e pos0 pos1 pos2 erase i layer He Hm Hp Hc. cbv zeta.
  rewrite (onCanvasDown_plain e pos0 erase i layer He Hm Hp Hc).
  rewrite (onCanvasMove_plain (set_drag e true _) pos1 i layer He Hm Hp eq_refl Hc).
  cbn [view dragOffset set_drag set_view fst snd canvas_width canvas_height].
  set (layer1 := set_prop (set_prop layer p_x _) p_y _).
  assert (Hc1 : currentLayer (set_layers (view e) (<[i := layer1]> (layers (view e))))
                = Some (i, layer1)) by now apply (currentLayer_insert _ i layer).
  split; [|split; [|split]].
  - exists layer1. split; [exact Hc1|]. subst layer1. simpl.
    split; [lra|]. split; [lra|]. split; [|split; reflexivity].
    intros p Hx Hy. destruct p; simpl; try reflexivity; congruence.
  - rewrite (onCanvasMove_plain
               (set_view (set_drag e true _)
                         (set_layers (view e) (<[i := layer1]> (layers (view e)))))
               pos2 i layer1 He Hm Hp eq_refl Hc1).
    cbn [view dragOffset set_drag set_view fst snd].
    set (layer2 := set_prop (set_prop layer1 p_x _) p_y _).
    exists layer2. split.
    + pose proof (currentLayer_insert _ i layer1 layer2 Hc1 eq_refl) as H.
      exact H.
    + subst layer2 layer1. simpl. split; lra.
  - intros j Hj. simpl. now apply list_lookup_insert_ne.
  - simpl. apply length_insert.
Qed.

Lemma canvas_drag_moves_layer_witness :
  exists layer1,
    currentLayer (view (onCanvasMove (onCanvasDown (createEditor stacked_view) (10, 20) false)
                                     (15, 27)))
    = Some (1%nat, layer1) /\
    props layer1 p_x = props scenario_layer p_x + (15 - 10) /\
    props layer1 p_y = props scenario_layer p_y + (27 - 20).
Proof.
  destruct (canvas_drag_moves_layer (createEditor stacked_view) (10, 20) (15, 27) (0, 0)
              false 1%nat scenario_layer eq_refl eq_refl eq_refl eq_refl)
    as [(layer1 & Hc & Hx & Hy & _) _].
  exists layer1. split; [exact Hc | split; [exact Hx | exact Hy]].
Defined.



(** X14.  In extraction mode a press never starts a mask stroke or a layer
    drag, even with the mask mode on.  For a press on the canvas point where
    [#render] shows the point [(u, v)] of the extraction canvas over the
    background, the stroke starts at the same column [u], and at the row
    [h/2 + (scale_y || 1) / (scale_x || 1) * (v - h/2)]: the row is [v] again
    exactly when the two scales of the background agree or [v] is the middle
    row, since [#canvasToBgCoords] divides both axes by the horizontal
    scale. *)
Theorem extract_stroke_under_pointer :
  forall (e : Editor) (erase : bool) (bgLayer : Layer) (image : Image) (u v : R),
    extract_enabled e = true ->
    find_background (layers (view e)) = Some bgLayer -> img bgLayer = Some image ->
    0 < canvas_width (view e) -> 0 < canvas_height (view e) ->
    0 < img_width image -> 0 < img_height image ->
    let sx := js_or (props bgLayer p_scale_x) 1 in
    let sy := js_or (props bgLayer p_scale_y) 1 in
    let e1 := onCanvasDown e (extract_overlay_point (view e) bgLayer image (u, v)) erase in
    extract_drawing e1 = true /\
    extract_pen e1 = Some (u, img_height image / 2 + sy / sx * (v - img_height image / 2)) /\
    (extract_pen e1 = Some (u, v) <-> sy = sx \/ v = img_height image / 2) /\
    view e1 = view e /\ mask_drawing e1 = mask_drawing e /\ mask_pen e1 = mask_pen e /\
    draggingLayer e1 = draggingLayer e /\ path_dragging e1 = path_dragging e.
Proof.
  intros e erase bgLayer image u v He Hb Hi Hw Hh Hiw Hih. cbv zeta.
  pose proof (bg_base_scale_pos (view e) bgLayer image Hw Hh Hiw Hih) as Hpos.
  assert (E1 : onCanvasDown e (extract_overlay_point (view e) bgLayer image (u, v)) erase
               = set_extract_stroke e true
                   (Some (u, img_height image / 2
                             + js_or (props bgLayer p_scale_y) 1
                               / js_or (props bgLayer p_scale_x) 1
                               * (v - img_height image / 2)))).
  { unfold onCanvasDown. cbv zeta. rewrite He, Hb, Hi.
    rewrite canvasToBgCoords_overlay by lra. reflexivity. }
  rewrite E1. cbn [extract_drawing extract_pen view mask_drawing mask_pen draggingLayer
                   path_dragging set_extract_stroke].
  repeat (split; [reflexivity|]).
  split; [|repeat split; reflexivity].
  pose proof (js_or_1_neq_0 (props bgLayer p_scale_x)) as Hx.
  set (sx := js_or (props bgLayer p_scale_x) 1) in *.
  set (sy := js_or (props bgLayer p_scale_y) 1) in *.
  set (h := img_height image) in *.
  split.
  - intros H. injection H as H.
    assert (H' : (sy - sx) * (v - h / 2) = 0).
    { apply (Rmult_eq_reg_l (/ sx)); [|now apply Rinv_neq_0_compat].
      rewrite Rmult_0_r. transitivity (h / 2 + sy / sx * (v - h / 2) - v); [field; exact Hx|].
      lra. }
    apply Rmult_integral in H'. destruct H' as [H' | H']; [left | right]; lra.
  - intros [H | H]; f_equal; f_equal.
    + rewrite H. field. exact Hx.
    + rewrite H. lra.
Qed.

Lemma extract_stroke_under_pointer_witness :
  extract_pen (onCanvasDown extracting_editor
                 (extract_overlay_point masking_view scenario_background (mkImage 1000 500)
                    (30, 40)) false)
  = Some (30, 40).
Proof.
  apply (proj2 (proj1 (proj2 (proj2
           (extract_stroke_under_pointer extracting_editor false scenario_background
              (mkImage 1000 500) 30 40 eq_refl eq_refl eq_refl
              ltac:(simpl; lra) ltac:(simpl; lra) ltac:(simpl; lra) ltac:(simpl; lra)))))).
  left. reflexivity.
Defined.




(** ** The arrays of [#applyExtraction] *)

Local Open Scope Z_scope.

Lemma some_selected_spec (d : list Z) (i : Z) :
  some_selected d i = true <->
  exists k v, d !! k = Some v /\ (i + Z.of_nat k) mod 4 = 0 /\ 128 < v.
Proof.
  revert i. induction d as [|a rest IH]; intros i; simpl.
  - split; [discriminate | intros (k & v & H & _); discriminate].
  - rewrite Bool.orb_true_iff, Bool.andb_true_iff, Z.eqb_eq, Z.ltb_lt, IH. split.
    + intros [[H1 H2] | (k & v & Hk & Hm & Hv)].
      * exists 0%nat, a. rewrite Z.add_0_r. auto.
      * exists (S k), v. split; [exact Hk|]. split; [|exact Hv].
        now replace (i + Z.of_nat (S k)) with (i + 1 + Z.of_nat k) by lia.
    + intros ([|k] & v & Hk & Hm & Hv).
      * left. simpl in Hk. injection Hk as ->. rewrite Z.add_0_r in Hm. auto.
      * right. exists k, v. split; [exact Hk|]. split; [|exact Hv].
        now replace (i + 1 + Z.of_nat k) with (i + Z.of_nat (S k)) by lia.
Qed.

Lemma hasSelection_pixel (w h : Z) (extractMask : list Z) :
  Z.of_nat (length extractMask) = 4 * w * h ->
  hasSelection extractMask = true <->
  exists p, 0 <= p < w * h /\ 128 < load extractMask (4 * p).
Proof.
  intros Hlen. unfold hasSelection. rewrite some_selected_spec. split.
  - intros (k & v & Hk & Hm & Hv). exists (Z.of_nat k / 4).
    pose proof (lookup_lt_Some _ _ _ Hk) as Hlt.
    rewrite Z.add_0_l in Hm.
    assert (E : 4 * (Z.of_nat k / 4) = Z.of_nat k) by (Z.div_mod_to_equations; lia).
    split; [Z.div_mod_to_equations; nia|].
    rewrite E. unfold load. destruct (Z.of_nat k <? 0) eqn:Ek; [apply Z.ltb_lt in Ek; lia|].
    now rewrite Nat2Z.id, Hk.
  - intros (q & Hq & Hv). exists (Z.to_nat (4 * q)).
    unfold load in Hv. destruct (4 * q <? 0) eqn:Ek; [lia|].
    destruct (extractMask !! Z.to_nat (4 * q)) as [v|] eqn:El; [|simpl in Hv; lia].
    exists v. split; [reflexivity|]. split; [|exact Hv].
    rewrite Z2Nat.id by lia. rewrite Z.add_0_l, Z.mul_comm. apply Z_mod_mult.
Qed.

Lemma composite_step_length (blurred mask : list Z) (i : Z) (d : list Z) :
  length (composite_step blurred mask i d) = length d.
Proof.
  unfold composite_step. destruct (128 <? load mask i); now rewrite ?store_length.
Qed.

Lemma composite_step_frame (blurred mask : list Z) (k : Z) (d : list Z) (j : Z) :
  j / 4 <> k -> load (composite_step blurred mask (4 * k) d) j = load d j.
Proof.
  intros H. unfold composite_step.
  pose proof (block_index_neq j k 0 H). pose proof (block_index_neq j k 1 H).
  pose proof (block_index_neq j k 2 H).
  destruct (128 <? load mask (4 * k)); rewrite ?load_store_ne by lia; reflexivity.
Qed.

Lemma composite_step_own (blurred mask : list Z) (k : Z) (d d' : list Z) (j : Z) :
  length d = length d' ->
  (forall c, 0 <= c < 4 -> load d (4 * k + c) = load d' (4 * k + c)) ->
  j / 4 = k ->
  load (composite_step blurred mask (4 * k) d) j
  = load (composite_step blurred mask (4 * k) d') j.
Proof.
  intros Hlen Hblock Hj. unfold composite_step.
  destruct (block_index j) as [Ej Hc]. rewrite Hj in Ej.
  specialize (Hblock (j mod 4) Hc). rewrite <- Ej in Hblock.
  destruct (128 <? load mask (4 * k)); [|exact Hblock].
  rewrite !load_store, ?store_length, Hlen, Hblock; reflexivity.
Qed.

Lemma applyExtraction_background_pixel (bg blurred mask : list Z) (j : Z) :
  load (applyExtraction_background bg blurred mask) j
  = if decide (0 <= j / 4 < (Z.of_nat (length bg) + 3) / 4)
    then load (composite_step blurred mask (4 * (j / 4)) bg) j
    else load bg j.
Proof.
  unfold applyExtraction_background, for_step4.
  change (fold_left (fun acc k => composite_step blurred mask (4 * k) acc)
            (seqZ 0 ((Z.of_nat (length bg) + 3) / 4)) bg)
    with (fold_left (fun acc k => (fun k => composite_step blurred mask (4 * k)) k acc)
            (seqZ 0 ((Z.of_nat (length bg) + 3) / 4)) bg).
  rewrite <- (Z.sub_0_r ((Z.of_nat (length bg) + 3) / 4)) at 1.
  fold (for_range 0 ((Z.of_nat (length bg) + 3) / 4)
          (fun k => composite_step blurred mask (4 * k)) bg).
  apply (pixel_loop_load (fun k => composite_step blurred mask (4 * k))).
  - intros. apply composite_step_length.
  - intros. now apply composite_step_frame.
  - intros. now apply composite_step_own.
  - Z.div_mod_to_equations. lia.
Qed.

Lemma applyExtraction_background_length (bg blurred mask : list Z) :
  length (applyExtraction_background bg blurred mask) = length bg.
Proof.
  unfold applyExtraction_background, for_step4.
  assert (H : forall l d,
             length (fold_left (fun acc k => composite_step blurred mask (4 * k) acc) l d)
             = length d).
  { induction l as [|k l IH]; intros d; [reflexivity|].
    simpl. rewrite IH. apply composite_step_length. }
  apply H.
Qed.

(** X16.  [#applyExtraction] goes on exactly when some pixel of the
    extraction canvas has a red value over 128.  Then the array [finalData]
    it puts on the canvas of the new background has the size of the
    original; a pixel with a red value over 128 takes the three colour bytes
    of the blurred copy and keeps its own alpha; every other pixel is, byte
    for byte, the original.  The pixels replaced are exactly those where the
    cut-out array [fgData] is opaque, and there is at least one.  (The
    cut-out is resampled to the size of the preview canvas before it becomes
    the image of the new layer; the statement is about the array before
    that.) *)
Theorem applyExtraction_replaces_selected_pixels :
  forall (w h : Z) (bgData blurredData extractMask : list Z),
    0 <= w -> 0 <= h ->
    Z.of_nat (length bgData) = 4 * w * h ->
    Z.of_nat (length blurredData) = 4 * w * h ->
    Z.of_nat (length extractMask) = 4 * w * h ->
    (applyExtraction_buffers w h bgData blurredData extractMask = None <->
     forall p, 0 <= p < w * h -> load extractMask (4 * p) <= 128) /\
    forall fgData finalData,
      applyExtraction_buffers w h bgData blurredData extractMask = Some (fgData, finalData) ->
      length finalData = length bgData /\
      (exists p, 0 <= p < w * h /\ load fgData (4 * p + 3) = 255) /\
      forall p, 0 <= p < w * h ->
        load finalData (4 * p + 3) = load bgData (4 * p + 3) /\
        if 128 <? load extractMask (4 * p)
        then load fgData (4 * p + 3) = 255 /\
             load finalData (4 * p) = load blurredData (4 * p) /\
             load finalData (4 * p + 1) = load blurredData (4 * p + 1) /\
             load finalData (4 * p + 2) = load blurredData (4 * p + 2)
        else load fgData (4 * p + 3) = 0 /\
             load finalData (4 * p) = load bgData (4 * p) /\
             load finalData (4 * p + 1) = load bgData (4 * p + 1) /\
             load finalData (4 * p + 2) = load bgData (4 * p + 2).
Proof.
  intros w h bgData blurredData extractMask Hw Hh Hbg Hbl Hmask.
  pose proof (hasSelection_pixel w h extractMask Hmask) as Hsel.
  unfold applyExtraction_buffers. split.
  - destruct (hasSelection extractMask) eqn:E; simpl.
    + split; [discriminate|]. intros Hall. exfalso.
      destruct (proj1 Hsel eq_refl) as (p & Hp & Hv). specialize (Hall p Hp). lia.
    + split; [|reflexivity]. intros _ p Hp.
      destruct (Z_le_gt_dec (load extractMask (4 * p)) 128) as [|Hgt]; [assumption|].
      assert (false = true) as Habs; [|discriminate].
      apply Hsel. exists p. split; [exact Hp | lia].
  - intros fg bg H. destruct (hasSelection extractMask) eqn:E; [|discriminate].
    simpl in H. injection H as <- <-.
    assert (Hpix : forall p c, 0 <= p < w * h -> 0 <= c < 4 ->
              load (applyExtraction_background bgData blurredData extractMask) (4 * p + c)
              = load (composite_step blurredData extractMask (4 * p) bgData) (4 * p + c)).
    { intros p c Hp Hc. rewrite applyExtraction_background_pixel.
      assert (E4 : (4 * p + c) / 4 = p) by (Z.div_mod_to_equations; lia).
      rewrite E4.
      destruct (decide (0 <= p < (Z.of_nat (length bgData) + 3) / 4)) as [|N];
        [reflexivity|].
      exfalso. apply N. rewrite Hbg. Z.div_mod_to_equations. nia. }
    assert (Hfg : forall p, 0 <= p < w * h ->
              load (applyExtraction_foreground w h bgData extractMask) (4 * p + 3)
              = if 128 <? load extractMask (4 * p) then 255 else 0).
    { intros p Hp. pose proof (cutout_bytes w h bgData extractMask p Hw Hh Hbg Hp) as Hc.
      cbv zeta in Hc. unfold applyExtraction_foreground.
      destruct (128 <? load extractMask (4 * p)); tauto. }
    split; [apply applyExtraction_background_length|]. split.
    + destruct (proj1 Hsel eq_refl) as (p & Hp & Hv). exists p. split; [exact Hp|].
      rewrite Hfg by exact Hp. now rewrite (proj2 (Z.ltb_lt _ _) Hv).
    + intros p Hp. rewrite (Hfg p Hp).
      pose proof (Hpix p 0 Hp) as H0. rewrite Z.add_0_r in H0.
      rewrite H0, !Hpix by lia. clear H0 Hpix Hfg.
      unfold composite_step.
      assert (Hin : 4 * p + 3 < Z.of_nat (length bgData)) by nia.
      destruct (128 <? load extractMask (4 * p)).
      * rewrite !load_store, ?store_length.
        repeat match goal with
               | |- context [decide ?P] => destruct (decide P); try lia
               end; auto.
      * auto.
Qed.

Lemma applyExtraction_replaces_selected_pixels_witness :
  exists fg bg,
    applyExtraction_buffers 2 1 example_bgData example_blurredData example_maskData
    = Some (fg, bg) /\
    load bg 0 = 5 /\ load bg 3 = 255 /\ load bg 4 = 200.
Proof.
  exists (applyExtraction_foreground 2 1 example_bgData example_maskData),
         (applyExtraction_background example_bgData example_blurredData example_maskData).
  assert (E : applyExtraction_buffers 2 1 example_bgData example_blurredData example_maskData
              = Some (applyExtraction_foreground 2 1 example_bgData example_maskData,
                      applyExtraction_background example_bgData example_blurredData
                                                 example_maskData)) by reflexivity.
  split; [exact E|].
  destruct (proj2 (applyExtraction_replaces_selected_pixels 2 1 example_bgData
                     example_blurredData example_maskData
                     ltac:(lia) ltac:(lia) eq_refl eq_refl eq_refl) _ _ E)
    as (_ & _ & Hpix).
  pose proof (Hpix 0 ltac:(lia)) as [Ha0 H0].
  pose proof (Hpix 1 ltac:(lia)) as [_ H1].
  change (128 <? load example_maskData (4 * 0)) with true in H0.
  change (128 <? load example_maskData (4 * 1)) with false in H1.
  destruct H0 as (_ & H0 & _). destruct H1 as (_ & H1 & _).
  split; [exact H0|]. split; [exact Ha0 | exact H1].
Defined.

(** ** What the smoothing pass leaves alone *)

Lemma blur_pixel_length (w : Z) (maskData tempData : list Z) (y x : Z) (d : list Z) :
  length (blur_pixel w maskData tempData y x d) = length d.
Proof.
  unfold blur_pixel. destruct (64 <? _); [|reflexivity].
  destruct (blur_sums w tempData x y) as [[sumR sumG] sumB].
  now rewrite !store_length.
Qed.

Lemma blur_pixel_frame_other (w : Z) (maskData tempData : list Z) (y x : Z) (d : list Z)
    (j : Z) :
  j / 4 <> y * w + x -> load (blur_pixel w maskData tempData y x d) j = load d j.
Proof.
  intros Hne. unfold blur_pixel. destruct (64 <? _); [|reflexivity].
  destruct (blur_sums w tempData x y) as [[sumR sumG] sumB].
  pose proof (block_index_neq j _ 0 Hne). pose proof (block_index_neq j _ 1 Hne).
  pose proof (block_index_neq j _ 2 Hne).
  rewrite !load_store_ne by lia. reflexivity.
Qed.

Lemma blur_pass_length (w h : Z) (maskData d : list Z) :
  length (blur_pass w h maskData d) = length d.
Proof.
  unfold blur_pass.
  apply (for_range_inv 1 (h - 1) _ d (fun t => length t = length d)); [reflexivity|].
  intros y t _ Ht.
  apply (for_range_inv 1 (w - 1) _ t (fun t => length t = length d)); [exact Ht|].
  intros x t' _ Ht'. now rewrite blur_pixel_length.
Qed.

(** A byte that no interior pixel owns comes through a pass unchanged. *)
Lemma blur_pass_not_interior (w h : Z) (maskData d : list Z) (j : Z) :
  (forall y x, 1 <= y < h - 1 -> 1 <= x < w - 1 -> j / 4 <> y * w + x) ->
  load (blur_pass w h maskData d) j = load d j.
Proof.
  intros Hout. unfold blur_pass.
  apply (for_range_inv 1 (h - 1) _ d (fun t => load t j = load d j)); [reflexivity|].
  intros y t Hy Ht.
  apply (for_range_inv 1 (w - 1) _ t (fun t => load t j = load d j)); [exact Ht|].
  intros x t' Hx Ht'. rewrite blur_pixel_frame_other; [exact Ht' | now apply Hout].
Qed.

Lemma blur_pass_alpha (w h : Z) (maskData d : list Z) (j : Z) :
  j mod 4 = 3 -> load (blur_pass w h maskData d) j = load d j.
Proof.
  intros Hj. unfold blur_pass.
  apply (for_range_inv 1 (h - 1) _ d (fun t => load t j = load d j)); [reflexivity|].
  intros y t _ Ht.
  apply (for_range_inv 1 (w - 1) _ t (fun t => load t j = load d j)); [exact Ht|].
  intros x t' _ Ht'. now rewrite blur_pixel_alpha.
Qed.

Lemma pixel_coordinates_unique (w x y x0 y0 : Z) :
  0 <= x < w -> 0 <= x0 < w -> y * w + x = y0 * w + x0 -> y = y0 /\ x = x0.
Proof.
  intros Hx Hx0 E.
  assert (Hy : y = y0).
  { destruct (Z.lt_trichotomy y y0) as [H | [H | H]]; [exfalso|exact H|exfalso]; nia. }
  subst y0. split; [reflexivity | lia].
Qed.

(** X17.  [applyGaussianBlur], whatever the mask and the number of
    iterations, keeps the size of the raster, never writes an alpha byte,
    and never writes a pixel of the first or last row or column (the loops
    run from 1 to the size minus 2): a raster less than three pixels wide or
    high comes back as it was. *)
Theorem applyGaussianBlur_leaves_border_and_alpha :
  forall (w h : Z) (source maskData : list Z) (iterations : Z),
    let result := applyGaussianBlur w h source maskData iterations in
    length result = length source /\
    (forall j, j mod 4 = 3 -> load result j = load source j) /\
    (forall x y c, 0 <= x < w -> 0 <= c < 4 ->
       x = 0 \/ x = w - 1 \/ y <= 0 \/ h - 1 <= y ->
       load result ((y * w + x) * 4 + c) = load source ((y * w + x) * 4 + c)) /\
    (w <= 2 \/ h <= 2 -> result = source).
Proof.
  intros w h source maskData iterations. cbv zeta. unfold applyGaussianBlur.
  split; [|split; [|split]].
  - apply (for_range_inv 0 iterations _ source (fun t => length t = length source));
      [reflexivity|].
    intros i t _ Ht. now rewrite blur_pass_length.
  - intros j Hj.
    apply (for_range_inv 0 iterations _ source (fun t => load t j = load source j));
      [reflexivity|].
    intros i t _ Ht. now rewrite blur_pass_alpha.
  - intros x y c Hx Hc Hborder.
    apply (for_range_inv 0 iterations _ source
             (fun t => load t ((y * w + x) * 4 + c) = load source ((y * w + x) * 4 + c)));
      [reflexivity|].
    intros i t _ Ht. rewrite blur_pass_not_interior; [exact Ht|].
    intros y1 x1 Hy1 Hx1 E.
    replace (((y * w + x) * 4 + c) / 4) with (y * w + x) in E
      by (Z.div_mod_to_equations; lia).
    destruct (pixel_coordinates_unique w x y x1 y1 Hx ltac:(lia) E) as [-> ->]. lia.
  - intros Hsmall.
    apply (for_range_inv 0 iterations _ source (fun t => t = source)); [reflexivity|].
    intros i t _ ->. unfold blur_pass.
    destruct Hsmall as [Hs | Hs].
    + apply (for_range_inv 1 (h - 1) _ source (fun t => t = source)); [reflexivity|].
      intros y t _ ->. apply for_range_nil. lia.
    + apply for_range_nil. lia.
Qed.

Lemma applyGaussianBlur_leaves_border_and_alpha_witness :
  load (applyGaussianBlur 3 3 soft_edge_bgData soft_edge_maskData 5) ((1 * 3 + 0) * 4 + 1)
  = load soft_edge_bgData ((1 * 3 + 0) * 4 + 1).
Proof.
  apply (proj1 (proj2 (proj2
           (applyGaussianBlur_leaves_border_and_alpha 3 3 soft_edge_bgData
              soft_edge_maskData 5))) 0 1 1); [lia | lia | left; reflexivity].
Defined.

(** ** The smoothing pass on a flat picture *)

Lemma store_load_same (d : list Z) (i : Z) : store d i (load d i) = d.
Proof.
  apply load_ext; [apply store_length|].
  intros j. rewrite load_store.
  destruct (decide (i = j /\ 0 <= i < Z.of_nat (length d))) as [[-> _]|]; reflexivity.
Qed.

Lemma to_uint8_clamped_exact (v : Z) : 0 <= v <= 255 -> to_uint8_clamped (16 * v) 16 = v.
Proof.
  intros Hv. unfold to_uint8_clamped, round_half_even_div. cbv zeta.
  replace (16 * v) with (v * 16) by lia.
  rewrite Z_mod_mult, Z_div_mult by lia. simpl. lia.
Qed.

Lemma blur_sums_unfold (w : Z) (d : list Z) (x y : Z) :
  blur_sums w d x y =
  blur_sample w d x y 1 1 (blur_sample w d x y 1 0 (blur_sample w d x y 1 (-1)
  (blur_sample w d x y 0 1 (blur_sample w d x y 0 0 (blur_sample w d x y 0 (-1)
  (blur_sample w d x y (-1) 1 (blur_sample w d x y (-1) 0 (blur_sample w d x y (-1) (-1)
     (0, 0, 0))))))))).
Proof. reflexivity. Qed.

Lemma blur_sample_flat (w h : Z) (d : list Z) (r g b x y ky kx : Z) (acc : Z * Z * Z) :
  (forall p, 0 <= p < w * h ->
     load d (4 * p) = r /\ load d (4 * p + 1) = g /\ load d (4 * p + 2) = b) ->
  1 <= y < h - 1 -> 1 <= x < w - 1 -> -1 <= ky <= 1 -> -1 <= kx <= 1 ->
  blur_sample w d x y ky kx acc
  = (fst (fst acc) + r * kernel_at (ky + 1) (kx + 1),
     snd (fst acc) + g * kernel_at (ky + 1) (kx + 1),
     snd acc + b * kernel_at (ky + 1) (kx + 1)).
Proof.
  intros Hflat Hy Hx Hky Hkx. destruct acc as [[a1 a2] a3]. unfold blur_sample. cbv zeta.
  replace (((y + ky) * w + (x + kx)) * 4) with (4 * ((y + ky) * w + (x + kx))) by lia.
  destruct (Hflat ((y + ky) * w + (x + kx))) as (-> & -> & ->); [nia | reflexivity].
Qed.

Lemma blur_pixel_flat (w h : Z) (maskData d : list Z) (r g b y x : Z) :
  0 <= r <= 255 -> 0 <= g <= 255 -> 0 <= b <= 255 ->
  (forall p, 0 <= p < w * h ->
     load d (4 * p) = r /\ load d (4 * p + 1) = g /\ load d (4 * p + 2) = b) ->
  1 <= y < h - 1 -> 1 <= x < w - 1 ->
  blur_pixel w maskData d y x d = d.
Proof.
  intros Hr Hg Hb Hflat Hy Hx. unfold blur_pixel. cbv zeta.
  destruct (64 <? _); [|reflexivity].
  rewrite blur_sums_unfold.
  rewrite !(blur_sample_flat w h d r g b x y) by (auto; lia).
  cbn [fst snd]. change (-1 + 1) with 0. change (0 + 1) with 1. change (1 + 1) with 2.
  change (kernel_at 0 0) with 1. change (kernel_at 0 1) with 2. change (kernel_at 0 2) with 1.
  change (kernel_at 1 0) with 2. change (kernel_at 1 1) with 4. change (kernel_at 1 2) with 2.
  change (kernel_at 2 0) with 1. change (kernel_at 2 1) with 2. change (kernel_at 2 2) with 1.
  replace (0 + r * 1 + r * 2 + r * 1 + r * 2 + r * 4 + r * 2 + r * 1 + r * 2 + r * 1)
    with (16 * r) by lia.
  replace (0 + g * 1 + g * 2 + g * 1 + g * 2 + g * 4 + g * 2 + g * 1 + g * 2 + g * 1)
    with (16 * g) by lia.
  replace (0 + b * 1 + b * 2 + b * 1 + b * 2 + b * 4 + b * 2 + b * 1 + b * 2 + b * 1)
    with (16 * b) by lia.
  unfold kernelSum. rewrite !to_uint8_clamped_exact by assumption.
  replace ((y * w + x) * 4) with (4 * (y * w + x)) by lia.
  destruct (Hflat (y * w + x)) as (Er & Eg & Eb); [nia|].
  rewrite <- Er at 1. rewrite store_load_same.
  rewrite <- Eg at 1. rewrite store_load_same.
  rewrite <- Eb at 1. apply store_load_same.
Qed.

(** X18.  The kernel of [applyGaussianBlur] sums to [kernelSum]: a raster
    of one colour (alpha apart) is a fixed point of the smoothing pass,
    under any mask and for any number of iterations. *)
Theorem applyGaussianBlur_flat_raster :
  forall (w h : Z) (source maskData : list Z) (iterations r g b : Z),
    0 <= r <= 255 -> 0 <= g <= 255 -> 0 <= b <= 255 ->
    (forall p, 0 <= p < w * h ->
       load source (4 * p) = r /\ load source (4 * p + 1) = g /\
       load source (4 * p + 2) = b) ->
    applyGaussianBlur w h source maskData iterations = source.
Proof.
  intros w h source maskData iterations r g b Hr Hg Hb Hflat. unfold applyGaussianBlur.
  apply (for_range_inv 0 iterations _ source (fun t => t = source)); [reflexivity|].
  intros i t _ ->. unfold blur_pass.
  apply (for_range_inv 1 (h - 1) _ source (fun t => t = source)); [reflexivity|].
  intros y t Hy ->.
  apply (for_range_inv 1 (w - 1) _ source (fun t => t = source)); [reflexivity|].
  intros x t Hx ->. now apply (blur_pixel_flat w h maskData source r g b).
Qed.

Lemma applyGaussianBlur_flat_raster_witness :
  applyGaussianBlur 3 3 flat_bgData soft_edge_maskData 5 = flat_bgData.
Proof.
  apply (applyGaussianBlur_flat_raster 3 3 flat_bgData soft_edge_maskData 5 7 8 9);
    [lia | lia | lia |].
  intros p Hp.
  assert (Hcases : p = 0 \/ p = 1 \/ p = 2 \/ p = 3 \/ p = 4 \/ p = 5 \/ p = 6 \/ p = 7
                   \/ p = 8) by lia.
  repeat (destruct Hcases as [-> | Hcases]; [repeat split; reflexivity|]).
  subst p. repeat split; reflexivity.
Defined.

(** ** How far the jitter reaches *)

Lemma js_round_within (v : R) (a : Z) :
  (- IZR a <= v <= IZR a)%R -> - a <= js_round v <= a.
Proof.
  intros Hv. unfold js_round.
  pose proof (Zfloor_bound (v + / 2)) as [Hlo Hhi].
  split.
  - apply Zfloor_lub. rewrite opp_IZR. lra.
  - apply Z.lt_succ_r. apply lt_IZR. rewrite succ_IZR. lra.
Qed.

Lemma jitter_offset_within (amount : Z) (u1 u2 : R) :
  0 <= amount -> (0 <= u2 < 1)%R ->
  - amount <= fst (jitter_offset amount u1 u2) <= amount /\
  - amount <= snd (jitter_offset amount u1 u2) <= amount.
Proof.
  intros Ha Hu. unfold jitter_offset. cbn [fst snd].
  pose proof (COS_bound (u1 * PI * 2)) as Hc.
  pose proof (SIN_bound (u1 * PI * 2)) as Hs.
  apply IZR_le in Ha.
  set (a := IZR amount) in *.
  assert (Hm : (0 <= a * u2 <= a)%R) by nra.
  split; apply js_round_within; fold a.
  - set (c := cos _) in *. replace (c * a * u2)%R with (c * (a * u2))%R by ring.
    set (m := (a * u2)%R) in *. split; nra.
  - set (s := sin _) in *. replace (s * a * u2)%R with (s * (a * u2))%R by ring.
    set (m := (a * u2)%R) in *. split; nra.
Qed.

(** X19.  After the jitter slider has been moved, whatever it reads, the
    amount lies within 1..10; and with draws of [Math.random] in [0, 1),
    [#applyMaskJitter] then takes every pixel of the mask from a pixel of
    the old mask at most that amount away along each axis. *)
Theorem applyMaskJitter_reach :
  forall (st : View) (value : option Z) (rand : nat -> R) (n : nat),
    mask_enabled st = true ->
    0 < width (maskCanvas st) -> 0 < height (maskCanvas st) ->
    (forall k, (0 <= rand k < 1)%R) ->
    let w := width (maskCanvas st) in
    let h := height (maskCanvas st) in
    let st1 := onMaskJitterInput st value in
    let st2 := applyMaskJitter st1 rand n in
    1 <= jitter_amount st1 <= 10 /\
    forall x y, 0 <= x < w -> 0 <= y < h ->
      exists sx sy,
        0 <= sx < w /\ 0 <= sy < h /\
        Z.abs (sx - x) <= jitter_amount st1 /\ Z.abs (sy - y) <= jitter_amount st1 /\
        forall c, 0 <= c < 4 ->
          load (data (maskCanvas st2)) ((y * w + x) * 4 + c)
          = load (data (maskCanvas st)) ((sy * w + sx) * 4 + c).
Proof.
  intros st value rand n He Hw Hh Hrand. cbv zeta.
  assert (Ha : 1 <= jitter_amount (onMaskJitterInput st value) <= 10).
  { unfold onMaskJitterInput. cbn [jitter_amount set_jitter_amount].
    apply coerceInt_bounds. lia. }
  split; [exact Ha|].
  intros x y Hx Hy.
  rewrite (applyMaskJitter_enabled (onMaskJitterInput st value) rand n He Hw Hh).
  set (a := jitter_amount (onMaskJitterInput st value)) in *.
  cbn [maskCanvas set_maskCanvas data onMaskJitterInput set_jitter_amount].
  set (w := width (maskCanvas st)) in *. set (h := height (maskCanvas st)) in *.
  set (k := Z.to_nat (y * w + x)).
  assert (Ha0 : 0 <= a) by lia.
  destruct (jitter_offset_within a (rand (n + 2 * k)%nat) (rand (S (n + 2 * k)))
              Ha0 (Hrand _)) as [Hox Hoy].
  exists (fst (jitter_source w h a rand n x y)), (snd (jitter_source w h a rand n x y)).
  assert (Es : jitter_source w h a rand n x y
               = (Z.min (w - 1) (Z.max 0 (x + fst (jitter_offset a (rand (n + 2 * k)%nat)
                                                     (rand (S (n + 2 * k)))))),
                  Z.min (h - 1) (Z.max 0 (y + snd (jitter_offset a (rand (n + 2 * k)%nat)
                                                     (rand (S (n + 2 * k)))))))).
  { unfold jitter_source. cbv zeta. fold k.
    now destruct (jitter_offset a (rand (n + 2 * k)%nat) (rand (S (n + 2 * k)))). }
  rewrite Es. cbn [fst snd].
  split; [lia|]. split; [lia|]. split; [lia|]. split; [lia|].
  intros c Hc.
  rewrite (jitter_bytes w h a _ rand n x y c Hw Hh Hx Hy Hc). cbv zeta.
  rewrite Es. reflexivity.
Qed.

Lemma applyMaskJitter_reach_witness :
  1 <= jitter_amount (onMaskJitterInput jitter_view (Some 25)) <= 10.
Proof.
  refine (proj1 (applyMaskJitter_reach jitter_view (Some 25) jitter_draws 0
                   eq_refl ltac:(simpl; lia) ltac:(simpl; lia) _)).
  intros k. unfold jitter_draws. destruct (Nat.even k); lra.
Defined.

(** ** The bezier path *)

Local Open Scope R_scope.

Lemma point_at_in_range (points : list (R * R)) (i : Z) :
  (0 <= i < Z.of_nat (length points))%Z ->
  exists q, point_at points i = Some q /\ q ∈ points.
Proof.
  intros Hi. unfold point_at.
  destruct (i <? 0)%Z eqn:E; [apply Z.ltb_lt in E; lia|].
  destruct (lookup_lt_is_Some_2 points (Z.to_nat i) ltac:(lia)) as [q Hq].
  exists q. split; [exact Hq | eapply list_elem_of_lookup_2; eauto].
Qed.

Lemma Zfloor_range (x : R) (n : Z) :
  0 <= x <= IZR n -> (0 <= Zfloor x <= n)%Z.
Proof.
  intros [H0 Hn]. pose proof (Zfloor_bound x) as [Hlo Hhi]. split.
  - apply Zfloor_lub. exact H0.
  - apply le_IZR. lra.
Qed.

Lemma bernstein_hull (lo hi a b c d u : R) :
  0 <= u <= 1 -> lo <= a <= hi -> lo <= b <= hi -> lo <= c <= hi -> lo <= d <= hi ->
  lo <= (1 - u) * (1 - u) * (1 - u) * a + 3 * ((1 - u) * (1 - u)) * u * b
        + 3 * (1 - u) * (u * u) * c + u * u * u * d <= hi.
Proof.
  intros Hu Ha Hb Hc Hd.
  set (w0 := (1 - u) * (1 - u) * (1 - u)).
  set (w1 := 3 * ((1 - u) * (1 - u)) * u).
  set (w2 := 3 * (1 - u) * (u * u)).
  set (w3 := u * u * u).
  assert (H0 : 0 <= w0) by (unfold w0; repeat apply Rmult_le_pos; lra).
  assert (H1 : 0 <= w1) by (unfold w1; repeat apply Rmult_le_pos; lra).
  assert (H2 : 0 <= w2) by (unfold w2; repeat apply Rmult_le_pos; lra).
  assert (H3 : 0 <= w3) by (unfold w3; repeat apply Rmult_le_pos; lra).
  assert (Hs : w0 + w1 + w2 + w3 = 1) by (unfold w0, w1, w2, w3; ring).
  split.
  - assert (0 <= w0 * (a - lo) + w1 * (b - lo) + w2 * (c - lo) + w3 * (d - lo)).
    { repeat apply Rplus_le_le_0_compat; apply Rmult_le_pos; lra. }
    nra.
  - assert (0 <= w0 * (hi - a) + w1 * (hi - b) + w2 * (hi - c) + w3 * (hi - d)).
    { repeat apply Rplus_le_le_0_compat; apply Rmult_le_pos; lra. }
    nra.
Qed.

Lemma segment_hull (lo hi a b u : R) :
  0 <= u <= 1 -> lo <= a <= hi -> lo <= b <= hi -> lo <= a + (b - a) * u <= hi.
Proof. intros Hu Ha Hb. split; nra. Qed.

Lemma getBezierPoint_hull (points : list (R * R)) (t : R) :
  points <> [] -> 0 <= t <= 1 ->
  exists pt, getBezierPoint points t = Some pt /\
    forall lox hix loy hiy : R,
      (forall q, q ∈ points -> lox <= fst q <= hix /\ loy <= snd q <= hiy) ->
      lox <= fst pt <= hix /\ loy <= snd pt <= hiy.
Proof.
  intros Hne Ht. unfold getBezierPoint. cbv zeta.
  set (len := Z.of_nat (length points)).
  assert (Hlen : (1 <= len)%Z).
  { unfold len. destruct points; [congruence | simpl; lia]. }
  destruct (len <? 4)%Z eqn:E.
  - apply Z.ltb_lt in E.
    set (idx := t * IZR (len - 1)).
    assert (Hidx : 0 <= idx <= IZR (len - 1)).
    { assert (0 <= IZR (len - 1)) by (apply IZR_le; lia). unfold idx. split; nra. }
    pose proof (Zfloor_range idx (len - 1) Hidx) as Hi1.
    pose proof (Zfloor_bound idx) as Hfl.
    destruct (point_at_in_range points (Zfloor idx)) as (q1 & -> & Hq1); [fold len; lia|].
    destruct (point_at_in_range points (Z.min (Zfloor idx + 1) (len - 1)))
      as (q2 & -> & Hq2); [fold len; lia|].
    eexists. split; [reflexivity|]. intros lox hix loy hiy Hbox. cbn [fst snd].
    destruct (Hbox q1 Hq1), (Hbox q2 Hq2).
    split; apply segment_hull; auto; lra.
  - apply Z.ltb_ge in E.
    set (numSegments := ((len - 1) / 3)%Z).
    assert (Hns : (1 <= numSegments /\ 3 * numSegments <= len - 1)%Z)
      by (unfold numSegments; Z.div_mod_to_equations; lia).
    set (segmentT := t * IZR numSegments).
    assert (HsT : 0 <= segmentT <= IZR numSegments).
    { assert (1 <= IZR numSegments) by (apply IZR_le; lia). unfold segmentT. split; nra. }
    pose proof (Zfloor_range segmentT numSegments HsT) as Hfl.
    pose proof (Zfloor_bound segmentT) as Hfb.
    set (segmentIdx := Z.min (Zfloor segmentT) (numSegments - 1)).
    assert (Hsi : (0 <= segmentIdx <= numSegments - 1)%Z) by (unfold segmentIdx; lia).
    assert (HlT : 0 <= segmentT - IZR segmentIdx <= 1).
    { unfold segmentIdx.
      destruct (Z.min_spec (Zfloor segmentT) (numSegments - 1)) as [[_ ->] | [Hge ->]].
      - lra.
      - apply IZR_le in Hge. rewrite minus_IZR in *. lra. }
    destruct (point_at_in_range points (segmentIdx * 3)) as (q0 & -> & Hq0); [fold len; lia|].
    destruct (point_at_in_range points (segmentIdx * 3 + 1)) as (q1 & -> & Hq1);
      [fold len; lia|].
    destruct (point_at_in_range points (segmentIdx * 3 + 2)) as (q2 & -> & Hq2);
      [fold len; lia|].
    destruct (point_at_in_range points (segmentIdx * 3 + 3)) as (q3 & -> & Hq3);
      [fold len; lia|].
    eexists. split; [reflexivity|]. intros lox hix loy hiy Hbox. cbn [fst snd].
    destruct (Hbox q0 Hq0), (Hbox q1 Hq1), (Hbox q2 Hq2), (Hbox q3 Hq3).
    split; apply bernstein_hull; auto.
Qed.

Lemma getBezierPoint_start (points : list (R * R)) (first : R * R) :
  head points = Some first -> getBezierPoint points 0 = Some first.
Proof.
  intros Hh. destruct points as [|q rest]; [discriminate|]. injection Hh as ->.
  unfold getBezierPoint. cbv zeta.
  set (len := Z.of_nat (length (first :: rest))).
  assert (Hlen : (1 <= len)%Z) by (unfold len; simpl; lia).
  rewrite !Rmult_0_l.
  assert (Hz : Zfloor 0 = 0%Z) by (apply Zfloor_eq; simpl; lra).
  rewrite Hz.
  destruct (len <? 4)%Z eqn:E.
  - change (point_at (first :: rest) 0) with (Some first).
    destruct (point_at (first :: rest) (Z.min (0 + 1) (len - 1))) as [q2|] eqn:E2.
    + f_equal. destruct first; cbn [fst snd]. f_equal; simpl; ring.
    + exfalso. apply Z.ltb_lt in E.
      destruct (point_at_in_range (first :: rest) (Z.min (0 + 1) (len - 1)))
        as (q & Hq & _); [fold len; lia | congruence].
  - apply Z.ltb_ge in E.
    assert (Hns : (1 <= (len - 1) / 3 /\ 3 * ((len - 1) / 3) <= len - 1)%Z)
      by (Z.div_mod_to_equations; lia).
    rewrite Z.min_l by lia.
    change (point_at (first :: rest) (0 * 3)) with (Some first).
    destruct (point_at_in_range (first :: rest) (0 * 3 + 1)) as (q1 & -> & _);
      [fold len; lia|].
    destruct (point_at_in_range (first :: rest) (0 * 3 + 2)) as (q2 & -> & _);
      [fold len; lia|].
    destruct (point_at_in_range (first :: rest) (0 * 3 + 3)) as (q3 & -> & _);
      [fold len; lia|].
    f_equal. destruct first; cbn [fst snd]. f_equal; simpl; ring.
Qed.

Lemma strictly_ascending_by_index (l : list Keyframe) :
  (forall k a b, l !! k = Some a -> l !! S k = Some b -> kf_time a < kf_time b) ->
  strictly_ascending l.
Proof.
  induction l as [|a rest IH]; intros H; [exact I|].
  destruct rest as [|b rest']; [exact I|].
  split.
  - apply (H 0%nat a b); reflexivity.
  - apply IH. intros k x y Hx Hy. apply (H (S k) x y); assumption.
Qed.

(** The two tracks after [k] turns of the loop of [#applyPathToKeyframes]. *)
Lemma path_samples_loop (points : list (R * R)) (dur cx cy : R) (segments k : Z) :
  points <> [] -> (2 <= segments)%Z -> (0 <= k <= segments + 1)%Z ->
  exists xs ys,
    for_range 0 k (path_sample_step points dur cx cy segments) ([], [], false)
    = (xs, ys, false) /\
    length xs = Z.to_nat k /\ length ys = Z.to_nat k /\
    forall j : nat, (j < Z.to_nat k)%nat ->
      exists pt,
        getBezierPoint points (IZR (Z.of_nat j) / IZR segments) = Some pt /\
        xs !! j = Some (mkKeyframe (IZR (Z.of_nat j) / IZR segments * dur) (fst pt - cx)) /\
        ys !! j = Some (mkKeyframe (IZR (Z.of_nat j) / IZR segments * dur) (snd pt - cy)).
Proof.
  intros Hne Hseg [Hk0 Hk].
  pose (P := fun (k : Z) (s : list Keyframe * list Keyframe * bool) =>
    (k <= segments + 1)%Z ->
    exists xs ys,
      s = (xs, ys, false) /\
      length xs = Z.to_nat k /\ length ys = Z.to_nat k /\
      forall j : nat, (j < Z.to_nat k)%nat ->
        exists pt,
          getBezierPoint points (IZR (Z.of_nat j) / IZR segments) = Some pt /\
          xs !! j = Some (mkKeyframe (IZR (Z.of_nat j) / IZR segments * dur) (fst pt - cx)) /\
          ys !! j = Some (mkKeyframe (IZR (Z.of_nat j) / IZR segments * dur) (snd pt - cy))).
  assert (H : P k (for_range 0 k (path_sample_step points dur cx cy segments)
                     ([], [], false))); [|exact (H Hk)].
  apply (for_range_rect 0 _ _ P); [| |exact Hk0]; unfold P; clear P.
  - intros _. exists [], []. repeat split; try reflexivity. intros j Hj. simpl in Hj. lia.
  - intros hi Hhi IH Hle.
    destruct (IH ltac:(lia)) as (xs & ys & -> & Hlx & Hly & Hs). clear IH.
    unfold path_sample_step.
    assert (Ht : 0 <= IZR hi / IZR segments <= 1).
    { assert (0 < IZR segments) by (apply IZR_lt; lia).
      assert (0 <= IZR hi) by (apply IZR_le; lia).
      assert (IZR hi <= IZR segments) by (apply IZR_le; lia).
      split.
      - apply Rmult_le_pos; [assumption | left; now apply Rinv_0_lt_compat].
      - apply (Rmult_le_reg_r (IZR segments)); [assumption|].
        unfold Rdiv. rewrite Rmult_assoc, Rinv_l by lra. lra. }
    destruct (getBezierPoint_hull points (IZR hi / IZR segments) Hne Ht) as (pt & Hpt & _).
    rewrite Hpt.
    exists (xs ++ [mkKeyframe (IZR hi / IZR segments * dur) (fst pt - cx)]),
           (ys ++ [mkKeyframe (IZR hi / IZR segments * dur) (snd pt - cy)]).
    split; [reflexivity|].
    rewrite !length_app, Hlx, Hly. cbn [length].
    split; [lia|]. split; [lia|].
    intros j Hj.
    destruct (decide (j < Z.to_nat hi)%nat) as [Hlt | Hge].
    + destruct (Hs j Hlt) as (q & Hq & Hxj & Hyj). exists q.
      split; [exact Hq|].
      rewrite !lookup_app_l by lia. auto.
    + assert (Ej : j = Z.to_nat hi) by lia.
      exists pt. rewrite Ej, Z2Nat.id by lia.
      split; [exact Hpt|].
      rewrite (list_lookup_middle xs [] _ (Z.to_nat hi)) by (symmetry; exact Hlx).
      rewrite (list_lookup_middle ys [] _ (Z.to_nat hi)) by (symmetry; exact Hly).
      auto.
Qed.

Lemma Zfloor_IZR_id (n : Z) : Zfloor (IZR n) = n.
Proof. apply Zfloor_eq. lra. Qed.

(** The index of the control point where the curve ends. *)
Lemma getBezierPoint_end (points : list (R * R)) :
  points <> [] ->
  let len := Z.of_nat (length points) in
  getBezierPoint points 1
  = point_at points (if (len <? 4)%Z then len - 1 else 3 * ((len - 1) / 3))%Z.
Proof.
  intros Hne. cbv zeta. unfold getBezierPoint. cbv zeta.
  set (len := Z.of_nat (length points)).
  assert (Hlen : (1 <= len)%Z).
  { unfold len. destruct points; [congruence | simpl; lia]. }
  rewrite !Rmult_1_l, !Zfloor_IZR_id.
  destruct (len <? 4)%Z eqn:E.
  - apply Z.ltb_lt in E. rewrite Z.min_r by lia.
    destruct (point_at_in_range points (len - 1)) as (q & -> & _); [fold len; lia|].
    f_equal. destruct q; cbn [fst snd]. f_equal; ring.
  - apply Z.ltb_ge in E.
    assert (Hns : (1 <= (len - 1) / 3 /\ 3 * ((len - 1) / 3) <= len - 1)%Z)
      by (Z.div_mod_to_equations; lia).
    set (numSegments := ((len - 1) / 3)%Z) in *.
    rewrite Z.min_r by lia.
    destruct (point_at_in_range points ((numSegments - 1) * 3)) as (q0 & -> & _);
      [fold len; lia|].
    destruct (point_at_in_range points ((numSegments - 1) * 3 + 1)) as (q1 & -> & _);
      [fold len; lia|].
    destruct (point_at_in_range points ((numSegments - 1) * 3 + 2)) as (q2 & -> & _);
      [fold len; lia|].
    replace ((numSegments - 1) * 3 + 3)%Z with (3 * numSegments)%Z by lia.
    destruct (point_at_in_range points (3 * numSegments)) as (q3 & -> & _);
      [fold len; lia|].
    f_equal. rewrite minus_IZR. destruct q3; cbn [fst snd]. f_equal; ring.
Qed.

(** X20.  [#applyPathToKeyframes] with a path of at least one control
    point, a count of at least 2 and a positive duration never throws.  It
    replaces the [x] and [y] tracks of the selected layer, and those only,
    by [segments + 1] samples each; sample [k] is at the time
    [k / segments * duration], so both tracks are strictly ascending, from 0
    to the duration; every sample lies in the bounding box of the control
    points (moved by the canvas centre); the first one is the first control
    point, the last one the control point where the last whole segment ends
    (the last control point when there are [3 m + 1] of them, or fewer
    than 4). *)
Theorem applyPathToKeyframes_samples :
  forall (e : Editor) (segments : Z) (i : nat) (layer : Layer) (points : list (R * R))
         (first : R * R),
    currentLayer (view e) = Some (i, layer) ->
    path_data e = Some points -> head points = Some first ->
    (2 <= segments)%Z -> 0 < duration (view e) ->
    let cx := canvas_width (view e) / 2 in
    let cy := canvas_height (view e) / 2 in
    let len := Z.of_nat (length points) in
    exists e' layer' xs ys endp,
      applyPathToKeyframes e (Some segments) = Returned e' /\
      layers (view e') !! i = Some layer' /\
      keyframes layer' p_x = Some xs /\ keyframes layer' p_y = Some ys /\
      (forall p, p <> p_x -> p <> p_y -> keyframes layer' p = keyframes layer p) /\
      length xs = Z.to_nat (segments + 1) /\ length ys = Z.to_nat (segments + 1) /\
      strictly_ascending xs /\ strictly_ascending ys /\
      (forall k a b, xs !! k = Some a -> ys !! k = Some b ->
         kf_time a = IZR (Z.of_nat k) / IZR segments * duration (view e) /\
         kf_time b = kf_time a /\
         forall lox hix loy hiy : R,
           (forall q, q ∈ points -> lox <= fst q <= hix /\ loy <= snd q <= hiy) ->
           lox - cx <= kf_value a <= hix - cx /\ loy - cy <= kf_value b <= hiy - cy) /\
      head xs = Some (mkKeyframe 0 (fst first - cx)) /\
      head ys = Some (mkKeyframe 0 (snd first - cy)) /\
      point_at points (if (len <? 4)%Z then len - 1 else 3 * ((len - 1) / 3))%Z = Some endp /\
      last xs = Some (mkKeyframe (duration (view e)) (fst endp - cx)) /\
      last ys = Some (mkKeyframe (duration (view e)) (snd endp - cy)).
Proof.
  intros e segments i layer points first Hc Hd Hfirst Hseg Hdur. cbv zeta.
  assert (Hne : points <> []) by (intros ->; discriminate).
  set (cx := canvas_width (view e) / 2). set (cy := canvas_height (view e) / 2).
  destruct (path_samples_loop points (duration (view e)) cx cy segments (segments + 1)
              Hne Hseg ltac:(lia)) as (xs & ys & Hloop & Hlx & Hly & Hs).
  assert (HS : 0 < IZR segments) by (apply IZR_lt; lia).
  pose proof (currentLayer_lookup _ _ _ Hc) as Hi.
  set (layer1 := set_track (set_track layer p_x (Some xs)) p_y (Some ys)).
  set (st1 := set_layers (view e) (<[i := layer1]> (layers (view e)))).
  assert (Hsample : forall k a b, xs !! k = Some a -> ys !! k = Some b ->
            exists pt, getBezierPoint points (IZR (Z.of_nat k) / IZR segments) = Some pt /\
              a = mkKeyframe (IZR (Z.of_nat k) / IZR segments * duration (view e))
                             (fst pt - cx) /\
              b = mkKeyframe (IZR (Z.of_nat k) / IZR segments * duration (view e))
                             (snd pt - cy)).
  { intros k a b Ha Hb.
    destruct (Hs k) as (pt & Hpt & Hxk & Hyk).
    { rewrite <- Hlx. eapply lookup_lt_Some; eauto. }
    exists pt. split; [exact Hpt|]. split; congruence. }
  assert (Hasc : forall (l : list Keyframe),
            (forall k a, l !! k = Some a ->
               kf_time a = IZR (Z.of_nat k) / IZR segments * duration (view e)) ->
            strictly_ascending l).
  { intros l Hl. apply strictly_ascending_by_index. intros k a b Ha Hb.
    rewrite (Hl _ _ Ha), (Hl _ _ Hb). rewrite Nat2Z.inj_succ, succ_IZR.
    apply Rmult_lt_compat_r; [exact Hdur|].
    apply Rmult_lt_compat_r; [now apply Rinv_0_lt_compat | lra]. }
  assert (Htx : forall k a, xs !! k = Some a ->
            kf_time a = IZR (Z.of_nat k) / IZR segments * duration (view e)).
  { intros k a Ha.
    destruct (lookup_lt_is_Some_2 ys k) as [b Hb].
    { rewrite Hly, <- Hlx. eapply lookup_lt_Some; eauto. }
    destruct (Hsample k a b Ha Hb) as (pt & _ & -> & _). reflexivity. }
  assert (Hty : forall k b, ys !! k = Some b ->
            kf_time b = IZR (Z.of_nat k) / IZR segments * duration (view e)).
  { intros k b Hb.
    destruct (lookup_lt_is_Some_2 xs k) as [a Ha].
    { rewrite Hlx, <- Hly. eapply lookup_lt_Some; eauto. }
    destruct (Hsample k a b Ha Hb) as (pt & _ & _ & ->). reflexivity. }
  (* the first and the last sample *)
  destruct (Hs 0%nat ltac:(lia)) as (pt0 & Hpt0 & Hx0 & Hy0).
  change (IZR (Z.of_nat 0)) with 0 in Hpt0, Hx0, Hy0.
  replace (0 / IZR segments) with 0 in Hpt0, Hx0, Hy0 by (field; lra).
  rewrite Rmult_0_l in Hx0, Hy0.
  rewrite (getBezierPoint_start points first Hfirst) in Hpt0. injection Hpt0 as <-.
  destruct (Hs (Z.to_nat segments) ltac:(lia)) as (ptn & Hptn & Hxn & Hyn).
  rewrite Z2Nat.id in Hptn, Hxn, Hyn by lia.
  replace (IZR segments / IZR segments) with 1 in Hptn, Hxn, Hyn by (field; lra).
  rewrite Rmult_1_l in Hxn, Hyn.
  rewrite (getBezierPoint_end points Hne) in Hptn. cbv zeta in Hptn.
  exists (set_view e (applyTime st1 (currentTime st1))),
         (applyTime_layer (Rmax 0 (Rmin (duration st1) (currentTime st1))) layer1),
         xs, ys, ptn.
  split.
  { unfold applyPathToKeyframes. cbv zeta. rewrite Hc, Hd.
    assert (E : ((segments =? 0)%Z || (segments <? 2)%Z) = false).
    { apply Bool.orb_false_iff. split; [apply Z.eqb_neq | apply Z.ltb_ge]; lia. }
    rewrite E. fold cx cy. rewrite Hloop. reflexivity. }
  split.
  { cbn [view set_view]. apply applyTime_lookup. unfold st1. cbn [layers set_layers].
    apply list_lookup_insert_eq. eapply lookup_lt_Some; eauto. }
  assert (Hk : keyframes (applyTime_layer (Rmax 0 (Rmin (duration st1) (currentTime st1)))
                            layer1) = keyframes layer1).
  { unfold applyTime_layer. apply applyTime_fold_keyframes. }
  rewrite Hk.
  split; [reflexivity|]. split; [reflexivity|].
  split.
  { intros p Hpx Hpy. unfold layer1. simpl.
    destruct p; simpl; try reflexivity; congruence. }
  split; [exact Hlx|]. split; [exact Hly|].
  split; [now apply Hasc|]. split; [now apply Hasc|].
  split.
  { intros k a b Ha Hb. split; [now apply Htx|]. split; [now rewrite (Htx _ _ Ha), (Hty _ _ Hb)|].
    intros lox hix loy hiy Hbox.
    destruct (Hsample k a b Ha Hb) as (pt & Hpt & -> & ->). cbn [kf_value].
    assert (Hk1 : (k < Z.to_nat (segments + 1))%nat).
    { rewrite <- Hlx. eapply lookup_lt_Some; eauto. }
    assert (Ht : 0 <= IZR (Z.of_nat k) / IZR segments <= 1).
    { assert (0 <= IZR (Z.of_nat k)) by (apply IZR_le; lia).
      assert (IZR (Z.of_nat k) <= IZR segments) by (apply IZR_le; lia).
      split.
      - apply Rmult_le_pos; [assumption | left; now apply Rinv_0_lt_compat].
      - apply (Rmult_le_reg_r (IZR segments)); [assumption|].
        unfold Rdiv. rewrite Rmult_assoc, Rinv_l by lra. lra. }
    destruct (getBezierPoint_hull points _ Hne Ht) as (pt' & Hpt' & Hhull).
    rewrite Hpt in Hpt'. injection Hpt' as <-.
    destruct (Hhull lox hix loy hiy Hbox). lra. }
  split; [now rewrite head_lookup|]. split; [now rewrite head_lookup|].
  split; [exact Hptn|].
  rewrite !last_lookup, Hlx, Hly.
  replace (Nat.pred (Z.to_nat (segments + 1))) with (Z.to_nat segments) by lia.
  auto.
Qed.

Lemma applyPathToKeyframes_samples_witness :
  exists e', applyPathToKeyframes path_editor (Some 10%Z) = Returned e'.
Proof.
  destruct (applyPathToKeyframes_samples path_editor 10 1%nat scenario_layer
              [(300, 400); (3, 4); (0, 0); (50, 60)] (300, 400)
              eq_refl eq_refl eq_refl ltac:(lia) ltac:(simpl; lra))
    as (e' & _ & _ & _ & _ & He & _).
  exists e'. exact He.
Defined.

Lemma point_at_app_l (points extra : list (R * R)) (i : Z) :
  (i < Z.of_nat (length points))%Z -> point_at (points ++ extra) i = point_at points i.
Proof.
  intros Hi. unfold point_at. destruct (i <? 0)%Z eqn:E; [reflexivity|].
  apply Z.ltb_ge in E. apply lookup_app_l. lia.
Qed.

(** X21.  [#addPathPoint] on a path of [3 m + 1] control points ([m] whole
    segments) appends one segment: three control points, the last one 300 to
    the right of the old end, which becomes the end of the curve.  The old
    points stay, and so does the old curve: the new curve at the parameter
    [t * m / (m + 1)] is the old curve at [t]. *)
Theorem addPathPoint_extends_curve :
  forall (e : Editor) (points : list (R * R)) (m : Z) (i : nat) (layer : Layer)
         (lastPoint : R * R),
    path_enabled e = true -> path_data e = Some points ->
    currentLayer (view e) = Some (i, layer) ->
    (1 <= m)%Z -> Z.of_nat (length points) = (3 * m + 1)%Z ->
    last points = Some lastPoint ->
    exists points',
      path_data (addPathPoint e) = Some points' /\
      view (addPathPoint e) = view e /\
      Z.of_nat (length points') = (3 * (m + 1) + 1)%Z /\
      (forall j, (j < length points)%nat -> points' !! j = points !! j) /\
      last points' = Some (fst lastPoint + 300, snd lastPoint) /\
      getBezierPoint points 1 = Some lastPoint /\
      getBezierPoint points' 1 = Some (fst lastPoint + 300, snd lastPoint) /\
      forall t, 0 <= t <= 1 ->
        getBezierPoint points' (t * IZR m / IZR (m + 1)) = getBezierPoint points t.
Proof.
  intros e points m i layer lastPoint He Hd Hc Hm Hlen Hlast.
  set (extra := [(fst lastPoint + 100, snd lastPoint - 100);
                 (fst lastPoint + 100 * 2, snd lastPoint + 100);
                 (fst lastPoint + 100 * 3, snd lastPoint)]).
  assert (Hne : points <> []) by (intros ->; discriminate).
  assert (Hlen' : Z.of_nat (length (points ++ extra)) = (3 * (m + 1) + 1)%Z).
  { rewrite length_app. simpl. lia. }
  assert (Hlastpt : point_at points (3 * m) = Some lastPoint).
  { unfold point_at. destruct (3 * m <? 0)%Z eqn:E; [apply Z.ltb_lt in E; lia|].
    rewrite last_lookup in Hlast.
    replace (Z.to_nat (3 * m)) with (Nat.pred (length points)) by lia. exact Hlast. }
  assert (Hnew : point_at (points ++ extra) (3 * (m + 1))
                 = Some (fst lastPoint + 100 * 3, snd lastPoint)).
  { unfold point_at. destruct (3 * (m + 1) <? 0)%Z eqn:E; [apply Z.ltb_lt in E; lia|].
    rewrite lookup_app_r by lia.
    replace (Z.to_nat (3 * (m + 1)) - length points)%nat with 2%nat by lia.
    reflexivity. }
  exists (points ++ extra).
  split.
  { unfold addPathPoint. rewrite He, Hd, Hc. cbn [negb].
    assert (E : (length points <? 4)%nat = false) by (apply Nat.ltb_ge; lia).
    rewrite E, Hlast. reflexivity. }
  split.
  { unfold addPathPoint. rewrite He, Hd, Hc. cbn [negb].
    assert (E : (length points <? 4)%nat = false) by (apply Nat.ltb_ge; lia).
    rewrite E, Hlast. reflexivity. }
  split; [exact Hlen'|].
  split; [intros j Hj; now apply lookup_app_l|].
  split.
  { unfold extra. rewrite last_app. cbn [last]. f_equal. f_equal. ring. }
  split.
  { rewrite (getBezierPoint_end points Hne). cbv zeta. rewrite Hlen.
    assert (E : (3 * m + 1 <? 4)%Z = false) by (apply Z.ltb_ge; lia). rewrite E.
    replace ((3 * m + 1 - 1) / 3)%Z with m by (Z.div_mod_to_equations; lia).
    exact Hlastpt. }
  split.
  { rewrite (getBezierPoint_end (points ++ extra)); [|now destruct points].
    cbv zeta. rewrite Hlen'.
    assert (E : (3 * (m + 1) + 1 <? 4)%Z = false) by (apply Z.ltb_ge; lia). rewrite E.
    replace ((3 * (m + 1) + 1 - 1) / 3)%Z with (m + 1)%Z by (Z.div_mod_to_equations; lia).
    rewrite Hnew. f_equal. f_equal. ring. }
  intros t Ht.
  assert (HM : 1 <= IZR m) by (apply IZR_le; lia).
  unfold getBezierPoint. cbv zeta. rewrite Hlen, Hlen'.
  assert (E : (3 * m + 1 <? 4)%Z = false) by (apply Z.ltb_ge; lia).
  assert (E' : (3 * (m + 1) + 1 <? 4)%Z = false) by (apply Z.ltb_ge; lia).
  rewrite E, E'.
  replace ((3 * m + 1 - 1) / 3)%Z with m by (Z.div_mod_to_equations; lia).
  replace ((3 * (m + 1) + 1 - 1) / 3)%Z with (m + 1)%Z by (Z.div_mod_to_equations; lia).
  replace (t * IZR m / IZR (m + 1) * IZR (m + 1)) with (t * IZR m)
    by (rewrite plus_IZR; field; lra).
  replace (m + 1 - 1)%Z with m by lia.
  assert (HsT : 0 <= t * IZR m <= IZR m) by (split; nra).
  pose proof (Zfloor_range (t * IZR m) m HsT) as Hfl.
  pose proof (Zfloor_bound (t * IZR m)) as Hfb.
  destruct (Z_lt_le_dec (Zfloor (t * IZR m)) m) as [Hlt | Hge].
  - rewrite !Z.min_l by lia.
    rewrite !point_at_app_l by lia. reflexivity.
  - assert (Efl : Zfloor (t * IZR m) = m) by lia.
    assert (EsT : t * IZR m = IZR m).
    { rewrite Efl in Hfb. lra. }
    rewrite Efl, EsT, Z.min_id, Z.min_r by lia.
    destruct (point_at_in_range points ((m - 1) * 3)) as (q0 & -> & _); [lia|].
    destruct (point_at_in_range points ((m - 1) * 3 + 1)) as (q1 & -> & _); [lia|].
    destruct (point_at_in_range points ((m - 1) * 3 + 2)) as (q2 & -> & _); [lia|].
    replace ((m - 1) * 3 + 3)%Z with (3 * m)%Z by lia.
    replace (m * 3)%Z with (3 * m)%Z by lia.
    rewrite Hlastpt.
    rewrite (point_at_app_l points extra (3 * m)) by lia. rewrite Hlastpt.
    destruct (point_at_in_range (points ++ extra) (3 * m + 1)) as (r1 & -> & _); [lia|].
    destruct (point_at_in_range (points ++ extra) (3 * m + 2)) as (r2 & -> & _); [lia|].
    destruct (point_at_in_range (points ++ extra) (3 * m + 3)) as (r3 & -> & _); [lia|].
    rewrite minus_IZR. f_equal. f_equal; ring.
Qed.

Lemma addPathPoint_extends_curve_witness :
  getBezierPoint [(300, 400); (3, 4); (0, 0); (50, 60)] 1 = Some (50, 60).
Proof.
  destruct (addPathPoint_extends_curve path_editor [(300, 400); (3, 4); (0, 0); (50, 60)]
              1 1%nat scenario_layer (50, 60)
              eq_refl eq_refl eq_refl ltac:(lia) eq_refl eq_refl)
    as (points' & _ & _ & _ & _ & _ & H & _).
  exact H.
Defined.

(** ** A keyframe pins the pose *)

(** X22.  On strictly ascending tracks, [#addKeyframe] records the pose:
    whatever happens to the properties of the layer afterwards (typed
    values, drags, other times applied), as long as its tracks are the ones
    [#addKeyframe] left, [#applyTime] back at that time gives every one of
    the nine properties the value it had when the keyframe was added. *)
Theorem addKeyframe_pins_pose :
  forall (st st2 : View) (i : nat) (layer layer2 : Layer),
    currentLayer st = Some (i, layer) ->
    (forall p, strictly_ascending (track_of layer p)) ->
    0 <= currentTime st <= duration st ->
    duration st2 = duration st ->
    layers st2 !! i = Some layer2 ->
    (forall layer1, layers (addKeyframe st) !! i = Some layer1 ->
                    forall p, keyframes layer2 p = keyframes layer1 p) ->
    exists layer3,
      layers (applyTime st2 (currentTime st)) !! i = Some layer3 /\
      forall p, props layer3 p = props layer p.
Proof.
  intros st st2 i layer layer2 Hc Hs Ht Hd Hl2 Hk.
  set (ct := currentTime st) in *.
  assert (Hl1 : layers (addKeyframe st) !! i = Some (addKeyframe_layer ct layer)).
  { unfold addKeyframe. rewrite Hc. simpl layers. apply list_lookup_insert_eq.
    exact (lookup_lt_Some _ _ _ (currentLayer_lookup _ _ _ Hc)). }
  specialize (Hk _ Hl1).
  exists (applyTime_layer (Rmax 0 (Rmin (duration st2) ct)) layer2).
  split; [now apply applyTime_lookup|].
  intros p. rewrite Hd, clamp_time_inside by exact Ht.
  rewrite applyTime_layer_props.
  assert (Etrack : track_of layer2 p = added_track ct (props layer p) (track_of layer p)).
  { rewrite <- addKeyframe_layer_track. unfold track_of. now rewrite Hk. }
  rewrite Etrack.
  assert (Hin : mkKeyframe ct (props layer p) ∈ added_track ct (props layer p) (track_of layer p)).
  { unfold added_track. rewrite sort_by_time_Permutation. apply elem_of_app. right.
    apply list_elem_of_singleton. reflexivity. }
  apply list_elem_of_lookup_1 in Hin. destruct Hin as [j Hj].
  pose proof (evaluate_sample_time _ j _
                (added_track_strictly_ascending ct (props layer p) _ (Hs p)) Hj) as He.
  cbn [kf_time kf_value] in He. now rewrite He.
Qed.

Lemma addKeyframe_pins_pose_witness :
  exists layer3,
    layers (applyTime (applyTime (addKeyframe scenario_view) 3) 0) !! 0%nat = Some layer3 /\
    forall p, props layer3 p = props scenario_layer p.
Proof.
  assert (Hasc : forall p, strictly_ascending (track_of scenario_layer p)).
  { intros p. destruct p; simpl; auto. lra. }
  refine (addKeyframe_pins_pose scenario_view (applyTime (addKeyframe scenario_view) 3)
            0%nat scenario_layer
            (applyTime_layer (Rmax 0 (Rmin (duration (addKeyframe scenario_view)) 3))
                             (addKeyframe_layer 0 scenario_layer))
            eq_refl Hasc _ eq_refl eq_refl _).
  - simpl. lra.
  - intros layer1 H1 p. injection H1 as <-.
    unfold applyTime_layer. now rewrite applyTime_fold_keyframes.
Defined.

(** ** The timeline as drawn and as pressed *)

Lemma timeline_hit_index_some (st : View) (tw th mx my : R) (frames : list Keyframe)
    (n j : nat) (kf : Keyframe) :
  frames !! j = Some kf -> timeline_hit st tw th mx my kf = true ->
  exists i, timeline_hit_index st tw th mx my frames n = Some i.
Proof.
  revert n j. induction frames as [|a rest IH]; intros n j Hj Hh; [discriminate|].
  simpl. destruct (timeline_hit st tw th mx my a) eqn:E; [eauto|].
  destruct j as [|j]; [simpl in Hj; congruence|]. simpl in Hj. eauto.
Qed.

Lemma timeline_hit_prop_some (st : View) (tw th mx my : R) (layer : Layer)
    (ps : list KfProp) (p : KfProp) (j : nat) (kf : Keyframe) :
  In p ps -> track_of layer p !! j = Some kf -> timeline_hit st tw th mx my kf = true ->
  exists p' i, timeline_hit_prop st tw th mx my layer ps = Some (p', i).
Proof.
  induction ps as [|q ps IH]; intros Hin Hj Hh; [destruct Hin|].
  simpl. destruct (timeline_hit_index st tw th mx my (track_of layer q) 0) as [i|] eqn:E;
    [eauto|].
  destruct Hin as [-> | Hin]; [|eauto].
  destruct (timeline_hit_index_some st tw th mx my _ 0%nat j kf Hj Hh) as [i Hi]. congruence.
Qed.

(** X23.  The timeline answers to what it shows.  A press anywhere on
    the marker [#drawTimeline] draws for a sample of the selected foreground
    layer starts the drag of a sample under the pointer and does not move
    the time.  A press above or below the row of the markers, at the
    fraction [mx] of the width of a project of positive duration, leaves the
    line of the current time exactly under the pointer. *)
Theorem timeline_press_matches_drawing :
  forall (st : View) (tw th mx my : R),
    0 < tw ->
    (forall (i : nat) (layer : Layer) (p : KfProp) (frames : list Keyframe) (j : nat)
            (kf : Keyframe) (x y w h : R),
       currentLayer st = Some (i, layer) -> layer_type layer <> "background"%string ->
       keyframes layer p = Some frames -> frames !! j = Some kf ->
       keyframe_marker st tw kf = (x, y, w, h) ->
       x <= mx * tw <= x + w -> y <= my * th <= y + h ->
       exists (p' : KfProp) (j' : nat) (kf' : Keyframe),
         onTimelineDown st tw th mx my = set_dragKeyframe st (Some (i, p', j')) /\
         track_of layer p' !! j' = Some kf' /\
         timeline_hit st tw th mx my kf' = true) /\
    (0 < duration st -> 0 <= mx <= 1 -> 12 < Rabs (my * th - 35) ->
     playhead (onTimelineDown st tw th mx my) tw = mx * tw).
Proof.
  intros st tw th mx my Htw. split.
  - intros i layer p frames j kf x y w h Hc Hbg Hk Hj Hm Hx Hy.
    unfold keyframe_marker in Hm. cbv zeta in Hm. injection Hm as <- <- <- <-.
    assert (Hh : timeline_hit st tw th mx my kf = true).
    { unfold timeline_hit. cbv zeta. apply Bool.andb_true_iff. split; apply Rleb_true.
      - replace (Rabs (kf_time kf / duration st - mx) * tw)
          with (Rabs (kf_time kf / duration st * tw - mx * tw)).
        + apply Rabs_le. lra.
        + rewrite <- (Rabs_right tw) at 3 by lra. rewrite <- Rabs_mult. f_equal. ring.
      - apply Rabs_le. lra. }
    assert (Ht : track_of layer p !! j = Some kf) by (unfold track_of; now rewrite Hk).
    destruct (timeline_hit_prop_some st tw th mx my layer KF_PROPS p j kf
                (KF_PROPS_complete p) Ht Hh) as (p' & j' & Hp).
    destruct (timeline_hit_prop_spec _ _ _ _ _ _ _ _ _ Hp) as (kf' & _ & Hk' & Hh').
    exists p', j', kf'. split; [|split; assumption].
    unfold onTimelineDown. rewrite Hc.
    assert (Eb : String.eqb (layer_type layer) "background" = false)
      by now apply String.eqb_neq.
    rewrite Eb. cbn [negb]. now rewrite Hp.
  - intros Hd Hmx Hmy.
    rewrite onTimelineDown_outside_row by exact Hmy.
    unfold playhead, applyTime. cbn [currentTime duration set_layers set_currentTime].
    rewrite clamp_time_inside by (split; nra).
    field. lra.
Qed.

Lemma timeline_press_matches_drawing_witness :
  playhead (onTimelineDown scenario_view 800 60 (1 / 4) (1 / 10)) 800 = 1 / 4 * 800.
Proof.
  apply (proj2 (timeline_press_matches_drawing scenario_view 800 60 (1 / 4) (1 / 10)
                  ltac:(lra))).
  - simpl. lra.
  - lra.
  - rewrite Rabs_left; lra.
Defined.

(** ** Playback *)

Lemma js_rem_range (x d : R) :
  0 <= x -> 0 < d ->
  0 <= js_rem x d < d /\ exists n : Z, (0 <= n)%Z /\ x = js_rem x d + IZR n * d.
Proof.
  intros Hx Hd. unfold js_rem.
  assert (Hq : 0 <= x / d).
  { apply Rmult_le_pos; [exact Hx | left; now apply Rinv_0_lt_compat]. }
  rewrite (proj2 (Rltb_false _ _) Hq).
  pose proof (Zfloor_bound (x / d)) as [Hlo Hhi].
  assert (Ex : x = x / d * d) by (field; lra).
  set (q := x / d) in *. set (f := IZR (Zfloor q)) in *.
  split.
  - split; nra.
  - exists (Zfloor q). split; [apply Zfloor_lub; exact Hq | fold f; ring].
Qed.

(** X24.  While playing, in a project of positive duration, a turn of
    the playback started at [origin >= 0] shows the time
    [(origin + elapsed) % duration]: a time in [0, duration) that differs
    from [origin + elapsed] by a whole number of durations, which
    [#applyTime] takes as it is.  The playback wraps around and never shows
    the time [duration] itself; when not playing, a turn changes nothing. *)
Theorem playback_tick_wraps :
  forall (st : View) (origin elapsed : R),
    0 < duration st -> 0 <= origin -> 0 <= elapsed ->
    let st' := playback_tick st true origin elapsed in
    0 <= currentTime st' < duration st /\
    (exists n : Z, (0 <= n)%Z /\ origin + elapsed = currentTime st' + IZR n * duration st) /\
    duration st' = duration st /\
    (forall (li : nat) (layer : Layer), layers st !! li = Some layer ->
       layers st' !! li = Some (applyTime_layer (currentTime st') layer)) /\
    playback_tick st false origin elapsed = st.
Proof.
  intros st origin elapsed Hd Ho He. cbv zeta.
  destruct (js_rem_range (origin + elapsed) (duration st) ltac:(lra) Hd) as [Hr Hn].
  assert (Ec : currentTime (playback_tick st true origin elapsed)
               = js_rem (origin + elapsed) (duration st)).
  { unfold playback_tick, applyTime. cbn [negb currentTime set_layers set_currentTime].
    apply clamp_time_inside. lra. }
  rewrite Ec. split; [exact Hr|]. split; [exact Hn|]. split; [reflexivity|].
  split; [|reflexivity].
  intros li layer Hl. unfold playback_tick. cbn [negb]. cbv zeta.
  rewrite (applyTime_lookup st _ li layer Hl).
  now rewrite clamp_time_inside by lra.
Qed.

Lemma playback_tick_wraps_witness :
  0 <= currentTime (playback_tick scenario_view true 4 3) < duration scenario_view.
Proof.
  apply (proj1 (playback_tick_wraps scenario_view 4 3
                  ltac:(simpl; lra) ltac:(lra) ltac:(lra))).
Defined.

(** ** Adding a keyframe and deleting it again *)

Local Open Scope R_scope.

Lemma addKeyframe_layer_id (ct : R) (layer : Layer) :
  layer_id (addKeyframe_layer ct layer) = layer_id layer.
Proof.
  unfold addKeyframe_layer. generalize KF_PROPS. intros ps. revert layer.
  induction ps as [|q ps IH]; intros layer; [reflexivity|].
  simpl. now rewrite IH.
Qed.

Lemma deleteKeyframe_layer_props (ct : R) (layer : Layer) :
  props (fst (deleteKeyframe_layer ct layer)) = props layer.
Proof.
  unfold deleteKeyframe_layer. rewrite deleteKeyframe_fold_fst. simpl fst.
  apply (fold_per_property_props (deleted_prop ct)).
  intros l r. unfold deleted_prop, deleteKeyframe_prop. now destruct (keyframes l r).
Qed.

Lemma filter_length_lt (P : Keyframe -> Prop) `{forall k, Decision (P k)}
    (l : list Keyframe) (k : Keyframe) :
  k ∈ l -> ~ P k -> (length (filter P l) < length l)%nat.
Proof.
  induction l as [|a l IH]; intros Hin Hn; [now apply elem_of_nil in Hin|].
  rewrite filter_cons.
  apply elem_of_cons in Hin. destruct Hin as [<- | Hin].
  - destruct (decide (P k)); [contradiction|].
    pose proof (length_filter P l). simpl. lia.
  - specialize (IH Hin Hn). destruct (decide (P a)); simpl; lia.
Qed.

(** The flag [modified] of [#deleteKeyframe]: once set it stays set, and it
    is set when a track of the layer holds a sample at the rounded time. *)
Lemma deleteKeyframe_modified (ct : R) (ps : list KfProp) (l : Layer) (m : bool) :
  m = true \/
  (exists p k, In p ps /\ k ∈ track_of l p /\ fixed2_differs (kf_time k) ct = false) ->
  snd (fold_left (deleteKeyframe_prop ct) ps (l, m)) = true.
Proof.
  revert l m. induction ps as [|q ps IH]; intros l m H.
  - destruct H as [H | (p & k & [] & _)]. exact H.
  - change (fold_left (deleteKeyframe_prop ct) (q :: ps) (l, m))
      with (fold_left (deleteKeyframe_prop ct) ps (deleteKeyframe_prop ct (l, m) q)).
    destruct (deleteKeyframe_prop ct (l, m) q) as [l' m'] eqn:E.
    apply IH. unfold deleteKeyframe_prop in E.
    destruct H as [-> | (p & k & Hin & Hk & Hd)].
    + left. destruct (keyframes l q); injection E as _ <-; [|reflexivity].
      now destruct (Nat.eqb _ _).
    + destruct (KfProp_eqb p q) eqn:Epq.
      * apply KfProp_eqb_eq in Epq. subst p.
        left. unfold track_of in Hk.
        destruct (keyframes l q) as [track|]; [|now apply elem_of_nil in Hk].
        injection E as _ <-.
        pose proof (filter_length_lt (fun kf => fixed2_differs (kf_time kf) ct = true)
                      track k Hk) as Hlt.
        destruct (Nat.eqb_spec
                    (length (filter (fun kf => fixed2_differs (kf_time kf) ct = true) track))
                    (length track)) as [Heq | _]; [|reflexivity].
        exfalso. rewrite Heq in Hlt. apply (Nat.lt_irrefl (length track)).
        apply Hlt. rewrite Hd. discriminate.
      * right. exists p, k.
        split.
        { destruct Hin as [<- | Hin]; [|exact Hin].
          now rewrite KfProp_eqb_refl in Epq. }
        split; [|exact Hd].
        assert (Et : track_of l' p = track_of l p).
        { destruct (keyframes l q); injection E as <- _; [|reflexivity].
          unfold track_of, set_track. simpl. now rewrite Epq. }
        now rewrite Et.
Qed.

(** X4.  [#addKeyframe] followed by [#deleteKeyframe] at the same current
    time gives every track of the selected layer back, when the tracks were
    ascending and held no sample at that time (to two decimals); and, since
    [#deleteKeyframe] re-applies the time once a sample was removed, every
    layer is left as [#applyTime] at the current time leaves it: a property
    of the selected layer with a non-empty track takes the value of its
    track there (a value typed and not keyed is lost), a property without
    samples keeps its value. *)
Theorem addKeyframe_then_deleteKeyframe :
  forall (st : View) (i : nat) (layer : Layer),
    currentLayer st = Some (i, layer) ->
    (forall p, ascending (track_of layer p)) ->
    (forall p, Forall (fun kf => fixed2_differs (kf_time kf) (currentTime st) = true)
                      (track_of layer p)) ->
    let st2 := deleteKeyframe (addKeyframe st) in
    let ct := Rmax 0 (Rmin (duration st) (currentTime st)) in
    currentTime st2 = ct /\
    (exists layer2 : Layer,
       layers st2 !! i = Some layer2 /\
       (forall p, track_of layer2 p = track_of layer p) /\
       (forall p, props layer2 p
                  = match evaluate (track_of layer p) ct with
                    | Some v => v
                    | None => props layer p
                    end)) /\
    (forall (j : nat) (other : Layer), j <> i -> layers st !! j = Some other ->
       layers st2 !! j = Some (applyTime_layer ct other)).
Proof.
  intros st i layer Hc Ha Hf. cbv zeta.
  set (ct0 := currentTime st) in *.
  set (L1 := addKeyframe_layer ct0 layer).
  pose proof (lookup_lt_Some _ _ _ (currentLayer_lookup _ _ _ Hc)) as Hi.
  assert (E1 : addKeyframe st = set_layers st (<[i := L1]> (layers st))).
  { unfold addKeyframe. now rewrite Hc. }
  assert (Hc1 : currentLayer (addKeyframe st) = Some (i, L1)).
  { rewrite E1. apply (currentLayer_insert st i layer L1 Hc). apply addKeyframe_layer_id. }
  set (L2 := fst (deleteKeyframe_layer ct0 L1)).
  assert (Hm : snd (deleteKeyframe_layer ct0 L1) = true).
  { unfold deleteKeyframe_layer. apply deleteKeyframe_modified. right.
    exists p_x, (mkKeyframe ct0 (props layer p_x)). split; [now left|]. split.
    - unfold L1. rewrite addKeyframe_layer_track. unfold added_track.
      rewrite sort_by_time_Permutation. apply elem_of_app. right.
      apply list_elem_of_singleton. reflexivity.
    - apply fixed2_differs_refl. }
  assert (Htrack : forall p, track_of L2 p = track_of layer p).
  { intros p. unfold L2, L1.
    rewrite deleteKeyframe_layer_track, addKeyframe_layer_track. unfold added_track.
    rewrite filter_sort_by_time, filter_app.
    rewrite !(filter_all _ (track_of layer p) (Hf p)).
    rewrite filter_cons. simpl.
    destruct (decide (fixed2_differs ct0 ct0 = true)) as [E|_].
    - now rewrite fixed2_differs_refl in E.
    - rewrite filter_nil, app_nil_r. now apply sort_by_time_ascending_id. }
  assert (Hprops : props L2 = props layer).
  { unfold L2, L1. now rewrite deleteKeyframe_layer_props, addKeyframe_layer_props. }
  assert (E2 : deleteKeyframe (addKeyframe st)
               = applyTime (set_layers st (<[i := L2]> (layers st))) ct0).
  { unfold deleteKeyframe. rewrite Hc1.
    assert (Ect : currentTime (addKeyframe st) = ct0) by (rewrite E1; reflexivity).
    rewrite Ect.
    assert (Ed : deleteKeyframe_layer ct0 L1 = (L2, true)).
    { unfold L2. rewrite <- Hm. apply surjective_pairing. }
    rewrite Ed, E1. cbn [layers set_layers currentTime].
    rewrite list_insert_insert_eq. fold ct0. reflexivity. }
  rewrite E2. split; [reflexivity|]. split.
  - exists (applyTime_layer (Rmax 0 (Rmin (duration st) ct0)) L2).
    split.
    + rewrite (applyTime_lookup (set_layers st (<[i := L2]> (layers st))) ct0 i L2);
        [reflexivity|].
      cbn [layers set_layers]. now apply list_lookup_insert_eq.
    + split.
      * intros p. rewrite <- Htrack. unfold track_of, applyTime_layer.
        now rewrite applyTime_fold_keyframes.
      * intros p. now rewrite applyTime_layer_props, Htrack, Hprops.
  - intros j other Hj Hl.
    rewrite (applyTime_lookup (set_layers st (<[i := L2]> (layers st))) ct0 j other);
      [reflexivity|].
    cbn [layers set_layers]. now rewrite list_lookup_insert_ne by congruence.
Qed.

Lemma toFixed2_IZR (n : Z) : (0 <= n)%Z -> toFixed2 (IZR n) = (false, (100 * n)%Z).
Proof.
  intros Hn. apply IZR_le in Hn. unfold toFixed2. f_equal.
  - apply Rltb_false. exact Hn.
  - rewrite Rabs_right by lra. apply Zfloor_eq. rewrite mult_IZR. lra.
Qed.

Lemma fixed2_differs_IZR (a b : Z) :
  (0 <= a)%Z -> (0 <= b)%Z -> a <> b -> fixed2_differs (IZR a) (IZR b) = true.
Proof.
  intros Ha Hb Hne. unfold fixed2_differs, fixed2_eqb.
  rewrite !toFixed2_IZR by assumption. cbn [fst snd Bool.eqb andb].
  apply Bool.negb_true_iff. apply Z.eqb_neq. lia.
Qed.

Lemma addKeyframe_then_deleteKeyframe_witness :
  exists layer2 : Layer,
    layers (deleteKeyframe (addKeyframe typed_view)) !! 0%nat = Some layer2 /\
    props typed_layer p_x = 50 /\ props layer2 p_x = 0.
Proof.
  assert (Ha : forall p, ascending (track_of typed_layer p)).
  { intros p. destruct p; simpl; auto. lra. }
  assert (Hf : forall p, Forall (fun kf => fixed2_differs (kf_time kf) (currentTime typed_view)
                                           = true) (track_of typed_layer p)).
  { intros p. destruct p; try constructor.
    - exact (fixed2_differs_IZR 0 1 ltac:(lia) ltac:(lia) ltac:(lia)).
    - constructor; [|constructor].
      exact (fixed2_differs_IZR 2 1 ltac:(lia) ltac:(lia) ltac:(lia)). }
  destruct (addKeyframe_then_deleteKeyframe typed_view 0%nat typed_layer eq_refl Ha Hf)
    as (_ & (layer2 & Hl & _ & Hp) & _).
  exists layer2. split; [exact Hl|]. split; [reflexivity|].
  rewrite Hp. change (track_of typed_layer p_x) with scenario_track.
  change (duration typed_view) with (81 / 16). change (currentTime typed_view) with 1.
  rewrite Rmin_right by lra. rewrite Rmax_right by lra.
  now rewrite scenario_evaluate_1.
Defined.

(** ** Images loaded into the project *)

Lemma double_rounding_near (rnd : R -> R) (x : R) :
  double_rounding rnd -> / 1048576 <= x <= 1099511627776 ->
  x - x / 9007199254740992 <= rnd x <= x + x / 9007199254740992.
Proof.
  intros (_ & _ & Hrel) Hx.
  assert (Hpos : 0 <= x) by lra.
  specialize (Hrel x). rewrite (Rabs_right x) in Hrel by lra.
  specialize (Hrel Hx). unfold Rabs in Hrel at 1.
  destruct (Rcase_abs (rnd x - x)); lra.
Qed.

Lemma double_rounding_integer (rnd : R -> R) (n : Z) :
  double_rounding rnd -> (0 <= n <= 1000000)%Z -> rnd (IZR n) = IZR n.
Proof. intros (_ & Hint & _) Hn. apply Hint. lia. Qed.

(** One side of the smaller copy: [a] is the side of the image, [s] the
    computed scale, [r] the exact ratio, [W] the side of the project. *)
Lemma fitted_side (rnd : R -> R) (az wz : Z) (s r : R) :
  double_rounding rnd ->
  (1 <= az <= 1000000)%Z -> (1 <= wz <= 8192)%Z ->
  / 1000000 <= r -> IZR az * r <= IZR wz ->
  r - r / 9007199254740992 <= s <= r + r / 9007199254740992 -> s < 1 ->
  let side := IZR (Z.max 1 (Zfloor (rnd (IZR az * s)))) in
  1 <= side <= IZR wz /\ side <= IZR az /\
  IZR az * r - 1 - / 1000000 < side <= Rmax 1 (IZR az * r + / 1000000).
Proof.
  intros Hrnd Haz Hwz Hr Har Hs Hs1. cbv zeta.
  assert (Ha : 1 <= IZR az <= 1000000) by (split; apply IZR_le; lia).
  assert (Hw : 1 <= IZR wz <= 8192) by (split; apply IZR_le; lia).
  set (a := IZR az) in *. set (W := IZR wz) in *.
  set (X := a * r) in *.
  assert (HX : / 1000000 <= X) by (unfold X; nra).
  set (P := a * s).
  assert (HP : X - X / 9007199254740992 <= P <= X + X / 9007199254740992).
  { unfold P, X. destruct Hs as [Hs_lo Hs_hi]. split.
    - replace (a * r - a * r / 9007199254740992)
        with (a * (r - r / 9007199254740992)) by (unfold Rdiv; ring).
      apply Rmult_le_compat_l; lra.
    - replace (a * r + a * r / 9007199254740992)
        with (a * (r + r / 9007199254740992)) by (unfold Rdiv; ring).
      apply Rmult_le_compat_l; lra. }
  assert (HPa : P <= a).
  { unfold P. rewrite <- (Rmult_1_r a) at 2. apply Rmult_le_compat_l; lra. }
  assert (Hnear : P - P / 9007199254740992 <= rnd P <= P + P / 9007199254740992).
  { apply double_rounding_near; [exact Hrnd | lra]. }
  assert (Hmono : rnd P <= a).
  { apply Rle_trans with (rnd a).
    - destruct Hrnd as (Hm & _ & _). now apply Hm.
    - right. unfold a. apply double_rounding_integer; [exact Hrnd | lia]. }
  pose proof (Zfloor_bound (rnd P)) as [Hf1 Hf2].
  assert (Hfw : (Zfloor (rnd P) <= wz)%Z).
  { apply Z.lt_succ_r. apply lt_IZR. rewrite succ_IZR. fold W. lra. }
  assert (Hfa : (Zfloor (rnd P) <= az)%Z).
  { apply le_IZR. fold a. lra. }
  split; [split; apply IZR_le; lia|].
  split; [apply IZR_le; lia|].
  split.
  - apply Rlt_le_trans with (IZR (Zfloor (rnd P))); [lra | apply IZR_le; lia].
  - destruct (Z.max_spec 1 (Zfloor (rnd P))) as [[_ ->] | [_ ->]].
    + eapply Rle_trans; [|apply Rmax_r]. lra.
    + apply Rmax_l.
Qed.

(** X25.  With the arithmetic of doubles, for a project of at most 8192
    by 8192 and an image of whole sizes up to a million pixels:
    [#fitImageToCanvas] never enlarges an image and never returns one larger
    than the project.  An image that fits is returned as it is.  A larger
    one comes back at least one pixel wide and high, within the resolution
    of the project; each side is the exactly scaled side cut to a whole
    number of pixels, up to the rounding of the doubles: it is less than one
    pixel and a millionth under the exactly scaled side, and not above it by
    more than a millionth, unless it is the minimum of one pixel. *)
Theorem fitImageToCanvas_fits :
  forall (rnd : R -> R) (pr : Project) (image : Image) (az bz : Z),
    double_rounding rnd ->
    (1 <= state_width pr <= 8192)%Z -> (1 <= state_height pr <= 8192)%Z ->
    img_width image = IZR az -> img_height image = IZR bz ->
    (1 <= az <= 1000000)%Z -> (1 <= bz <= 1000000)%Z ->
    let W := IZR (state_width pr) in
    let H := IZR (state_height pr) in
    let fitted := fitImageToCanvas rnd pr image in
    let ratio := Rmin (W / img_width image) (H / img_height image) in
    (1 <= img_width fitted <= W /\ 1 <= img_height fitted <= H) /\
    (img_width fitted <= img_width image /\ img_height fitted <= img_height image) /\
    (img_width image <= W -> img_height image <= H -> fitted = image) /\
    (W < img_width image \/ H < img_height image ->
     img_width image * ratio - 1 - / 1000000 < img_width fitted
       <= Rmax 1 (img_width image * ratio + / 1000000) /\
     img_height image * ratio - 1 - / 1000000 < img_height fitted
       <= Rmax 1 (img_height image * ratio + / 1000000)).
Proof.
  intros rnd pr [iw ih] az bz Hrnd HW HH Ew Eh Haz Hbz. cbv zeta.
  cbn [img_width img_height] in *. subst iw ih.
  set (wz := state_width pr) in *. set (hz := state_height pr) in *.
  assert (Ha : 1 <= IZR az <= 1000000) by (split; apply IZR_le; lia).
  assert (Hb : 1 <= IZR bz <= 1000000) by (split; apply IZR_le; lia).
  assert (Hw : 1 <= IZR wz <= 8192) by (split; apply IZR_le; lia).
  assert (Hh : 1 <= IZR hz <= 8192) by (split; apply IZR_le; lia).
  unfold fitImageToCanvas. fold wz hz. cbn [img_width img_height].
  rewrite (proj2 (Reqb_false (IZR az) 0)) by lra.
  rewrite (proj2 (Reqb_false (IZR bz) 0)) by lra. cbn [orb]. cbv zeta.
  set (a := IZR az) in *. set (b := IZR bz) in *.
  set (W := IZR wz) in *. set (H := IZR hz) in *.
  set (qw := W / a). set (qh := H / b).
  assert (Eqw : a * qw = W) by (unfold qw; field; lra).
  assert (Eqh : b * qh = H) by (unfold qh; field; lra).
  assert (Hqw : / 1000000 <= qw <= 8192).
  { split.
    - apply (Rmult_le_reg_l a); [lra|]. rewrite Eqw. nra.
    - apply (Rmult_le_reg_l a); [lra|]. rewrite Eqw. nra. }
  assert (Hqh : / 1000000 <= qh <= 8192).
  { split.
    - apply (Rmult_le_reg_l b); [lra|]. rewrite Eqh. nra.
    - apply (Rmult_le_reg_l b); [lra|]. rewrite Eqh. nra. }
  pose proof (double_rounding_near rnd qw Hrnd ltac:(lra)) as Hrw.
  pose proof (double_rounding_near rnd qh Hrnd ltac:(lra)) as Hrh.
  assert (Hone : rnd 1 = 1) by (apply (double_rounding_integer rnd 1 Hrnd); lia).
  set (rw := rnd qw) in *. set (rh := rnd qh) in *.
  destruct (Z_le_gt_dec az wz) as [Hfw | Hfw];
    [destruct (Z_le_gt_dec bz hz) as [Hfh | Hfh]|].
  - (* the image fits *)
    assert (Haw : a <= W) by (apply IZR_le; exact Hfw).
    assert (Hbh : b <= H) by (apply IZR_le; exact Hfh).
    assert (H1w : 1 <= rw).
    { rewrite <- Hone. destruct Hrnd as (Hm & _ & _). apply Hm.
      apply (Rmult_le_reg_l a); [lra|]. rewrite Eqw. lra. }
    assert (H1h : 1 <= rh).
    { rewrite <- Hone. destruct Hrnd as (Hm & _ & _). apply Hm.
      apply (Rmult_le_reg_l b); [lra|]. rewrite Eqh. lra. }
    assert (Es : Rmin (Rmin rw rh) 1 = 1).
    { apply Rmin_right. now apply Rmin_glb. }
    rewrite Es, (proj2 (Rleb_true 1 1)) by lra. cbn [img_width img_height].
    split; [lra|]. split; [lra|]. split; [reflexivity|].
    intros [Hbig | Hbig]; lra.
  - (* too high *)
    assert (Hbh : H + 1 <= b).
    { unfold H, b. rewrite <- succ_IZR. apply IZR_le. lia. }
    assert (Hq : qh <= 1 - / 1000000).
    { apply (Rmult_le_reg_l b); [lra|]. rewrite Eqh. nra. }
    set (r := Rmin qw qh). set (m := Rmin rw rh).
    assert (Hr : / 1000000 <= r <= 1 - / 1000000 /\ r <= qw /\ r <= qh).
    { unfold r, Rmin. destruct (Rle_dec qw qh); lra. }
    assert (Hm : r - r / 9007199254740992 <= m <= r + r / 9007199254740992).
    { unfold r, m, Rmin. destruct (Rle_dec qw qh), (Rle_dec rw rh); lra. }
    assert (Hm1 : m < 1) by lra.
    assert (Es : Rmin m 1 = m) by (apply Rmin_left; lra).
    rewrite Es, (proj2 (Rleb_false 1 m)) by lra. cbn [img_width img_height].
    assert (Har : a * r <= W).
    { rewrite <- Eqw. apply Rmult_le_compat_l; lra. }
    assert (Hbr : b * r <= H).
    { rewrite <- Eqh. apply Rmult_le_compat_l; lra. }
    destruct (fitted_side rnd az wz m r Hrnd Haz HW ltac:(lra) Har Hm Hm1)
      as (S1 & S2 & S3).
    destruct (fitted_side rnd bz hz m r Hrnd Hbz HH ltac:(lra) Hbr Hm Hm1)
      as (T1 & T2 & T3).
    fold a b W H in S1, S2, S3, T1, T2, T3.
    split; [split; assumption|]. split; [split; assumption|].
    split; [intros _ Hc; lra|]. intros _. split; assumption.
  - (* too wide *)
    assert (Haw : W + 1 <= a).
    { unfold W, a. rewrite <- succ_IZR. apply IZR_le. lia. }
    assert (Hq : qw <= 1 - / 1000000).
    { apply (Rmult_le_reg_l a); [lra|]. rewrite Eqw. nra. }
    set (r := Rmin qw qh). set (m := Rmin rw rh).
    assert (Hr : / 1000000 <= r <= 1 - / 1000000 /\ r <= qw /\ r <= qh).
    { unfold r, Rmin. destruct (Rle_dec qw qh); lra. }
    assert (Hm : r - r / 9007199254740992 <= m <= r + r / 9007199254740992).
    { unfold r, m, Rmin. destruct (Rle_dec qw qh), (Rle_dec rw rh); lra. }
    assert (Hm1 : m < 1) by lra.
    assert (Es : Rmin m 1 = m) by (apply Rmin_left; lra).
    rewrite Es, (proj2 (Rleb_false 1 m)) by lra. cbn [img_width img_height].
    assert (Har : a * r <= W).
    { rewrite <- Eqw. apply Rmult_le_compat_l; lra. }
    assert (Hbr : b * r <= H).
    { rewrite <- Eqh. apply Rmult_le_compat_l; lra. }
    destruct (fitted_side rnd az wz m r Hrnd Haz HW ltac:(lra) Har Hm Hm1)
      as (S1 & S2 & S3).
    destruct (fitted_side rnd bz hz m r Hrnd Hbz HH ltac:(lra) Hbr Hm Hm1)
      as (T1 & T2 & T3).
    fold a b W H in S1, S2, S3, T1, T2, T3.
    split; [split; assumption|]. split; [split; assumption|].
    split; [intros Hc _; lra|]. intros _. split; assumption.
Qed.

(** Arithmetic without rounding error is one of the roundings allowed. *)
Lemma exact_double_rounding : double_rounding (fun x : R => x).
Proof.
  split; [auto|]. split; [auto|].
  intros x Hx. replace (x - x) with 0 by ring. rewrite Rabs_R0.
  apply Rmult_le_pos; [apply Rabs_pos | lra].
Qed.

Lemma fitImageToCanvas_fits_witness :
  1 <= img_width (fitImageToCanvas (fun x : R => x) createProject (mkImage 4000 3000)) <= 1280 /\
  1 <= img_height (fitImageToCanvas (fun x : R => x) createProject (mkImage 4000 3000)) <= 720.
Proof.
  apply (proj1 (fitImageToCanvas_fits (fun x : R => x) createProject (mkImage 4000 3000)
                  4000 3000 exact_double_rounding
                  ltac:(simpl; lia) ltac:(simpl; lia) eq_refl eq_refl
                  ltac:(lia) ltac:(lia))).
Defined.
